(** * mcp-yeoman: help parsing, requirement checking and outcome classification

    A shallow embedding of the generator-invocation core of the server
    (parseGeneratorHelp, extractEnumValues, isOptionRequired,
    checkRequiredArguments, the result classification of runYeomanGenerator,
    cleanOutput and the yeoman_generate request handler), with the
    properties the specification states about them. *)

From Stdlib Require Import NArith ZArith String Ascii List Bool Lia.
From stdpp Require Import base option list gmap pretty.

Local Open Scope N_scope.
Local Open Scope list_scope.

(** ** JavaScript strings

    A JavaScript string is a sequence of UTF-16 code units.  The regular
    expressions of the program carry no [u] flag, so they too work on code
    units. *)

Definition jschar : Type := N.
Abbreviation jsstring := (list N).

Definition lit (s : string) : jsstring :=
  List.map N_of_ascii (list_ascii_of_string s).

Definition in_range (lo hi c : jschar) : bool := (lo <=? c) && (c <=? hi).

(** [\d], [\w] and [\s] of a RegExp without the [u] flag. *)
Definition is_digit (c : jschar) : bool := in_range 48 57 c.

Definition is_word (c : jschar) : bool :=
  in_range 97 122 c || in_range 65 90 c || is_digit c || (c =? 95).

(** White space and line terminators: the set of [\s] and of [trim]. *)
Definition is_space (c : jschar) : bool :=
  in_range 9 13 c || (c =? 32) || (c =? 160) || (c =? 5760)
  || in_range 8192 8202 c || (c =? 8232) || (c =? 8233) || (c =? 8239)
  || (c =? 8287) || (c =? 12288) || (c =? 65279).

Definition is_char (a c : jschar) : bool := c =? a.
Definition any_char (c : jschar) : bool := true.
Definition not_in (p : jschar -> bool) (c : jschar) : bool := negb (p c).
Definition one_of (s : string) (c : jschar) : bool :=
  existsb (N.eqb c) (lit s).

Definition LF : jschar := 10.
Definition CR : jschar := 13.
Definition ESC : jschar := 27.

Fixpoint starts_with (p s : jsstring) : bool :=
  match p, s with
  | [], _ => true
  | a :: p', b :: s' => (a =? b) && starts_with p' s'
  | _ :: _, [] => false
  end.

(** [s.includes(needle)] *)
Fixpoint includes (s needle : jsstring) : bool :=
  starts_with needle s
  || match s with
     | [] => false
     | _ :: s' => includes s' needle
     end.

Fixpoint skip_while (p : jschar -> bool) (s : jsstring) : jsstring :=
  match s with
  | c :: s' => if p c then skip_while p s' else s
  | [] => []
  end.

Fixpoint keep_while (p : jschar -> bool) (s : jsstring) : jsstring :=
  match s with
  | c :: s' => if p c then c :: keep_while p s' else []
  | [] => []
  end.

(** [s.trim()] *)
Definition trim (s : jsstring) : jsstring :=
  rev (skip_while is_space (rev (skip_while is_space s))).

(** [s.split(sep)] for a separator of one code unit. *)
Fixpoint split (sep : jschar) (s : jsstring) : list jsstring :=
  match s with
  | [] => [[]]
  | c :: s' =>
      if c =? sep then [] :: split sep s'
      else match split sep s' with
           | h :: t => (c :: h) :: t
           | [] => [[c]]
           end
  end.

(** [xs.join(sep)] *)
Fixpoint join (sep : jsstring) (xs : list jsstring) : jsstring :=
  match xs with
  | [] => []
  | [x] => x
  | x :: rest => x ++ sep ++ join sep rest
  end.

(** [Array.prototype.includes] on an array of strings. *)
Definition array_includes (xs : list jsstring) (x : jsstring) : bool :=
  bool_decide (x ∈ xs).

(** ** Regular expressions

    The backtracking matcher of ECMAScript, for the constructs the program
    uses.  Every quantifier of the program's patterns ranges over a single
    character class, so [Rep] quantifies a class; [Opt] is the greedy [?]
    on a group.  Alternatives and quantifiers are tried in priority order,
    the continuation [k] being the rest of the pattern. *)

Inductive regex : Type :=
  | Eps
  | Chr (c : jschar)
  | Cls (p : jschar -> bool)
  | Seq (a b : regex)
  | Alt (a b : regex)
  | Opt (a : regex)
  | Rep (min : nat) (greedy : bool) (p : jschar -> bool)
  | Grp (i : nat) (a : regex)
  | Eos
  | WordB.

Fixpoint Str_of (s : jsstring) : regex :=
  match s with
  | [] => Eps
  | c :: s' => Seq (Chr c) (Str_of s')
  end.

Definition Str (s : string) : regex := Str_of (lit s).

Fixpoint Seqs (rs : list regex) : regex :=
  match rs with
  | [] => Eps
  | [r] => r
  | r :: rs' => Seq r (Seqs rs')
  end.

Fixpoint Alts (rs : list regex) : regex :=
  match rs with
  | [] => Eps
  | [r] => r
  | r :: rs' => Alt r (Alts rs')
  end.

Definition star p := Rep 0 true p.
Definition plus p := Rep 1 true p.
Definition lazy_star p := Rep 0 false p.

Record mstate := MState {
  ms_prev : option jschar;           (* the code unit before the position *)
  ms_rest : jsstring;                (* the input from the position on *)
  ms_caps : list (option jsstring)   (* the capture groups, [None] = undefined *)
}.

(** Canonicalisation of the [i] flag.  The literals of the program's
    case-insensitive patterns are ASCII, and without the [u] flag a code
    unit above 127 never canonicalises to an ASCII one. *)
Definition canon (c : jschar) : jschar :=
  if in_range 97 122 c then c - 32 else c.

Definition chr_eq (ic : bool) (c x : jschar) : bool :=
  if ic then canon c =? canon x else c =? x.

Definition is_word_opt (o : option jschar) : bool :=
  match o with
  | Some c => is_word c
  | None => false
  end.

Section Backtracking.
Context {A : Type}.

Definition orelse (x y : option A) : option A :=
  match x with
  | Some _ => x
  | None => y
  end.

Fixpoint rep_min (n : nat) (p : jschar -> bool) (prev : option jschar)
    (s : jsstring) (k : option jschar -> jsstring -> option A) : option A :=
  match n with
  | O => k prev s
  | S n' =>
      match s with
      | c :: s' => if p c then rep_min n' p (Some c) s' k else None
      | [] => None
      end
  end.

Fixpoint rep_greedy (p : jschar -> bool) (prev : option jschar)
    (s : jsstring) (k : option jschar -> jsstring -> option A) : option A :=
  match s with
  | c :: s' =>
      if p c then orelse (rep_greedy p (Some c) s' k) (k prev s)
      else k prev s
  | [] => k prev []
  end.

Fixpoint rep_lazy (p : jschar -> bool) (prev : option jschar)
    (s : jsstring) (k : option jschar -> jsstring -> option A) : option A :=
  orelse (k prev s)
    match s with
    | c :: s' => if p c then rep_lazy p (Some c) s' k else None
    | [] => None
    end.
End Backtracking.

Definition consumed (s s' : jsstring) : jsstring :=
  take (length s - length s') s.

Fixpoint rmatch (ic : bool) (r : regex) (st : mstate)
    (k : mstate -> option mstate) : option mstate :=
  match r with
  | Eps => k st
  | Chr c =>
      match ms_rest st with
      | x :: s' =>
          if chr_eq ic c x then k (MState (Some x) s' (ms_caps st)) else None
      | [] => None
      end
  | Cls p =>
      match ms_rest st with
      | x :: s' => if p x then k (MState (Some x) s' (ms_caps st)) else None
      | [] => None
      end
  | Seq a b => rmatch ic a st (fun st' => rmatch ic b st' k)
  | Alt a b => orelse (rmatch ic a st k) (rmatch ic b st k)
  | Opt a => orelse (rmatch ic a st k) (k st)
  | Rep n g p =>
      rep_min n p (ms_prev st) (ms_rest st) (fun pv s =>
        (if g then rep_greedy else rep_lazy) p pv s (fun pv' s' =>
          k (MState pv' s' (ms_caps st))))
  | Grp i a =>
      rmatch ic a st (fun st' =>
        k (MState (ms_prev st') (ms_rest st')
             (<[i := Some (consumed (ms_rest st) (ms_rest st'))]> (ms_caps st'))))
  | Eos =>
      match ms_rest st with
      | [] => k st
      | _ :: _ => None
      end
  | WordB =>
      if xorb (is_word_opt (ms_prev st)) (is_word_opt (head (ms_rest st)))
      then k st else None
  end.

(** A pattern with its [i] flag and its number of capture groups. *)
Record RegExp := mkRegExp {
  re_icase : bool;
  re_groups : nat;
  re_body : regex
}.

(** The result of one match: the matched text, the groups (index 0 is not
    used, [m_text] is the whole match) and the input after the match. *)
Record jsmatch := mkMatch {
  m_text : jsstring;
  m_caps : list (option jsstring);
  m_rest : jsstring
}.

Definition cap (m : jsmatch) (i : nat) : option jsstring :=
  match m_caps m !! i with
  | Some o => o
  | None => None
  end.

(** A match attempt at one position: [prev] is the code unit before it. *)
Definition match_at (re : RegExp) (prev : option jschar) (s : jsstring)
    : option jsmatch :=
  match rmatch (re_icase re) (re_body re)
          (MState prev s (replicate (S (re_groups re)) None)) Some with
  | Some st => Some (mkMatch (consumed s (ms_rest st)) (ms_caps st) (ms_rest st))
  | None => None
  end.

(** The leftmost match from a position on, with the text skipped before it:
    [s.match(re)] and [re.exec(s)] of a pattern without the [g] flag. *)
Fixpoint search_from (re : RegExp) (prev : option jschar) (s : jsstring)
    : option (jsstring * jsmatch) :=
  match match_at re prev s with
  | Some m => Some ([], m)
  | None =>
      match s with
      | [] => None
      | c :: s' =>
          match search_from re (Some c) s' with
          | Some (pre, m) => Some (c :: pre, m)
          | None => None
          end
      end
  end.

Definition search (re : RegExp) (s : jsstring) : option jsmatch :=
  snd <$> search_from re None s.

Definition test (re : RegExp) (s : jsstring) : bool :=
  bool_decide (is_Some (search re s)).

(** The successive matches of a pattern with the [g] flag, as
    [String.prototype.match] and [replace] find them: each match is searched
    from the end of the previous one, and after an empty match the search
    moves one code unit on.  The result lists every match with the unmatched
    text before it, and the unmatched text after the last one.  [skip] counts
    the code units of the current match that are still to be passed. *)
Definition cons_text (c : jschar) (r : list (jsstring * jsmatch) * jsstring)
    : list (jsstring * jsmatch) * jsstring :=
  match r with
  | ((pre, m) :: segs, tl) => ((c :: pre, m) :: segs, tl)
  | ([], tl) => ([], c :: tl)
  end.

Definition cons_match (m : jsmatch) (r : list (jsstring * jsmatch) * jsstring)
    : list (jsstring * jsmatch) * jsstring :=
  (([], m) :: fst r, snd r).

Fixpoint gscan (re : RegExp) (prev : option jschar) (s : jsstring)
    (skip : nat) : list (jsstring * jsmatch) * jsstring :=
  match skip with
  | S n =>
      match s with
      | c :: s' => gscan re (Some c) s' n
      | [] => ([], [])
      end
  | O =>
      match match_at re prev s with
      | Some m =>
          match s with
          | [] => ([([], m)], [])
          | c :: s' =>
              match length (m_text m) with
              | O => cons_match m (cons_text c (gscan re (Some c) s' 0))
              | S n => cons_match m (gscan re (Some c) s' n)
              end
          end
      | None =>
          match s with
          | [] => ([], [])
          | c :: s' => cons_text c (gscan re (Some c) s' 0)
          end
      end
  end.

Definition global_matches (re : RegExp) (s : jsstring) : list jsmatch :=
  snd <$> fst (gscan re None s 0).

(** [s.match(re)] for a pattern with the [g] flag: the matched texts, or
    [null] when there is none. *)
Definition match_g (re : RegExp) (s : jsstring) : option (list jsstring) :=
  match global_matches re s with
  | [] => None
  | ms => Some (m_text <$> ms)
  end.

(** [s.replace(re, f)] for a pattern with the [g] flag: the unmatched text
    is kept and each match gives way to what [f] makes of it. *)
Definition render (f : jsmatch -> jsstring)
    (r : list (jsstring * jsmatch) * jsstring) : jsstring :=
  concat ((fun seg : jsstring * jsmatch => fst seg ++ f (snd seg)) <$> fst r)
  ++ snd r.

Definition replace_g (re : RegExp) (f : jsmatch -> jsstring) (s : jsstring)
    : jsstring :=
  render f (gscan re None s 0).

(** ** Outcomes

    A computation of the program returns, throws, or loops for ever.  A
    [while ((m = re.exec(s)) !== null)] loop over a [g] pattern does not
    return when a match is empty: [lastIndex] stays where it is, the same
    match is found again and the body runs on it again. *)
Inductive outcome (A : Type) : Type :=
  | Returns (a : A)
  | Throws
  | Diverges.
Arguments Returns {A} a.
Arguments Throws {A}.
Arguments Diverges {A}.

#[global] Instance outcome_bind : MBind outcome := fun A B f x =>
  match x with
  | Returns a => f a
  | Throws => Throws
  | Diverges => Diverges
  end.

#[global] Instance outcome_ret : MRet outcome := fun A a => Returns a.

(** Reading a group on which a string method is called: [undefined] has no
    methods, the call throws a TypeError. *)
Definition defined {A} (o : option A) : outcome A :=
  match o with
  | Some a => Returns a
  | None => Throws
  end.

(** A group passed where a string is expected is converted by ToString. *)
Definition to_string (o : option jsstring) : jsstring :=
  default (lit "undefined") o.

(** The loop [while ((match = re.exec(s)) !== null) body], with the state
    the body updates. *)
Fixpoint exec_loop {St : Type} (body : jsmatch -> St -> outcome St)
    (ms : list jsmatch) (st : St) : outcome St :=
  match ms with
  | [] => Returns st
  | m :: ms' =>
      match m_text m with
      | [] => _ ← body m st; Diverges
      | _ :: _ => st' ← body m st; exec_loop body ms' st'
      end
  end.

(** [xs.forEach(body)] with the state the body updates. *)
Fixpoint forEach {X St : Type} (body : X -> St -> St) (xs : list X)
    (st : St) : St :=
  match xs with
  | [] => st
  | x :: xs' => forEach body xs' (body x st)
  end.

Fixpoint forEach_from {X St : Type} (body : X -> nat -> St -> St) (i : nat)
    (xs : list X) (st : St) : St :=
  match xs with
  | [] => st
  | x :: xs' => forEach_from body (S i) xs' (body x i st)
  end.

(** [xs.findIndex(p)], [None] for -1. *)
Fixpoint findIndex {X : Type} (p : X -> bool) (xs : list X) : option nat :=
  match xs with
  | [] => None
  | x :: xs' => if p x then Some O else S <$> findIndex p xs'
  end.

Definition jseq (a b : jsstring) : bool := bool_decide (a = b).

(** ** The patterns of the program *)

Definition not_char (a : jschar) : jschar -> bool := not_in (is_char a).

(** [/Usage:[\s\n]+yo\s+(\w+)\s+([^\n]+)/] *)
Definition usageRe : RegExp := mkRegExp false 2
  (Seqs [Str "Usage:"; plus (fun c => is_space c || is_char LF c); Str "yo";
         plus is_space; Grp 1 (plus is_word); plus is_space;
         Grp 2 (plus (not_char LF))]).

(** [/\[\<(\w+)\>\]/g] *)
Definition usageArgRe : RegExp := mkRegExp false 1
  (Seqs [Str "[<"; Grp 1 (plus is_word); Str ">]"]).

(** [/[\[\]<>]/g] *)
Definition bracketsRe : RegExp := mkRegExp false 0 (Cls (one_of "[]<>")).

(** [/Arguments:([^]*?)(\n\n|\n$|$)/] *)
Definition argsSectionRe : RegExp := mkRegExp false 2
  (Seqs [Str "Arguments:"; Grp 1 (lazy_star any_char);
         Grp 2 (Alts [Seq (Chr LF) (Chr LF); Seq (Chr LF) Eos; Eos])]).

(** [/\s*(\w+)\s*#\s*([^]*?)(?:\s*Type:\s*(\w+))?(?:\s*Required:\s*(true|false))?(?:\n|$)/g] *)
Definition argRegex : RegExp := mkRegExp false 4
  (Seqs [star is_space; Grp 1 (plus is_word); star is_space; Chr 35;
         star is_space; Grp 2 (lazy_star any_char);
         Opt (Seqs [star is_space; Str "Type:"; star is_space;
                    Grp 3 (plus is_word)]);
         Opt (Seqs [star is_space; Str "Required:"; star is_space;
                    Grp 4 (Alt (Str "true") (Str "false"))]);
         Alt (Chr LF) Eos]).

(** [/Options:([^]*?)(\n\nArguments:|\n\n|\n$|$)/] *)
Definition optionsSectionRe : RegExp := mkRegExp false 2
  (Seqs [Str "Options:"; Grp 1 (lazy_star any_char);
         Grp 2 (Alts [Seqs [Chr LF; Chr LF; Str "Arguments:"];
                      Seq (Chr LF) (Chr LF); Seq (Chr LF) Eos; Eos])]).

(** [/\s*(?:-(\w),)?\s*--(\S+)\s*#\s*([^]*?)(?:\s*Default:\s*(\S+))?(?:\n|$)/g] *)
Definition optionRegex : RegExp := mkRegExp false 4
  (Seqs [star is_space; Opt (Seqs [Chr 45; Grp 1 (Cls is_word); Chr 44]);
         star is_space; Str "--"; Grp 2 (plus (not_in is_space));
         star is_space; Chr 35; star is_space; Grp 3 (lazy_star any_char);
         Opt (Seqs [star is_space; Str "Default:"; star is_space;
                    Grp 4 (plus (not_in is_space))]);
         Alt (Chr LF) Eos]).

(** [/(?:Questions|Prompts|Inputs):(.*?)(?:\n\n|\n$|$)/is] *)
Definition promptSectionRe : RegExp := mkRegExp true 1
  (Seqs [Alts [Str "Questions"; Str "Prompts"; Str "Inputs"]; Chr 58;
         Grp 1 (lazy_star any_char);
         Alts [Seq (Chr LF) (Chr LF); Seq (Chr LF) Eos; Eos]]).

(** [/\[([^\]]+)\]/] *)
Definition enumRe : RegExp := mkRegExp false 1
  (Seqs [Chr 91; Grp 1 (plus (not_char 93)); Chr 93]).

(** [/\b(enter|specify|provide)\b/i] *)
Definition promptVerbRe : RegExp := mkRegExp true 1
  (Seqs [WordB; Grp 1 (Alts [Str "enter"; Str "specify"; Str "provide"]);
         WordB]).

(** [/-([a-z])/g] *)
Definition kebabRe : RegExp := mkRegExp false 1
  (Seq (Chr 45) (Grp 1 (Cls (in_range 97 122)))).


(** [/\?\s+[\w\s]+/g] and [/>\s+[\w\s]+/g] *)
Definition word_or_space (c : jschar) : bool := is_word c || is_space c.

Definition questionRe : RegExp := mkRegExp false 0
  (Seqs [Chr 63; plus is_space; plus word_or_space]).

Definition selectionRe : RegExp := mkRegExp false 0
  (Seqs [Chr 62; plus is_space; plus word_or_space]).

(** [/\?\s+[\w\s]+[^\n]*/g] and [/>\s+[\w\s]+[^\n]*/g] *)
Definition questionLineRe : RegExp := mkRegExp false 0
  (Seqs [Chr 63; plus is_space; plus word_or_space; star (not_char LF)]).

Definition selectionLineRe : RegExp := mkRegExp false 0
  (Seqs [Chr 62; plus is_space; plus word_or_space; star (not_char LF)]).

(** The six patterns of cleanOutput:
    [/\u001b\[\d+m/g], [/\u001b\[\?25[hl]/g], [/\u001b\[\d+[A-Z]/g],
    [/\r\n/g], [/\r/g] and [/\n{3,}/g]. *)
Definition colorRe : RegExp := mkRegExp false 0
  (Seqs [Chr ESC; Chr 91; plus is_digit; Chr 109]).

Definition cursorVisibilityRe : RegExp := mkRegExp false 0
  (Seqs [Chr ESC; Chr 91; Chr 63; Chr 50; Chr 53; Cls (one_of "hl")]).

Definition cursorMoveRe : RegExp := mkRegExp false 0
  (Seqs [Chr ESC; Chr 91; plus is_digit; Cls (in_range 65 90)]).

Definition crlfRe : RegExp := mkRegExp false 0 (Seq (Chr CR) (Chr LF)).

Definition crRe : RegExp := mkRegExp false 0 (Chr CR).

Definition blankLinesRe : RegExp := mkRegExp false 0 (Rep 3 true (is_char LF)).

(** ** The help parser *)

Record Arg := mkArg {
  arg_name : jsstring;
  arg_type : jsstring;
  arg_required : bool;
  arg_description : jsstring
}.

(** [default] and [required] are optional properties: [None] is
    [undefined]. *)
Record OptionInfo := mkOption {
  opt_name : jsstring;
  opt_flag : jsstring;
  opt_description : jsstring;
  opt_default : option jsstring;
  opt_required : option bool
}.

Record HelpInfo := mkHelpInfo {
  args : list Arg;
  options : list OptionInfo
}.

Definition nonRequiredOptions : list jsstring :=
  lit <$> ["help"; "skip-cache"; "skip-install"; "force-install";
           "ask-answered"; "force"; "yes"; "force-yes"; "quiet"; "no-color";
           "no-insight"; "silent"]%string.

Definition push_arg (a : Arg) (result : HelpInfo) : HelpInfo :=
  mkHelpInfo (args result ++ [a]) (options result).

Definition set_arg (i : nat) (a : Arg) (result : HelpInfo) : HelpInfo :=
  mkHelpInfo (<[i := a]> (args result)) (options result).

Definition push_option (o : OptionInfo) (result : HelpInfo) : HelpInfo :=
  mkHelpInfo (args result) (options result ++ [o]).

(** The usage line: one preliminary argument for each [[<name>]]. *)
Definition parseUsage (helpOutput : jsstring) (result : HelpInfo)
    : outcome HelpInfo :=
  match search usageRe helpOutput with
  | Some usageMatch =>
      usage ← defined (cap usageMatch 2);
      let usageLine := trim usage in
      match match_g usageArgRe usageLine with
      | Some argMatches =>
          Returns (forEach (fun m result =>
            let argName := replace_g bracketsRe (fun _ => []) m in
            push_arg (mkArg argName (lit "String") false []) result)
            argMatches result)
      | None => Returns result
      end
  | None => Returns result
  end.

(** The body of the loop over the entries of the Arguments section.  The
    name and the description are groups 1 and 2, which the record types as
    strings; the type and the required marker have the defaults ['String']
    and ['false']. *)
Definition argBody (m : jsmatch) (result : HelpInfo) : outcome HelpInfo :=
  name ← defined (cap m 1);
  description ← defined (cap m 2);
  let type := default (lit "String") (cap m 3) in
  let required := default (lit "false") (cap m 4) in
  let entry :=
    mkArg name (match type with [] => lit "String" | _ => type end)
          (jseq required (lit "true")) (trim description) in
  match findIndex (fun a => jseq (arg_name a) name) (args result) with
  | Some existingArgIndex => Returns (set_arg existingArgIndex entry result)
  | None => Returns (push_arg entry result)
  end.

Definition parseArguments (helpOutput : jsstring) (result : HelpInfo)
    : outcome HelpInfo :=
  match search argsSectionRe helpOutput with
  | Some argsMatch =>
      let argsSection := to_string (cap argsMatch 1) in
      exec_loop argBody (global_matches argRegex argsSection) result
  | None => Returns result
  end.

(** The body of the loop over the entries of the Options section. *)
Definition optionBody (m : jsmatch) (result : HelpInfo) : outcome HelpInfo :=
  name ← defined (cap m 2);
  description ← defined (cap m 3);
  let shortFlag := cap m 1 in
  let defaultValue := cap m 4 in
  let isRequired :=
    includes description (lit "(Required)")
    || includes description (lit "[Required]")
    || includes description (lit "required")
    || negb (includes description (lit "Optional")) in
  let isRequired :=
    if array_includes nonRequiredOptions name then false else isRequired in
  Returns (push_option
    (mkOption name (default [] shortFlag) (trim description) defaultValue
              (Some isRequired)) result).

Definition parseOptions (helpOutput : jsstring) (result : HelpInfo)
    : outcome HelpInfo :=
  match search optionsSectionRe helpOutput with
  | Some optionsMatch =>
      let optionsSection := to_string (cap optionsMatch 1) in
      exec_loop optionBody (global_matches optionRegex optionsSection) result
  | None => Returns result
  end.

Definition set_required (b : bool) (o : OptionInfo) : OptionInfo :=
  mkOption (opt_name o) (opt_flag o) (opt_description o) (opt_default o) (Some b).

(** The body of the loop over the options when the help has a Questions,
    Prompts or Inputs section. *)
Definition promptBody (promptSection : option jsstring) (o : OptionInfo)
    : outcome OptionInfo :=
  if array_includes nonRequiredOptions (opt_name o) then
    Returns (set_required false o)
  else
    section ← defined promptSection;
    Returns (if includes section (opt_name o) then set_required true o else o).

Fixpoint mapM {X Y : Type} (f : X -> outcome Y) (xs : list X)
    : outcome (list Y) :=
  match xs with
  | [] => Returns []
  | x :: xs' => y ← f x; ys ← mapM f xs'; Returns (y :: ys)
  end.

Definition parsePrompts (helpOutput : jsstring) (result : HelpInfo)
    : outcome HelpInfo :=
  match search promptSectionRe helpOutput with
  | Some promptMatch =>
      opts ← mapM (promptBody (cap promptMatch 1)) (options result);
      Returns (mkHelpInfo (args result) opts)
  | None => Returns result
  end.

Definition parseGeneratorHelp (helpOutput : jsstring) : outcome HelpInfo :=
  result ← parseUsage helpOutput (mkHelpInfo [] []);
  result ← parseArguments helpOutput result;
  result ← parseOptions helpOutput result;
  parsePrompts helpOutput result.

(** ** Enumerated values *)

Definition extractEnumValues (description : jsstring)
    : outcome (option (list jsstring)) :=
  match search enumRe description with
  | Some m =>
      inner ← defined (cap m 1);
      Returns (Some (split 124 inner))
  | None => Returns None
  end.

(** ** Values and objects

    An option value comes from JSON.  A number is kept abstract, with the
    two things the program observes of it; an object, an array or a function
    is represented by the text ToString gives for it. *)

Section Values.
Context {Number : Type}.

Inductive JSValue : Type :=
  | VUndefined
  | VNull
  | VBool (b : bool)
  | VNumber (x : Number)
  | VString (s : jsstring)
  | VObject (text : jsstring).
End Values.
Arguments JSValue Number : clear implicits.

Section Program.
Context {Number : Type}.
(** [x === 0 || isNaN(x)], and [String(x)] *)
Context (number_is_falsy : Number -> bool) (number_text : Number -> jsstring).
(** [String.prototype.toLowerCase], with the case mapping of Unicode *)
Context (toLowerCase : jsstring -> jsstring).

Abbreviation Value := (JSValue Number).
Abbreviation JSObject := (gmap jsstring (JSValue Number)).

(** ToBoolean *)
Definition truthy (v : Value) : bool :=
  match v with
  | VUndefined | VNull => false
  | VBool b => b
  | VNumber x => negb (number_is_falsy x)
  | VString s => negb (jseq s [])
  | VObject _ => true
  end.

(** ToString, as a template literal applies it *)
Definition value_text (v : Value) : jsstring :=
  match v with
  | VUndefined => lit "undefined"
  | VNull => lit "null"
  | VBool b => if b then lit "true" else lit "false"
  | VNumber x => number_text x
  | VString s => s
  | VObject text => text
  end.

Definition native_function (name : string) : Value :=
  VObject (lit "function " ++ lit name ++ lit "() { [native code] }").

(** The properties an object literal inherits from [Object.prototype]. *)
Definition Object_prototype : JSObject :=
  list_to_map
    [(lit "constructor", native_function "Object");
     (lit "__defineGetter__", native_function "__defineGetter__");
     (lit "__defineSetter__", native_function "__defineSetter__");
     (lit "hasOwnProperty", native_function "hasOwnProperty");
     (lit "__lookupGetter__", native_function "__lookupGetter__");
     (lit "__lookupSetter__", native_function "__lookupSetter__");
     (lit "isPrototypeOf", native_function "isPrototypeOf");
     (lit "propertyIsEnumerable", native_function "propertyIsEnumerable");
     (lit "toString", native_function "toString");
     (lit "valueOf", native_function "valueOf");
     (lit "__proto__", VObject (lit "[object Object]"));
     (lit "toLocaleString", native_function "toLocaleString")].

(** [o[k]]: the own property, else the inherited one, else [undefined]. *)
Definition get (o : JSObject) (k : jsstring) : Value :=
  match o !! k with
  | Some v => v
  | None => default VUndefined (Object_prototype !! k)
  end.

(** ** Required options *)

Definition likelyRequiredOptionPatterns : list jsstring :=
  lit <$> ["username"; "name"; "email"; "author"; "css"; "style"; "client";
           "graphql"]%string.

Definition isOptionRequired (option : OptionInfo) : outcome bool :=
  if bool_decide (opt_required option = Some true) then Returns true
  else if bool_decide (opt_default option ≠ None) then Returns false
  else if includes (opt_description option) (lit "Default:") then Returns false
  else if array_includes nonRequiredOptions (opt_name option) then Returns false
  else if existsb (fun pattern => includes (toLowerCase (opt_name option)) pattern)
            likelyRequiredOptionPatterns then Returns true
  else if includes (opt_description option) (lit "?")
          || test promptVerbRe (opt_description option) then Returns true
  else
    enumValues ← extractEnumValues (opt_description option);
    match enumValues with
    | Some (_ :: _) => Returns true
    | _ => Returns false
    end.

(** ** The requirement check *)

Record MissingArg := mkMissingArg {
  ma_name : jsstring;
  ma_description : jsstring
}.

Record MissingOption := mkMissingOption {
  mo_name : jsstring;
  mo_description : jsstring;
  mo_enumValues : option (list jsstring)
}.

Record CheckResult := mkCheckResult {
  missingRequired : list MissingArg;
  missingOptions : list MissingOption;
  defaultOptions : JSObject
}.

Definition push_missingRequired (a : MissingArg) (r : CheckResult) :=
  mkCheckResult (missingRequired r ++ [a]) (missingOptions r) (defaultOptions r).

Definition push_missingOptions (o : MissingOption) (r : CheckResult) :=
  mkCheckResult (missingRequired r) (missingOptions r ++ [o]) (defaultOptions r).

(** [s.replace(/-([a-z])/g, g => g[1].toUpperCase())]: [g] is the matched
    text, [g[1]] its second code unit, a lower-case ASCII letter (a match
    of this pattern always has two code units). *)
Definition upper_second (m : jsmatch) : jsstring :=
  match m_text m !! 1%nat with
  | Some c => [canon c]
  | None => []
  end.

Definition camelCase (kebabName : jsstring) : jsstring :=
  replace_g kebabRe upper_second kebabName.

Definition checkArg (providedArgs : list jsstring) (arg : Arg) (index : nat)
    (result : CheckResult) : CheckResult :=
  if arg_required arg && bool_decide (length providedArgs ≤ index)%nat then
    push_missingRequired (mkMissingArg (arg_name arg) (arg_description arg)) result
  else result.

Definition checkOption (providedOptions : JSObject) (option : OptionInfo)
    (result : CheckResult) : outcome CheckResult :=
  let kebabName := opt_name option in
  let camelName := camelCase kebabName in
  isRequired ← isOptionRequired option;
  enumValues ← extractEnumValues (opt_description option);
  let has_values :=
    match enumValues with
    | Some (_ :: _) => true
    | _ => false
    end in
  if has_values && negb (truthy (get providedOptions kebabName))
     && negb (truthy (get providedOptions camelName)) then
    if (isRequired : bool) then
      mret (push_missingOptions
        (mkMissingOption kebabName (opt_description option) enumValues) result)
    else mret result
  else if (isRequired : bool) && negb (truthy (get providedOptions kebabName))
          && negb (truthy (get providedOptions camelName)) then
    mret (push_missingOptions
      (mkMissingOption kebabName (opt_description option) None) result)
  else mret result.

Fixpoint forEachM {X St : Type} (body : X -> St -> outcome St) (xs : list X)
    (st : St) : outcome St :=
  match xs with
  | [] => Returns st
  | x :: xs' => st' ← body x st; forEachM body xs' st'
  end.

Definition checkRequiredArguments (helpInfo : HelpInfo)
    (providedArgs : list jsstring) (providedOptions : JSObject)
    : outcome CheckResult :=
  let result := mkCheckResult [] [] ∅ in
  let result := forEach_from (checkArg providedArgs) 0 (args helpInfo) result in
  forEachM (checkOption providedOptions) (options helpInfo) result.
End Program.

(** ** Output sanitisation *)

Definition remove (re : RegExp) (s : jsstring) : jsstring :=
  replace_g re (fun _ => []) s.

Definition cleanOutput (output : jsstring) : jsstring :=
  let output := remove colorRe output in
  let output := remove cursorVisibilityRe output in
  let output := remove cursorMoveRe output in
  let output := replace_g crlfRe (fun _ => [LF]) output in
  let output := replace_g crRe (fun _ => [LF]) output in
  replace_g blankLinesRe (fun _ => [LF; LF]) output.

(** ** The generator run *)

Section Runner.
Context {Number : Type}.
Context (number_is_falsy : Number -> bool) (number_text : Number -> jsstring).
(** [Object.entries(o)]: the own properties of [o] in property order. *)
Context (entries : gmap jsstring (JSValue Number) ->
                   list (jsstring * JSValue Number)).

(** *** The yeoman_generate request *)

Record GenerateRequest := mkGenerateRequest {
  req_generatorName : jsstring;
  req_options : option (gmap jsstring (JSValue Number));
  req_cwd : jsstring;
  req_args : option (list jsstring);
  req_appName : jsstring;
  req_version : jsstring
}.

(** [{...options, 'skip-install': true, ..., 'quiet': true}] *)
Definition mergedOptions (options : gmap jsstring (JSValue Number))
    : gmap jsstring (JSValue Number) :=
  <[lit "quiet" := VBool true]>
  (<[lit "no-color" := VBool true]>
  (<[lit "no-insight" := VBool true]>
  (<[lit "yes" := VBool true]>
  (<[lit "force-yes" := VBool true]>
  (<[lit "skip-cache" := VBool true]>
  (<[lit "skip-install" := VBool true]> options)))))).

(** [unshift] puts a value in front of the array. *)
Definition unshift (x : jsstring) (xs : list jsstring) : list jsstring :=
  x :: xs.

Definition allPositionalArgs (positionalArgs : list jsstring)
    (appName version : jsstring) : list jsstring :=
  let all := positionalArgs in
  let all := if negb (jseq version []) then unshift version all else all in
  let all := if negb (jseq appName []) then unshift appName all else all in
  all.

(** What the handler passes to runYeomanGenerator: the generator, the
    options, the directory and the positional arguments. *)
Record RunCall := mkRunCall {
  run_generatorName : jsstring;
  run_options : gmap jsstring (JSValue Number);
  run_cwd : jsstring;
  run_args : list jsstring
}.

Definition yeoman_generate (req : GenerateRequest) : RunCall :=
  let options := default ∅ (req_options req) in
  let positionalArgs := default [] (req_args req) in
  mkRunCall (req_generatorName req) (mergedOptions options) (req_cwd req)
    (allPositionalArgs positionalArgs (req_appName req) (req_version req)).

(** *** The command line *)

Definition renderOption (yoArgs : list jsstring)
    (entry : jsstring * JSValue Number) : list jsstring :=
  let '(key, value) := entry in
  match value with
  | VBool true => yoArgs ++ [lit "--" ++ key]
  | VBool false | VUndefined | VNull => yoArgs
  | _ => yoArgs ++ [lit "--" ++ key ++ lit "=" ++ value_text number_text value]
  end.

Definition nonInteractiveFlags : list jsstring :=
  lit <$> ["--no-insight"; "--no-color"; "--force-yes"; "--yes";
           "--skip-install"; "--skip-cache"; "--skip-prompts"; "--quiet";
           "--no-interactive"]%string.

Definition addFlag (yoArgs : list jsstring) (flag : jsstring)
    : list jsstring :=
  if array_includes yoArgs flag then yoArgs else yoArgs ++ [flag].

Definition yoArgs (cliYoPath generatorName : jsstring)
    (options : gmap jsstring (JSValue Number)) (args : list jsstring)
    : list jsstring :=
  let yoArgs := cliYoPath :: generatorName :: args in
  let yoArgs := foldl renderOption yoArgs (entries options) in
  foldl addFlag yoArgs nonInteractiveFlags.

(** *** The classification of the outcome *)

(** What the [close] handler resolves with: [success] is [code === 0]
    ([code] is [null] when a signal ended the process). *)
Record ProcessResult := mkProcessResult {
  success : bool;
  output : jsstring
}.

Definition on_close (code : option Z) (output : jsstring) : ProcessResult :=
  mkProcessResult (bool_decide (code = Some 0%Z)) output.

(** The object runYeomanGenerator returns; [None] is an absent property. *)
Record RunResult := mkRunResult {
  r_success : bool;
  r_error : option jsstring;
  r_output : option jsstring;
  r_promptsDetected : option (list jsstring);
  r_suggestions : option (list jsstring);
  r_generatorRan : option bool;
  r_generatorConfigExists : option bool
}.

(** The file .yo-rc.json of the target directory as the run finds it. *)
Inductive YoRc : Type :=
  | YoRcMissing
  | YoRcUnreadable
  | YoRcObject (yoRc : gmap jsstring (JSValue Number)).

Definition getGeneratorKey (generatorName : jsstring) : jsstring :=
  lit "generator-" ++ generatorName.

Definition generatorConfigExists (generatorName : jsstring) (file : YoRc)
    : bool :=
  match file with
  | YoRcObject yoRc =>
      truthy number_is_falsy (get yoRc (getGeneratorKey generatorName))
  | YoRcMissing | YoRcUnreadable => false
  end.

Definition hasPrompts (output : jsstring) : bool :=
  includes output (lit "?")
  && (bool_decide (is_Some (match_g questionRe output))
      || bool_decide (is_Some (match_g selectionRe output))).

Definition promptLines (output : jsstring) : list jsstring :=
  let questionPrompts := default [] (match_g questionLineRe output) in
  let optionPrompts := default [] (match_g selectionLineRe output) in
  trim <$> (questionPrompts ++ optionPrompts).

Definition classify (generatorName : jsstring) (result : ProcessResult)
    (file : YoRc) : RunResult :=
  if includes (output result) (lit "Did not find a suitable generator") then
    mkRunResult false
      (Some (lit "Generator '" ++ generatorName ++ lit "' not found"))
      (Some (cleanOutput (output result))) None
      (Some [lit "Make sure generator-" ++ generatorName ++ lit " exists on npm"])
      None None
  else if hasPrompts (output result) then
    mkRunResult false
      (Some (lit "Generator entered interactive mode - missing required options"))
      (Some (cleanOutput (output result)))
      (Some (promptLines (output result)))
      (Some ([lit "The generator is trying to prompt for input. "
              ++ lit "Please provide all required options:"]
             ++ ((fun line => lit "- " ++ line) <$> promptLines (output result))
             ++ [lit "Run with --help to see all available options"]))
      None None
  else if includes (output result) (lit "Invalid version format") then
    mkRunResult false
      (Some (lit "Invalid version format provided"))
      (Some (cleanOutput (output result))) None
      (Some [lit "Version should follow semantic versioning (e.g., "
               ++ [34] ++ lit "1.0.0" ++ [34] ++ lit ")";
             lit "Make sure your arguments are in the correct order"])
      None None
  else if negb (success result) then
    mkRunResult false
      (Some (lit "Generator failed to run successfully"))
      (Some (cleanOutput (output result))) None None None None
  else
    mkRunResult true None (Some (cleanOutput (output result))) None None
      (Some true) (Some (generatorConfigExists generatorName file)).
End Runner.

(** ** What a match leaves behind

    [min_len r] bounds the length of every match of [r] from below, and
    [binds r] lists groups that every match of [r] defines. *)

Fixpoint min_len (r : regex) : nat :=
  match r with
  | Eps | Eos | WordB | Opt _ => 0
  | Chr _ | Cls _ => 1
  | Seq a b => min_len a + min_len b
  | Alt a b => min_len a `min` min_len b
  | Rep n _ _ => n
  | Grp _ a => min_len a
  end.

Fixpoint binds (r : regex) : list nat :=
  match r with
  | Seq a b => binds a ++ binds b
  | Grp i a => i :: binds a
  | _ => []
  end.

Definition cap_defined (caps : list (option jsstring)) (i : nat) : Prop :=
  ∃ v, caps !! i = Some (Some v).

Definition advances (r : regex) (st st' : mstate) : Prop :=
  (∃ pre, ms_rest st = pre ++ ms_rest st' ∧ (min_len r ≤ length pre)%nat)
  ∧ length (ms_caps st') = length (ms_caps st)
  ∧ (∀ i, cap_defined (ms_caps st) i → cap_defined (ms_caps st') i)
  ∧ (∀ i, i ∈ binds r → (i < length (ms_caps st))%nat →
          cap_defined (ms_caps st') i).

(** A match that some attempt of the pattern gives. *)
Definition matched (re : RegExp) (m : jsmatch) : Prop :=
  ∃ prev s, match_at re prev s = Some m.

(** The code unit before a position, after the text [pre] has been passed. *)
Definition prev_after (prev : option jschar) (pre : jsstring) : option jschar :=
  foldl (fun _ c => Some c) prev pre.

(** ** Vocabulary of the properties *)

(** The required flag of an option on the deny-list is off. *)
Definition deny_listed_optional (o : OptionInfo) : Prop :=
  opt_name o ∈ nonRequiredOptions → opt_required o = Some false.

(** The options the yeoman_generate handler sets itself. *)
Definition forced_options : list jsstring :=
  lit <$> ["skip-install"; "skip-cache"; "force-yes"; "yes"; "no-insight";
           "no-color"; "quiet"]%string.

(** Three line feeds, and the number of line feeds a text begins with. *)
Definition triple_LF : jsstring := [LF; LF; LF].

Definition lead (s : jsstring) : nat := length (keep_while (is_char LF) s).

(** The last step of cleanOutput. *)
Definition collapse (s : jsstring) : jsstring :=
  replace_g blankLinesRe (fun _ => [LF; LF]) s.

(** ** Escape sequences

    The three forms of escape sequence cleanOutput looks for: a colour code
    [ESC [ digits m], a cursor visibility command [ESC [ ? 2 5 h] or
    [ESC [ ? 2 5 l], and a cursor movement [ESC [ digits X] with a capital
    letter [X]. *)
Inductive escape_sequence : jsstring → Prop :=
  | colour_code (ds : jsstring) :
      ds ≠ [] → Forall (fun c => is_digit c = true) ds →
      escape_sequence ([ESC; 91] ++ ds ++ [109])
  | cursor_visibility (c : jschar) :
      one_of "hl" c = true → escape_sequence [ESC; 91; 63; 50; 53; c]
  | cursor_movement (ds : jsstring) (c : jschar) :
      ds ≠ [] → Forall (fun c => is_digit c = true) ds →
      in_range 65 90 c = true →
      escape_sequence ([ESC; 91] ++ ds ++ [c]).

(** An output in which escape sequences stand between texts without ESC:
    the texts with the sequence after each, and the text after the last
    one. *)
Definition with_sequences (segments : list (jsstring * jsstring))
    (tail : jsstring) : jsstring :=
  concat ((fun seg => fst seg ++ snd seg) <$> segments) ++ tail.

Definition without_sequences (segments : list (jsstring * jsstring))
    (tail : jsstring) : jsstring :=
  concat (fst <$> segments) ++ tail.

(** ** Usage lines

    A usage line made of placeholders [[<name>]], each after a text, and a
    last text; the names the placeholders give, in the order of the line. *)
Definition usage_line (placeholders : list (jsstring * jsstring))
    (tail : jsstring) : jsstring :=
  concat ((fun p => fst p ++ lit "[<" ++ snd p ++ lit ">]") <$> placeholders)
  ++ tail.

(** A non-empty run of white space, and a non-empty run of word
    characters. *)
Definition blank (s : jsstring) : bool :=
  negb (bool_decide (s = [])) && forallb is_space s.

Definition word (s : jsstring) : bool :=
  negb (bool_decide (s = [])) && forallb is_word s.

(** The line is one line that begins and ends with a code unit that is no
    white space; a placeholder holds a word, and the texts between the
    placeholders hold no [[<]. *)
Definition usage_line_ok (placeholders : list (jsstring * jsstring))
    (tail : jsstring) : bool :=
  let line := usage_line placeholders tail in
  negb (is_space (default 32 (head line)))
  && negb (is_space (default 32 (last line)))
  && forallb (not_char LF) line
  && forallb (fun p => negb (includes (fst p) (lit "[<")) && word (snd p))
       placeholders
  && negb (includes tail (lit "[<")).

(** A help text with a usage line: a text without [U], then [Usage:],
    white space, [yo], white space, the name of the generator, white space,
    the usage line, and the rest of the text, which is empty or begins with
    a line feed. *)
Definition usage_help (pre s1 s2 generator s3 line rest : jsstring)
    : jsstring :=
  pre ++ lit "Usage:" ++ s1 ++ lit "yo" ++ s2 ++ generator ++ s3 ++ line
  ++ rest.

Definition usage_help_ok (pre s1 s2 generator s3 rest : jsstring) : bool :=
  negb (bool_decide (85 ∈ pre)) && blank s1 && blank s2 && word generator
  && blank s3
  && match rest with
     | [] => true
     | c :: _ => c =? LF
     end.

(** ** Bracketed groups

    [bracket_group d pre body post]: the description [d] has, after [pre],
    a bracketed group with the non-empty content [body], which holds no
    closing bracket.  [first_group] looks for the leftmost one. *)

Definition bracket_group (d pre body post : jsstring) : Prop :=
  d = pre ++ [91] ++ body ++ [93] ++ post ∧ body ≠ [] ∧ 93 ∉ body.

Fixpoint first_group (d : jsstring) : option jsstring :=
  match d with
  | [] => None
  | c :: t =>
      if c =? 91 then
        match keep_while (not_char 93) t, skip_while (not_char 93) t with
        | b :: body, _ :: _ => Some (b :: body)
        | _, _ => first_group t
        end
      else first_group t
  end.

(** ** The requirement check, as specified

    What the specification says of the check, to compare with the code: an
    argument is missing when it is required and its index is not below the
    number of arguments given; an option is missing when it is classified
    required and not provided. *)

Section CheckDefinitions.
Context {Number : Type}.
Context (number_is_falsy : Number → bool).
Context (toLowerCase : jsstring → jsstring).

Definition classified_required (o : OptionInfo) : bool :=
  match isOptionRequired toLowerCase o with
  | Returns b => b
  | _ => false
  end.

Definition enum_values (description : jsstring) : option (list jsstring) :=
  match extractEnumValues description with
  | Returns v => v
  | _ => None
  end.

(** The object holds a truthy value under the name or under its
    camel-cased form. *)
Definition provided (providedOptions : gmap jsstring (JSValue Number))
    (name : jsstring) : bool :=
  truthy number_is_falsy (get providedOptions name)
  || truthy number_is_falsy (get providedOptions (camelCase name)).

Definition missing_args (providedArgs : list jsstring) (args : list Arg)
    : list MissingArg :=
  mjoin (imap (fun index arg =>
    if arg_required arg && bool_decide (length providedArgs ≤ index)%nat
    then [mkMissingArg (arg_name arg) (arg_description arg)] else []) args).

Definition missing_options
    (providedOptions : gmap jsstring (JSValue Number))
    (options : list OptionInfo) : list MissingOption :=
  (fun o => mkMissingOption (opt_name o) (opt_description o)
              (enum_values (opt_description o)))
  <$> List.filter (fun o => classified_required o
                            && negb (provided providedOptions (opt_name o)))
        options.
End CheckDefinitions.

(** ** Concrete inputs

    The context of the examples: integers as numbers, and the case mapping
    of the ASCII letters. *)

Definition ascii_lower (s : jsstring) : jsstring :=
  (fun c => if in_range 65 90 c then c + 32 else c) <$> s.

Definition int_is_falsy (z : Z) : bool := (z =? 0)%Z.

Definition int_text (z : Z) : jsstring := lit (pretty z).

Definition LFs : jsstring := [LF].

(** The scenario of the specification: one required argument [appName]
    and one option [--style] with the choices css and sass. *)
Definition help_scenario : jsstring :=
  lit "Usage:" ++ LFs ++ lit "  yo webapp [<appName>]" ++ LFs ++ LFs
  ++ lit "Options:" ++ LFs ++ lit "  --style  # The style [css|sass]"
  ++ LFs ++ LFs
  ++ lit "Arguments:" ++ LFs
  ++ lit "  appName  # Your app name  Type: String  Required: true" ++ LFs.

(** A deny-listed flag whose description asks, requires and enumerates, in
    a help text with a Prompts section that names it. *)
Definition help_quiet : jsstring :=
  lit "Options:" ++ LFs
  ++ lit "  -q, --quiet  # Enter quiet? (Required) [a|b]" ++ LFs ++ LFs
  ++ lit "Prompts: quiet" ++ LFs.

(** An option marked required that has a default value. *)
Definition help_required_default : jsstring :=
  lit "Options:" ++ LFs
  ++ lit "  --license  # The license (Required) Default: MIT" ++ LFs.

(** A flag without required or optional marker. *)
Definition help_typescript : jsstring :=
  lit "Options:" ++ LFs ++ lit "  --typescript  # Use TypeScript" ++ LFs.

(** A request with an empty application name, and one whose caller turns
    [quiet] off and passes an option of its own. *)
Definition request_unnamed : @GenerateRequest Z :=
  mkGenerateRequest (lit "webapp") None (lit "/tmp/app") (Some [lit "extra"])
    [] (lit "1.0.0").

Definition request_loud : @GenerateRequest Z :=
  mkGenerateRequest (lit "webapp")
    (Some (<[lit "quiet" := VBool false]> {[lit "style" := VString (lit "sass")]}))
    (lit "/tmp/app") (Some [lit "extra"]) (lit "app") (lit "1.0.0").

(** An output that carries every marker at once. *)
Definition output_all_markers : jsstring :=
  lit "? Pick one" ++ LFs ++ lit "Invalid version format" ++ LFs
  ++ lit "Error: Did not find a suitable generator" ++ LFs.

(** An escape sequence put together by the removal of another one. *)
Definition output_nested_escape : jsstring :=
  [ESC] ++ lit "[" ++ [ESC] ++ lit "[1m" ++ lit "1m".

(** A help text with no section at all. *)
Definition help_plain : jsstring := lit "hello".

(** An output with colours, a cursor command, carriage returns and blank
    lines. *)
Definition output_coloured : jsstring :=
  [ESC] ++ lit "[31mred" ++ [ESC] ++ lit "[0m" ++ [ESC] ++ lit "[?25h"
  ++ [CR; LF; LF; LF; CR; LF; CR] ++ lit "end".

(** ** The registry search

    The text of the query sent to the registry:
    [`keywords:yeoman-generator,${query.split(' ').join(',')}`]. *)

Definition searchText (query : jsstring) : jsstring :=
  lit "keywords:yeoman-generator," ++ join (lit ",") (split 32 query).

(** ** Start-up

    [persistentGeneratorDir] is [null] or a string; the scan of the command
    line gives it the value after each [--generator-dir], the last one
    staying.  [mkdirSync] tells for which directories the creation works. *)

Definition generatorDirFlag : jsstring := lit "--generator-dir".

Fixpoint scanArgs (args : list jsstring) (dir : option jsstring)
    : option jsstring :=
  match args with
  | [] => dir
  | a :: rest =>
      if jseq a generatorDirFlag then
        match rest with
        | v :: rest' => scanArgs rest' (Some v)
        | [] => dir
        end
      else scanArgs rest dir
  end.

(** A string or [null] taken as a condition. *)
Definition is_set (dir : option jsstring) : bool :=
  match dir with
  | Some (_ :: _) => true
  | _ => false
  end.

Definition parseCommandLineArgs (mkdirSync : jsstring -> bool)
    (argv : list jsstring) : option jsstring :=
  let persistentGeneratorDir := scanArgs (drop 2 argv) None in
  if is_set persistentGeneratorDir then
    match persistentGeneratorDir with
    | Some dir => if mkdirSync dir then persistentGeneratorDir else None
    | None => None
    end
  else persistentGeneratorDir.

(** ** The workspace

    [getGeneratorDir] gives the persistent directory when one is set, else
    the directory [mkdtemp] has made.  [cleanup] gives the directories it
    passes to [fs.rm]. *)

Definition getGeneratorDir (persistentGeneratorDir : option jsstring)
    (tempDir : jsstring) : jsstring :=
  if is_set persistentGeneratorDir then default [] persistentGeneratorDir
  else tempDir.

Definition shouldCleanup (persistentGeneratorDir : option jsstring)
    (genDir : jsstring) : bool :=
  negb (is_set persistentGeneratorDir)
  || negb (bool_decide (Some genDir = persistentGeneratorDir)).

Definition cleanup (persistentGeneratorDir : option jsstring)
    (tempDir : jsstring) : list jsstring :=
  if is_set persistentGeneratorDir
     && bool_decide (Some tempDir = persistentGeneratorDir)
  then [] else [tempDir].

(** The [finally] block of runYeomanGenerator and getGeneratorOptions. *)
Definition release (persistentGeneratorDir : option jsstring)
    (genDir : jsstring) : list jsstring :=
  if shouldCleanup persistentGeneratorDir genDir
  then cleanup persistentGeneratorDir genDir else [].

(** ** The run, from the request to the result

    What runYeomanGenerator does around the child process: the checks before
    it, the command line, and the release of the workspace. *)

Section Invocation.
Context {Number : Type}.
Context (number_is_falsy : Number -> bool) (number_text : Number -> jsstring).
Context (toLowerCase : jsstring -> jsstring).
Context (entries : gmap jsstring (JSValue Number) ->
                   list (jsstring * JSValue Number)).
(** extractUsageFromHelp, whose pattern repeats a group: the usage text it
    finds in a help text, or [null]. *)
Context (extractUsageFromHelp : jsstring -> option jsstring).

(** The arguments and the options of a parsed help, where [args] and
    [options] name those of the call. *)
Definition help_args (helpInfo : HelpInfo) : list Arg := args helpInfo.

Definition help_options (helpInfo : HelpInfo) : list OptionInfo :=
  options helpInfo.

(** What one option adds to the command line, if anything. *)
Definition renderEntry (entry : jsstring * JSValue Number) : option jsstring :=
  match snd entry with
  | VBool true => Some (lit "--" ++ fst entry)
  | VBool false | VUndefined | VNull => None
  | value =>
      Some (lit "--" ++ fst entry ++ lit "=" ++ value_text number_text value)
  end.

Definition quoted (s : jsstring) : jsstring := [34] ++ s ++ [34].

(** [s || alt] on strings *)
Definition or_else (s alt : jsstring) : jsstring :=
  match s with
  | [] => alt
  | _ :: _ => s
  end.

(** The three failures of the checks before the run, with the properties
    of the object returned: ['Missing required arguments'], ['Missing
    required options'] and ['Required arguments missing']. *)
Inductive PreflightFailure : Type :=
  | MissingRequiredArguments (missingRequired : list MissingArg)
      (usage : option jsstring) (suggestions : list jsstring)
  | MissingRequiredOptions (missingOptions : list MissingOption)
      (usage : option jsstring) (suggestions : list jsstring)
      (commandExample : jsstring)
  | RequiredArgumentsMissing (missingRequired : list Arg) (usage : jsstring)
      (suggestions : list jsstring).

Definition argumentSuggestion (arg : MissingArg) : jsstring :=
  lit "Please provide a value for " ++ quoted (ma_name arg) ++ lit ": "
  ++ or_else (ma_description arg) (lit "no description available").

Definition optionSuggestion (opt : MissingOption) : jsstring :=
  match mo_enumValues opt with
  | Some (v :: vs) =>
      lit "--" ++ mo_name opt ++ lit ": " ++ mo_description opt
      ++ lit ". Valid values: [" ++ join (lit ", ") (v :: vs) ++ lit "]"
  | _ => lit "--" ++ mo_name opt ++ lit ": " ++ mo_description opt
  end.

Definition optionExample (name : jsstring)
    (enumValues : option (list jsstring)) : jsstring :=
  match enumValues with
  | Some (v :: _) => lit "--" ++ name ++ lit "=" ++ v
  | _ => lit "--" ++ name ++ lit "=" ++ quoted (lit "value")
  end.

Definition formatArgsUsage (args : list Arg) : jsstring :=
  join (lit " ")
    ((fun arg => if arg_required arg
                 then lit "<" ++ arg_name arg ++ lit ">"
                 else lit "[" ++ arg_name arg ++ lit "]") <$> args).

(** The check after the [try] block, on the parsed help when there is one. *)
Definition requiredArgumentsCheck (helpInfo : option HelpInfo)
    (generatorName : jsstring) (args : list jsstring)
    : option PreflightFailure :=
  match helpInfo with
  | Some info =>
      if existsb arg_required (help_args info)
         && bool_decide (length args = 0%nat)
      then
        let requiredArgs := List.filter arg_required (help_args info) in
        Some (RequiredArgumentsMissing requiredArgs
                (formatArgsUsage (help_args info))
                [lit "This generator requires arguments: "
                   ++ join (lit ", ") (arg_name <$> requiredArgs);
                 lit "Example usage: generator " ++ generatorName ++ lit " "
                   ++ join (lit " ")
                        ((fun a => lit "<" ++ arg_name a ++ lit ">")
                         <$> requiredArgs)])
      else None
  | None => None
  end.

(** The checks before the run.  [help] is the output of the help command,
    or [None] when the command fails; an error thrown while the help is
    parsed or checked is caught like a failed command.  [None] as result:
    the run goes on. *)
Definition preflight (help : option jsstring) (generatorName : jsstring)
    (args : list jsstring) (options : gmap jsstring (JSValue Number))
    : outcome (option PreflightFailure) :=
  match help with
  | None => Returns (requiredArgumentsCheck None generatorName args)
  | Some helpOutput =>
      match parseGeneratorHelp helpOutput with
      | Returns helpInfo =>
          match checkRequiredArguments number_is_falsy toLowerCase helpInfo
                  args options with
          | Returns check =>
              match missingRequired check, missingOptions check with
              | _ :: _, _ =>
                  Returns (Some (MissingRequiredArguments
                    (missingRequired check)
                    (extractUsageFromHelp helpOutput)
                    (argumentSuggestion <$> missingRequired check)))
              | [], _ :: _ =>
                  let optionExamples :=
                    join (lit " ")
                      ((fun opt => optionExample (mo_name opt)
                                     (mo_enumValues opt))
                       <$> missingOptions check) in
                  let argsExample :=
                    match args with
                    | _ :: _ => join (lit " ") args
                    | [] => match help_args helpInfo with
                            | _ :: _ => lit "<appname>"
                            | [] => []
                            end
                    end in
                  Returns (Some (MissingRequiredOptions
                    (missingOptions check)
                    (extractUsageFromHelp helpOutput)
                    (optionSuggestion <$> missingOptions check)
                    (lit "yo " ++ generatorName ++ lit " " ++ argsExample
                     ++ lit " " ++ optionExamples)))
              | [], [] =>
                  Returns (requiredArgumentsCheck (Some helpInfo)
                             generatorName args)
              end
          | Throws =>
              Returns (requiredArgumentsCheck (Some helpInfo)
                         generatorName args)
          | Diverges => Diverges
          end
      | Throws => Returns (requiredArgumentsCheck None generatorName args)
      | Diverges => Diverges
      end
  end.
End Invocation.

Section Run.
Context {Number : Type}.
Context (number_is_falsy : Number -> bool) (number_text : Number -> jsstring).
Context (toLowerCase : jsstring -> jsstring).
Context (entries : gmap jsstring (JSValue Number) ->
                   list (jsstring * JSValue Number)).
Context (extractUsageFromHelp : jsstring -> option jsstring).

(** What the file system, the package manager and the child processes
    answer during one call. *)
Record RunEnv := mkRunEnv {
  (** persistentGeneratorDir *)
  env_persistent : option jsstring;
  (** the directory [mkdtemp] makes, [None] when it throws *)
  env_tempDir : option jsstring;
  (** the message of the error [fs.mkdir] or [fs.writeFile] throws, if any *)
  env_setup : option jsstring;
  (** whether the generator package and the runner are there already *)
  env_generatorExists : bool;
  env_yoExists : bool;
  (** the message of the error [npm install] ends with, if any *)
  env_install : option jsstring;
  (** [path.join(nodeModulesPath, 'yo', 'lib', 'cli.js')] *)
  env_cliYoPath : jsstring;
  (** the output of the help command, [None] when it fails *)
  env_help : option jsstring;
  (** the [error] event of the child process with its message, or its
      [close] event with the exit code and the output *)
  env_spawn : jsstring + (option Z * jsstring);
  env_yoRc : @YoRc Number
}.

(** What the call does to the outside, in order. *)
Inductive Action : Type :=
  | NpmInstall
  | HelpCommand
  | Spawn (argv : list jsstring)
  | Remove (dir : jsstring).

Inductive RunOutcome : Type :=
  | InstallFailed (error : jsstring) (suggestions : list jsstring)
  | PreflightFailed (failure : PreflightFailure)
  | Finished (result : RunResult)
  | RunFailed (error : jsstring)
  | UnexpectedError (error : jsstring).

(** The [try] block of runYeomanGenerator. *)
Definition runBody (env : RunEnv) (generatorName : jsstring)
    (options : gmap jsstring (JSValue Number)) (args : list jsstring)
    : outcome (list Action * RunOutcome) :=
  match env_setup env with
  | Some message =>
      Returns ([], UnexpectedError (lit "Unexpected error: " ++ message))
  | None =>
      let needsInstall :=
        negb (env_generatorExists env) || negb (env_yoExists env) in
      let installed := if needsInstall then [NpmInstall] else [] in
      match needsInstall, env_install env with
      | true, Some message =>
          Returns (installed,
            InstallFailed
              (lit "Failed to install generator-" ++ generatorName
               ++ lit ": " ++ message)
              [lit "Make sure generator-" ++ generatorName
               ++ lit " exists on npm"])
      | _, _ =>
          failure ← preflight number_is_falsy toLowerCase
                      extractUsageFromHelp (env_help env) generatorName args
                      options;
          match failure with
          | Some failure =>
              Returns (installed ++ [HelpCommand], PreflightFailed failure)
          | None =>
              let argv :=
                yoArgs number_text entries (env_cliYoPath env) generatorName
                  options args in
              Returns (installed ++ [HelpCommand; Spawn argv],
                match env_spawn env with
                | inl message =>
                    RunFailed (lit "Failed to run generator: " ++ message)
                | inr (code, output) =>
                    Finished (classify number_is_falsy generatorName
                                (on_close code output) (env_yoRc env))
                end)
          end
      end
  end.

(** runYeomanGenerator: the directory is taken before the [try] block, and
    the [finally] block releases it. *)
Definition runYeomanGenerator (env : RunEnv) (generatorName : jsstring)
    (options : gmap jsstring (JSValue Number)) (args : list jsstring)
    : outcome (list Action * RunOutcome) :=
  genDir ←
    (if is_set (env_persistent env)
     then Returns (getGeneratorDir (env_persistent env) [])
     else match env_tempDir env with
          | Some tempDir =>
              Returns (getGeneratorDir (env_persistent env) tempDir)
          | None => Throws
          end);
  done ← runBody env generatorName options args;
  Returns (fst done ++ (Remove <$> release (env_persistent env) genDir),
           snd done).

(** *** The description of a generator

    The object getGeneratorOptions builds from the help text. *)

Record FormattedOption := mkFormattedOption {
  fo_name : jsstring;
  fo_flag : jsstring;
  fo_description : jsstring;
  fo_default : option jsstring;
  fo_required : bool;
  fo_enumValues : option (list jsstring)
}.

Definition formatOption (opt : OptionInfo) : outcome FormattedOption :=
  enumValues ← extractEnumValues (opt_description opt);
  required ← isOptionRequired toLowerCase opt;
  Returns (mkFormattedOption (opt_name opt) (opt_flag opt)
             (opt_description opt) (opt_default opt) required enumValues).

Definition generateSuggestedCommand (generatorName : jsstring)
    (args : list Arg) (options : list FormattedOption) : jsstring :=
  let requiredArgs :=
    (fun arg => lit "<" ++ arg_name arg ++ lit ">")
    <$> List.filter arg_required args in
  let requiredOptions :=
    (fun opt => optionExample (fo_name opt) (fo_enumValues opt))
    <$> List.filter fo_required options in
  trim (lit "yo " ++ generatorName ++ lit " " ++ join (lit " ") requiredArgs
        ++ lit " " ++ join (lit " ") requiredOptions).

Record GeneratorOptions := mkGeneratorOptions {
  go_usage : option jsstring;
  go_args : list Arg;
  go_options : list FormattedOption;
  go_suggestedCommand : jsstring
}.

(** The [try] block of getGeneratorOptions, from the help text on. *)
Definition describeGenerator (generatorName helpOutput : jsstring)
    : outcome GeneratorOptions :=
  helpInfo ← parseGeneratorHelp helpOutput;
  formattedOptions ← mapM formatOption (options helpInfo);
  Returns (mkGeneratorOptions (extractUsageFromHelp helpOutput)
             (help_args helpInfo) formattedOptions
             (generateSuggestedCommand generatorName (help_args helpInfo)
                formattedOptions)).
End Run.

(** A first run in a temporary workspace: nothing is installed yet, the
    help is that of the scenario, and the generator ends with exit code 0. *)
Definition env_first_run : @RunEnv Z :=
  mkRunEnv None (Some (lit "/tmp/yeoman-a1")) None false false None
    (lit "/tmp/yeoman-a1/node_modules/yo/lib/cli.js") (Some help_scenario)
    (inr (Some 0%Z, lit "create package.json" ++ LFs)) YoRcMissing.

Definition options_sass : gmap jsstring (JSValue Z) :=
  {[lit "style" := VString (lit "sass")]}.

(** * Properties *)

#[local] Arguments N.eqb : simpl never.
#[local] Arguments N.leb : simpl never.
#[local] Arguments N.sub : simpl never.
#[local] Arguments N.add : simpl never.

(** ** Strings *)

Lemma starts_with_app (p s : jsstring) : starts_with p (p ++ s) = true.
Proof.
  induction p as [|a p IH]; [done|]. simpl. by rewrite N.eqb_refl, IH.
Qed.

Lemma starts_with_spec (p s : jsstring) :
  starts_with p s = true ↔ ∃ t, s = p ++ t.
Proof.
  split.
  - revert s. induction p as [|a p IH]; intros s H; [by exists s|].
    destruct s as [|b s]; [done|]. simpl in H.
    apply andb_true_iff in H as [Hab H]. apply N.eqb_eq in Hab as ->.
    destruct (IH _ H) as [t ->]. by exists t.
  - intros [t ->]. apply starts_with_app.
Qed.

Lemma includes_starts_with (s needle : jsstring) :
  starts_with needle s = true → includes s needle = true.
Proof. destruct s; simpl; by intros ->. Qed.

Lemma includes_spec (s needle : jsstring) :
  includes s needle = true ↔ ∃ a b, s = a ++ needle ++ b.
Proof.
  split.
  - induction s as [|c s IH]; simpl; intros H.
    + rewrite orb_false_r in H. apply starts_with_spec in H as [t ->].
      by exists [], t.
    + apply orb_true_iff in H as [H|H].
      * apply starts_with_spec in H as [t ->]. by exists [], t.
      * destruct (IH H) as (a & b & ->). by exists (c :: a), b.
  - intros (a & b & ->). induction a as [|c a IH]; simpl.
    + apply includes_starts_with, starts_with_app.
    + apply orb_true_iff. by right.
Qed.

(** ** The matcher *)

Section Continuations.
Context {A : Type}.
Implicit Types k : option jschar → jsstring → option A.

Lemma orelse_Some (x y : option A) (a : A) :
  orelse x y = Some a → x = Some a ∨ (x = None ∧ y = Some a).
Proof. destruct x; simpl; auto. Qed.

Lemma rep_min_inv n p prev s k x :
  rep_min n p prev s k = Some x →
  ∃ pre prev' s', s = pre ++ s' ∧ length pre = n ∧ k prev' s' = Some x.
Proof.
  revert prev s. induction n as [|n IH]; intros prev s H; simpl in H.
  - by exists [], prev, s.
  - destruct s as [|c s]; [done|]. destruct (p c); [|done].
    destruct (IH _ _ H) as (pre & prev' & s' & -> & <- & Hk).
    by exists (c :: pre), prev', s'.
Qed.

Lemma rep_greedy_inv p prev s k x :
  rep_greedy p prev s k = Some x →
  ∃ pre prev' s', s = pre ++ s' ∧ k prev' s' = Some x.
Proof.
  revert prev. induction s as [|c s IH]; intros prev H; simpl in H.
  - by exists [], prev, [].
  - destruct (p c).
    + apply orelse_Some in H as [H|[_ H]].
      * destruct (IH _ H) as (pre & prev' & s' & -> & Hk).
        by exists (c :: pre), prev', s'.
      * by exists [], prev, (c :: s).
    + by exists [], prev, (c :: s).
Qed.

Lemma rep_lazy_inv p prev s k x :
  rep_lazy p prev s k = Some x →
  ∃ pre prev' s', s = pre ++ s' ∧ k prev' s' = Some x.
Proof.
  revert prev. induction s as [|c s IH]; intros prev H; simpl in H.
  - apply orelse_Some in H as [H|[_ H]]; [|done]. by exists [], prev, [].
  - apply orelse_Some in H as [H|[_ H]]; [by exists [], prev, (c :: s)|].
    destruct (p c); [|done].
    destruct (IH _ H) as (pre & prev' & s' & -> & Hk).
    by exists (c :: pre), prev', s'.
Qed.
End Continuations.

Lemma consumed_app (pre s : jsstring) : consumed (pre ++ s) s = pre.
Proof.
  unfold consumed. rewrite length_app.
  replace (length pre + length s - length s)%nat with (length pre) by lia.
  by rewrite take_app_length.
Qed.

Lemma advances_refl r st : min_len r = 0%nat → binds r = [] → advances r st st.
Proof.
  intros Hm Hb. repeat split; [|done|by rewrite Hb; intros ? ?%elem_of_nil].
  exists []. rewrite Hm. by split.
Qed.

Lemma cap_defined_insert caps i j v :
  cap_defined caps i → cap_defined (<[j := Some v]> caps) i.
Proof.
  intros [w Hw]. destruct (decide (i = j)) as [->|Hne].
  - exists v. apply list_lookup_insert_eq. by eapply lookup_lt_Some.
  - exists w. by rewrite list_lookup_insert_ne.
Qed.

Lemma rmatch_advances ic r st k x :
  rmatch ic r st k = Some x → ∃ st', advances r st st' ∧ k st' = Some x.
Proof.
  revert st k x.
  induction r as [|c|p|a IHa b IHb|a IHa b IHb|a IHa|n g p|i a IHa| |];
    intros st k x H; simpl in H.
  - exists st. split; [by apply advances_refl|done].
  - destruct st as [pv [|y s] caps]; simpl in *; [done|].
    destruct (chr_eq ic c y); [|done]. eexists. split; [|exact H].
    repeat split; simpl; [|done|by intros ? ?%elem_of_nil]. by exists [y].
  - destruct st as [pv [|y s] caps]; simpl in *; [done|].
    destruct (p y); [|done]. eexists. split; [|exact H].
    repeat split; simpl; [|done|by intros ? ?%elem_of_nil]. by exists [y].
  - destruct (IHa _ _ _ H) as (st1 & Hadv1 & H1);
      destruct Hadv1 as ([pre1 [E1 L1]] & C1 & D1 & B1).
    destruct (IHb _ _ _ H1) as (st2 & Hadv2 & H2);
      destruct Hadv2 as ([pre2 [E2 L2]] & C2 & D2 & B2).
    exists st2. split; [|done]. repeat split.
    + exists (pre1 ++ pre2). rewrite E1, E2, <-(assoc_L (++)), length_app.
      split; [done|simpl; lia].
    + congruence.
    + auto.
    + simpl. intros i [Hi|Hi]%elem_of_app Hlt; [auto|]. apply B2; [done|lia].
  - apply orelse_Some in H as [H|[_ H]].
    + destruct (IHa _ _ _ H) as (st1 & Hadv1 & H1);
      destruct Hadv1 as ([pre1 [E1 L1]] & C1 & D1 & B1).
      exists st1. split; [|done]. repeat split; [|done|done|by intros ? ?%elem_of_nil].
      exists pre1. split; [done|simpl; lia].
    + destruct (IHb _ _ _ H) as (st1 & Hadv1 & H1);
      destruct Hadv1 as ([pre1 [E1 L1]] & C1 & D1 & B1).
      exists st1. split; [|done]. repeat split; [|done|done|by intros ? ?%elem_of_nil].
      exists pre1. split; [done|simpl; lia].
  - apply orelse_Some in H as [H|[_ H]].
    + destruct (IHa _ _ _ H) as (st1 & Hadv1 & H1);
      destruct Hadv1 as ([pre1 [E1 L1]] & C1 & D1 & B1).
      exists st1. split; [|done]. repeat split; [|done|done|by intros ? ?%elem_of_nil].
      exists pre1. split; [done|simpl; lia].
    + exists st. split; [by apply advances_refl|done].
  - apply rep_min_inv in H as (pre & pv1 & s1 & E1 & L1 & H).
    assert (∃ pre2 pv2 s2, s1 = pre2 ++ s2
              ∧ k (MState pv2 s2 (ms_caps st)) = Some x) as (pre2 & pv2 & s2 & E2 & H2).
    { destruct g; [apply rep_greedy_inv in H|apply rep_lazy_inv in H];
        destruct H as (pre2 & pv2 & s2 & E2 & H2); by exists pre2, pv2, s2. }
    eexists. split; [|exact H2].
    repeat split; simpl; [|done|by intros ? ?%elem_of_nil].
    exists (pre ++ pre2). rewrite E1, E2, <-(assoc_L (++)), length_app.
    split; [done|lia].
  - destruct (IHa _ _ _ H) as (st1 & Hadv1 & H1);
      destruct Hadv1 as ([pre1 [E1 L1]] & C1 & D1 & B1).
    eexists. split; [|exact H1]. repeat split; simpl.
    + by exists pre1.
    + by rewrite length_insert.
    + intros j Hj. by apply cap_defined_insert, D1.
    + intros j [->|Hj]%elem_of_cons Hlt.
      * eexists. apply list_lookup_insert_eq. lia.
      * by apply cap_defined_insert, B1.
  - destruct st as [pv [|y s] caps]; simpl in *; [|done].
    eexists. split; [by apply advances_refl|done].
  - destruct (xorb _ _); [|done].
    eexists. split; [by apply advances_refl|done].
Qed.

Lemma match_at_inv re prev s m :
  match_at re prev s = Some m →
  s = m_text m ++ m_rest m
  ∧ (min_len (re_body re) ≤ length (m_text m))%nat
  ∧ ∀ i, i ∈ binds (re_body re) → (i ≤ re_groups re)%nat → is_Some (cap m i).
Proof.
  unfold match_at. intros H.
  destruct (rmatch _ _ _ _) as [st|] eqn:E; [|done].
  apply rmatch_advances in E as (st' & Hadv & [= ->]).
  destruct Hadv as ([pre [E L]] & C & D & B). simpl in *.
  injection H as <-. simpl. subst s. rewrite consumed_app.
  split; [done|]. split; [done|]. intros i Hi Hle.
  destruct (B i Hi) as [v Hv]; [rewrite length_replicate; lia|].
  unfold cap. simpl. by rewrite Hv.
Qed.

Lemma matched_inv re m :
  matched re m →
  (min_len (re_body re) ≤ length (m_text m))%nat
  ∧ ∀ i, i ∈ binds (re_body re) → (i ≤ re_groups re)%nat → is_Some (cap m i).
Proof. intros (prev & s & H). by apply match_at_inv in H as (_ & ? & ?). Qed.

Lemma search_from_inv re prev s pre m :
  search_from re prev s = Some (pre, m) →
  s = pre ++ m_text m ++ m_rest m ∧ matched re m.
Proof.
  revert prev pre. induction s as [|c s IH]; intros prev pre H; simpl in H.
  - destruct (match_at re prev []) as [m'|] eqn:E; [|done].
    injection H as <- <-. split; [|by exists prev, []].
    by apply match_at_inv in E as [? _].
  - destruct (match_at re prev (c :: s)) as [m'|] eqn:E.
    + injection H as <- <-. split; [|by eexists _, _].
      by apply match_at_inv in E as [? _].
    + destruct (search_from re (Some c) s) as [[pre' m']|] eqn:E'; [|done].
      injection H as <- <-. destruct (IH _ _ E') as [-> ?]. by split.
Qed.

Lemma search_matched re s m : search re s = Some m → matched re m.
Proof.
  unfold search. destruct (search_from re None s) as [[pre m']|] eqn:E; [|done].
  intros [= <-]. by apply search_from_inv in E as [_ ?].
Qed.

Lemma cons_text_matches c r : (fst (cons_text c r)).*2 = (fst r).*2.
Proof. by destruct r as [[|[pre m] segs] tl]. Qed.

Lemma gscan_matched re s prev skip :
  Forall (matched re) (fst (gscan re prev s skip)).*2.
Proof.
  revert prev skip. induction s as [|c s IH]; intros prev [|n]; simpl;
    try by constructor.
  - destruct (match_at re prev []) eqn:E; simpl; [|by constructor].
    constructor; [by eexists _, _|by constructor].
  - destruct (match_at re prev (c :: s)) as [m|] eqn:E.
    + destruct (length (m_text m)); simpl.
      * constructor; [by eexists _, _|]. rewrite cons_text_matches. apply IH.
      * constructor; [by eexists _, _|]. apply IH.
    + rewrite cons_text_matches. apply IH.
  - apply IH.
Qed.

Lemma global_matches_matched re s : Forall (matched re) (global_matches re s).
Proof. apply gscan_matched. Qed.

(** A pattern that begins with a literal text matches only where the text
    stands. *)
Lemma rmatch_Str_of w r st k x :
  rmatch false (Seq (Str_of w) r) st k = Some x →
  starts_with w (ms_rest st) = true.
Proof.
  revert st. induction w as [|c w IH]; intros st H; [done|].
  simpl in H. destruct st as [pv [|y s] caps]; simpl in *; [done|].
  rewrite (N.eqb_sym c y) in H. destruct (y =? c) eqn:E; [|done].
  apply N.eqb_eq in E as ->. rewrite N.eqb_refl. simpl.
  exact (IH (MState (Some c) s caps) H).
Qed.

Lemma search_from_literal re w r prev s :
  re_icase re = false → re_body re = Seq (Str_of w) r →
  includes s w = false → search_from re prev s = None.
Proof.
  intros Hic Hb. revert prev. induction s as [|c s IH]; intros prev H.
  - simpl in H. rewrite orb_false_r in H. simpl. unfold match_at.
    rewrite Hic, Hb. destruct (rmatch _ _ _ _) eqn:E; [|done].
    apply rmatch_Str_of in E. simpl in E. congruence.
  - simpl in H. apply orb_false_iff in H as [H1 H2]. simpl.
    unfold match_at at 1. rewrite Hic, Hb.
    destruct (rmatch _ _ _ _) eqn:E.
    + apply rmatch_Str_of in E. simpl in E. congruence.
    + by rewrite (IH _ H2).
Qed.

(** ** Loops *)

Lemma exec_loop_returns {St} (body : jsmatch → St → outcome St)
    (P : jsmatch → Prop) ms st :
  (∀ m st, P m → m_text m ≠ [] ∧ ∃ st', body m st = Returns st') →
  Forall P ms → ∃ st', exec_loop body ms st = Returns st'.
Proof.
  intros Hbody HP. revert st. induction HP as [|m ms Hm _ IH]; intros st.
  - by exists st.
  - simpl. destruct (Hbody m st Hm) as [Hne [st' Hst']].
    destruct (m_text m); [done|]. rewrite Hst'. apply IH.
Qed.

Lemma exec_loop_invariant {St} (body : jsmatch → St → outcome St)
    (I : St → Prop) ms st st' :
  (∀ m st st', I st → body m st = Returns st' → I st') →
  I st → exec_loop body ms st = Returns st' → I st'.
Proof.
  intros Hbody. revert st. induction ms as [|m ms IH]; intros st HI H.
  - by injection H as <-.
  - simpl in H. destruct (body m st) as [st1| |] eqn:E;
      [|by destruct (m_text m)..].
    destruct (m_text m); [done|]. simpl in H.
    eapply IH; [|exact H]. by eapply Hbody.
Qed.

Lemma mapM_returns {X Y} (f : X → outcome Y) xs :
  (∀ x, x ∈ xs → ∃ y, f x = Returns y) → ∃ ys, mapM f xs = Returns ys.
Proof.
  induction xs as [|x xs IH]; intros H; [by exists []|].
  destruct (H x) as [y Hy]; [by left|].
  destruct IH as [ys Hys]; [intros ? ?; apply H; by right|].
  exists (y :: ys). simpl. by rewrite Hy, Hys.
Qed.

Lemma mapM_Forall2 {X Y} (f : X → outcome Y) xs ys :
  mapM f xs = Returns ys → Forall2 (fun x y => f x = Returns y) xs ys.
Proof.
  revert ys. induction xs as [|x xs IH]; intros ys H.
  - injection H as <-. constructor.
  - simpl in H. destruct (f x) as [y| |] eqn:E; [|done|done].
    destruct (mapM f xs) as [ys'| |] eqn:E'; [|done|done].
    injection H as <-. constructor; [done|by apply IH].
Qed.

(** ** The parser returns *)

Ltac group_bound :=
  match goal with
  | |- _ ∈ binds _ => apply list_elem_of_In; vm_compute; tauto
  | |- (_ ≤ _)%nat => vm_compute; lia
  end.

Lemma matched_cap re m i :
  matched re m → i ∈ binds (re_body re) → (i ≤ re_groups re)%nat →
  ∃ v, cap m i = Some v.
Proof. intros Hm Hi Hle. by apply matched_inv in Hm as [_ H]; apply H. Qed.

Lemma matched_nonempty re m :
  matched re m → (1 ≤ min_len (re_body re))%nat → m_text m ≠ [].
Proof.
  intros Hm Hle. apply matched_inv in Hm as [H _].
  destruct (m_text m); [simpl in H; lia|done].
Qed.

Lemma parseUsage_returns helpOutput result :
  ∃ result', parseUsage helpOutput result = Returns result'
             ∧ options result' = options result.
Proof.
  unfold parseUsage. destruct (search usageRe helpOutput) as [m|] eqn:E;
    [|by exists result].
  apply search_matched in E.
  destruct (matched_cap _ _ 2%nat E) as [v ->]; [group_bound..|]. simpl.
  destruct (match_g _ _) as [ms|]; [|by exists result].
  eexists. split; [done|]. generalize result.
  induction ms as [|x ms IH]; intros r; [done|]. simpl. by rewrite IH.
Qed.

Lemma parseUsage_absent helpOutput result :
  includes helpOutput (lit "Usage:") = false →
  parseUsage helpOutput result = Returns result.
Proof.
  intros H. unfold parseUsage, search.
  by rewrite (search_from_literal usageRe (lit "Usage:") _ None _ eq_refl eq_refl H).
Qed.

Lemma argBody_returns m result :
  matched argRegex m →
  ∃ result', argBody m result = Returns result'
             ∧ options result' = options result.
Proof.
  intros Hm. unfold argBody.
  destruct (matched_cap _ _ 1%nat Hm) as [name ->]; [group_bound..|].
  destruct (matched_cap _ _ 2%nat Hm) as [description ->]; [group_bound..|].
  simpl. destruct (findIndex _ _); by eexists.
Qed.

Lemma argBody_options m result result' :
  argBody m result = Returns result' → options result' = options result.
Proof.
  unfold argBody. destruct (cap m 1); [|done]. destruct (cap m 2); [|done].
  simpl. destruct (findIndex _ _); by intros [= <-].
Qed.

Lemma parseArguments_returns helpOutput result :
  ∃ result', parseArguments helpOutput result = Returns result'
             ∧ options result' = options result.
Proof.
  unfold parseArguments.
  destruct (search argsSectionRe helpOutput) as [m|]; [|by exists result].
  destruct (exec_loop_returns argBody (matched argRegex)
              (global_matches argRegex (to_string (cap m 1))) result)
    as [result' H].
  - intros m' st Hm'. split.
    + eapply matched_nonempty; [done|vm_compute; lia].
    + destruct (argBody_returns m' st Hm') as (st' & ? & _). by exists st'.
  - apply global_matches_matched.
  - exists result'. split; [done|].
    eapply (exec_loop_invariant argBody
              (fun st => options st = options result)); [|done|exact H].
    intros m' st st' <-. apply argBody_options.
Qed.

Lemma parseArguments_absent helpOutput result :
  includes helpOutput (lit "Arguments:") = false →
  parseArguments helpOutput result = Returns result.
Proof.
  intros H. unfold parseArguments, search.
  by rewrite (search_from_literal argsSectionRe (lit "Arguments:") _ None _
                eq_refl eq_refl H).
Qed.

Lemma optionBody_returns m result :
  matched optionRegex m → ∃ result', optionBody m result = Returns result'.
Proof.
  intros Hm. unfold optionBody.
  destruct (matched_cap _ _ 2%nat Hm) as [name ->]; [group_bound..|].
  destruct (matched_cap _ _ 3%nat Hm) as [description ->]; [group_bound..|].
  by eexists.
Qed.

Lemma optionBody_inv m result result' :
  optionBody m result = Returns result' →
  ∃ o, result' = push_option o result
       ∧ (opt_name o ∈ nonRequiredOptions → opt_required o = Some false)
       ∧ is_Some (opt_required o)
       ∧ opt_default o = cap m 4.
Proof.
  unfold optionBody. destruct (cap m 2) as [name|]; [|done].
  destruct (cap m 3) as [description|]; [|done]. simpl. intros [= <-].
  eexists. split; [done|]. simpl. split; [|by split].
  intros Hin. unfold array_includes. by rewrite bool_decide_eq_true_2.
Qed.

Lemma parseOptions_returns helpOutput result :
  ∃ result', parseOptions helpOutput result = Returns result'
             ∧ args result' = args result.
Proof.
  unfold parseOptions.
  destruct (search optionsSectionRe helpOutput) as [m|]; [|by exists result].
  destruct (exec_loop_returns optionBody (matched optionRegex)
              (global_matches optionRegex (to_string (cap m 1))) result)
    as [result' H].
  - intros m' st Hm'. split.
    + eapply matched_nonempty; [done|vm_compute; lia].
    + by apply optionBody_returns.
  - apply global_matches_matched.
  - exists result'. split; [done|].
    eapply (exec_loop_invariant optionBody
              (fun st => args st = args result)); [|done|exact H].
    intros m' st st' <- (o & -> & _)%optionBody_inv. done.
Qed.

Lemma parseOptions_absent helpOutput result :
  includes helpOutput (lit "Options:") = false →
  parseOptions helpOutput result = Returns result.
Proof.
  intros H. unfold parseOptions, search.
  by rewrite (search_from_literal optionsSectionRe (lit "Options:") _ None _
                eq_refl eq_refl H).
Qed.

Lemma promptBody_returns section o :
  ∃ o', promptBody (Some section) o = Returns o'.
Proof. unfold promptBody. destruct (array_includes _ _); by eexists. Qed.

Lemma parsePrompts_returns helpOutput result :
  ∃ result', parsePrompts helpOutput result = Returns result'
             ∧ args result' = args result
             ∧ length (options result') = length (options result).
Proof.
  unfold parsePrompts.
  destruct (search promptSectionRe helpOutput) as [m|] eqn:E;
    [|by exists result].
  apply search_matched in E.
  destruct (matched_cap _ _ 1%nat E) as [section ->]; [group_bound..|].
  destruct (mapM_returns (promptBody (Some section)) (options result))
    as [opts Hopts]; [intros; apply promptBody_returns|].
  rewrite Hopts. eexists. split; [done|]. split; [done|]. simpl.
  apply mapM_Forall2 in Hopts. symmetry. by eapply Forall2_length.
Qed.

(** C5. The help parser returns a HelpInfo for every input, whatever the
    text: it never throws and its loops end.  A section that is absent
    gives nothing and is no error: without an Options section the options
    are the empty list; without a usage line the arguments are those of the
    Arguments section alone, without an Arguments section they are those of
    the usage line alone, and without both they are the empty list. *)
Theorem parseGeneratorHelp_total (helpOutput : jsstring) :
  ∃ info, parseGeneratorHelp helpOutput = Returns info
    ∧ (includes helpOutput (lit "Options:") = false → options info = [])
    ∧ (includes helpOutput (lit "Usage:") = false →
       includes helpOutput (lit "Arguments:") = false → args info = [])
    ∧ (includes helpOutput (lit "Usage:") = false →
       ∃ r, parseArguments helpOutput (mkHelpInfo [] []) = Returns r
            ∧ args info = args r)
    ∧ (includes helpOutput (lit "Arguments:") = false →
       ∃ r, parseUsage helpOutput (mkHelpInfo [] []) = Returns r
            ∧ args info = args r).
Proof.
  unfold parseGeneratorHelp.
  destruct (parseUsage_returns helpOutput (mkHelpInfo [] [])) as (r1 & H1 & O1).
  destruct (parseArguments_returns helpOutput r1) as (r2 & H2 & O2).
  destruct (parseOptions_returns helpOutput r2) as (r3 & H3 & A3).
  destruct (parsePrompts_returns helpOutput r3) as (r4 & H4 & A4 & L4).
  exists r4. split_and!.
  - rewrite H1. simpl. rewrite H2. simpl. rewrite H3. simpl. exact H4.
  - intros Habs. rewrite (parseOptions_absent _ _ Habs) in H3.
    injection H3 as <-. rewrite O2, O1 in L4. simpl in L4.
    by destruct (options r4).
  - intros Hu Ha. rewrite (parseUsage_absent _ _ Hu) in H1.
    injection H1 as <-. rewrite (parseArguments_absent _ _ Ha) in H2.
    injection H2 as <-. by rewrite A4, A3.
  - intros Hu. rewrite (parseUsage_absent _ _ Hu) in H1. injection H1 as <-.
    exists r2. split; [done|]. by rewrite A4, A3.
  - intros Ha. rewrite (parseArguments_absent _ _ Ha) in H2.
    injection H2 as <-. exists r1. split; [done|]. by rewrite A4, A3.
Qed.

(** ** The required classification *)

Lemma parseOptions_deny_listed helpOutput result result' :
  Forall deny_listed_optional (options result) →
  parseOptions helpOutput result = Returns result' →
  Forall deny_listed_optional (options result').
Proof.
  unfold parseOptions. intros HI.
  destruct (search optionsSectionRe helpOutput) as [m|];
    [|by intros [= <-]].
  apply (exec_loop_invariant optionBody
           (fun st => Forall deny_listed_optional (options st))); [|done].
  intros m' st st' Hst (o & -> & Ho & _)%optionBody_inv. simpl.
  apply Forall_app. split; [done|]. by constructor.
Qed.

Lemma promptBody_deny_listed section o o' :
  promptBody section o = Returns o' → deny_listed_optional o'.
Proof.
  unfold promptBody, deny_listed_optional, array_includes.
  case_bool_decide as Hin.
  - by intros [= <-].
  - destruct section as [section|]; [|done]. simpl.
    destruct (includes section (opt_name o)); intros [= <-]; simpl; done.
Qed.

Lemma parsePrompts_deny_listed helpOutput result result' :
  Forall deny_listed_optional (options result) →
  parsePrompts helpOutput result = Returns result' →
  Forall deny_listed_optional (options result').
Proof.
  unfold parsePrompts. intros HI.
  destruct (search promptSectionRe helpOutput) as [m|]; [|by intros [= <-]].
  destruct (mapM _ _) as [opts| |] eqn:E; [|done|done]. intros [= <-]. simpl.
  apply mapM_Forall2 in E. clear HI.
  induction E as [|o o' os os' Ho _ IH]; constructor; [|done].
  by eapply promptBody_deny_listed.
Qed.

Lemma parseGeneratorHelp_deny_listed helpOutput info :
  parseGeneratorHelp helpOutput = Returns info →
  Forall deny_listed_optional (options info).
Proof.
  unfold parseGeneratorHelp.
  destruct (parseUsage_returns helpOutput (mkHelpInfo [] [])) as (r1 & -> & O1).
  simpl.
  destruct (parseArguments_returns helpOutput r1) as (r2 & -> & O2). simpl.
  destruct (parseOptions helpOutput r2) as [r3| |] eqn:E3; [|done|done]. simpl.
  apply parsePrompts_deny_listed. eapply parseOptions_deny_listed; [|done].
  rewrite O2, O1. constructor.
Qed.

Section Required.
Context (toLowerCase : jsstring → jsstring).

Lemma isOptionRequired_deny_listed o :
  opt_required o ≠ Some true → opt_name o ∈ nonRequiredOptions →
  isOptionRequired toLowerCase o = Returns false.
Proof.
  intros Hreq Hin. unfold isOptionRequired.
  rewrite bool_decide_eq_false_2 by done.
  case_bool_decide; [done|]. destruct (includes _ _); [done|].
  unfold array_includes. by rewrite bool_decide_eq_true_2.
Qed.

(** C8. A parsed option whose name is on the deny-list has its required
    flag false and is classified not required by isOptionRequired,
    whatever the help text says: its description, its default value and
    a Questions, Prompts or Inputs section that names it do not matter. *)
Theorem deny_listed_never_required (helpOutput : jsstring) (info : HelpInfo)
    (o : OptionInfo) :
  parseGeneratorHelp helpOutput = Returns info →
  o ∈ options info →
  opt_name o ∈ nonRequiredOptions →
  opt_required o = Some false
  ∧ isOptionRequired toLowerCase o = Returns false.
Proof.
  intros Hparse Ho Hdeny.
  apply parseGeneratorHelp_deny_listed in Hparse.
  rewrite Forall_forall in Hparse. pose proof (Hparse o Ho Hdeny) as Hreq.
  split; [done|]. apply isOptionRequired_deny_listed; [|done].
  by rewrite Hreq.
Qed.

(** C1, as the code has it.  An option that carries a default value, be
    it a captured default or a [Default:] marker in its description, is
    classified not required whenever its required flag is not set: the
    flag, which the parser sets from the markers of the description, is
    looked at before the default. *)
Theorem default_not_required (o : OptionInfo) :
  opt_required o ≠ Some true →
  opt_default o ≠ None ∨ includes (opt_description o) (lit "Default:") = true →
  isOptionRequired toLowerCase o = Returns false.
Proof.
intros Hreq Hdef. unfold isOptionRequired.
rewrite bool_decide_eq_false_2 by done.
case_bool_decide; [done|]. destruct Hdef as [? | ->]; done.
Qed.
End Required.

Lemma deny_listed_never_required_witness :
  ∃ info o,
    parseGeneratorHelp help_quiet = Returns info
    ∧ o ∈ options info
    ∧ opt_name o = lit "quiet"
    ∧ includes (opt_description o) (lit "(Required)") = true
    ∧ opt_required o = Some false
    ∧ isOptionRequired ascii_lower o = Returns false.
Proof.
  destruct (parseGeneratorHelp help_quiet) as [info| |] eqn:E;
    vm_compute in E; try discriminate.
  injection E as <-. eexists _, _.
  split; [reflexivity|]. split; [by left|]. split; [reflexivity|].
  split; [reflexivity|].
  eapply (deny_listed_never_required ascii_lower help_quiet).
  - vm_compute. reflexivity.
  - by left.
  - vm_compute. apply list_elem_of_In. simpl. tauto.
Defined.

Lemma default_not_required_witness :
  isOptionRequired ascii_lower
    (mkOption (lit "port") [] (lit "The port. Optional") (Some (lit "8080"))
       (Some false)) = Returns false.
Proof.
  apply default_not_required; [discriminate|left; discriminate].
Defined.

(** C1 as stated fails: the option [--license] of this help text has the
    default MIT and is classified required. *)
Lemma default_marked_required :
  ∃ info o,
    parseGeneratorHelp help_required_default = Returns info
    ∧ o ∈ options info
    ∧ opt_default o = Some (lit "MIT")
    ∧ isOptionRequired ascii_lower o = Returns true.
Proof.
  eexists _, _. split; [vm_compute; reflexivity|].
  split; [by left|]. split; reflexivity.
Qed.

(** ** Enumerated values *)

Lemma keep_skip p s : keep_while p s ++ skip_while p s = s.
Proof. induction s as [|c s IH]; simpl; [done|]. destruct (p c); simpl; congruence. Qed.

Lemma keep_while_Forall p s : Forall (fun c => p c = true) (keep_while p s).
Proof.
  induction s as [|c s IH]; simpl; [constructor|].
  destruct (p c) eqn:E; by constructor.
Qed.

Lemma skip_while_head p s c t : skip_while p s = c :: t → p c = false.
Proof.
  induction s as [|x s IH]; simpl; [done|].
  destruct (p x) eqn:E; [done|]. by intros [= <- <-].
Qed.

Lemma keep_while_app p pre c post :
  Forall (fun x => p x = true) pre → p c = false →
  keep_while p (pre ++ c :: post) = pre ∧ skip_while p (pre ++ c :: post) = c :: post.
Proof.
  intros Hpre Hc. induction Hpre as [|x pre Hx _ [IH1 IH2]]; simpl.
  - by rewrite Hc.
  - rewrite Hx. by rewrite IH1, IH2.
Qed.

Section Greedy.
Context {A : Type}.
Implicit Types k : option jschar → jsstring → option A.

Lemma orelse_None_r (x : option A) : orelse x None = x.
Proof. by destruct x. Qed.

(** A greedy quantifier takes the whole run when what follows cannot
    start inside the run. *)
Lemma rep_greedy_blocked p prev s k :
  (∀ pv c s', p c = true → k pv (c :: s') = None) →
  rep_greedy p prev s k
  = k (prev_after prev (keep_while p s)) (skip_while p s).
Proof.
  intros Hk. revert prev. induction s as [|c s IH]; intros prev; [done|].
  simpl. destruct (p c) eqn:E; [|done].
  change (prev_after prev (c :: keep_while p s))
    with (prev_after (Some c) (keep_while p s)).
  by rewrite IH, (Hk prev c s E), orelse_None_r.
Qed.

(** It also takes the whole run when what follows always matches. *)
Lemma rep_greedy_total p prev s k :
  (∀ pv s', is_Some (k pv s')) →
  rep_greedy p prev s k
  = k (prev_after prev (keep_while p s)) (skip_while p s).
Proof.
  intros Hk. revert prev. induction s as [|c s IH]; intros prev; [done|].
  simpl. destruct (p c) eqn:E; [|done]. rewrite IH.
  change (prev_after prev (c :: keep_while p s))
    with (prev_after (Some c) (keep_while p s)).
  destruct (Hk (prev_after (Some c) (keep_while p s)) (skip_while p s))
    as [x Hx].
  by rewrite Hx.
Qed.
End Greedy.

Lemma not_char_true a c : not_char a c = true ↔ c ≠ a.
Proof.
  unfold not_char, not_in, is_char. rewrite negb_true_iff. apply N.eqb_neq.
Qed.

Lemma not_char_false a c : not_char a c = false ↔ c = a.
Proof.
  unfold not_char, not_in, is_char. rewrite negb_false_iff. apply N.eqb_eq.
Qed.

Lemma match_at_enumRe_miss prev c t :
  (c =? 91) = false → match_at enumRe prev (c :: t) = None.
Proof.
  intros H. unfold match_at. simpl. unfold chr_eq.
  by rewrite N.eqb_sym, H.
Qed.

Lemma match_at_enumRe_hit prev t :
  match_at enumRe prev (91 :: t)
  = match keep_while (not_char 93) t, skip_while (not_char 93) t with
    | b :: body, _ :: post =>
        Some (mkMatch (91 :: b :: body ++ [93]) [None; Some (b :: body)] post)
    | _, _ => None
    end.
Proof.
  unfold match_at. simpl.
  destruct t as [|b t]; [done|]. simpl.
  destruct (not_char 93 b) eqn:Eb; [|done].
  rewrite rep_greedy_blocked.
  2:{ intros pv c s' Hc. simpl. apply not_char_true in Hc.
      unfold chr_eq. by rewrite (proj2 (N.eqb_neq 93 c)). }
  simpl. pose proof (keep_skip (not_char 93) t) as Hks.
  destruct (skip_while (not_char 93) t) as [|y post] eqn:Es; [done|].
  apply skip_while_head, not_char_false in Es as Hy. subst y. simpl.
  remember (keep_while (not_char 93) t) as body eqn:Hbody. clear Hbody.
  subst t.
  replace (91 :: b :: body ++ 93 :: post)
    with ((91 :: b :: body ++ [93]) ++ post)
    by (simpl; by rewrite <-(assoc_L (++))).
  change (b :: body ++ 93 :: post) with ((b :: body) ++ 93 :: post).
  by rewrite !consumed_app.
Qed.

Lemma search_enumRe prev d :
  (fun x => cap (snd x) 1) <$> search_from enumRe prev d
  = Some <$> first_group d.
Proof.
  revert prev. induction d as [|c t IH]; intros prev; [done|].
  cbn [search_from first_group]. destruct (c =? 91) eqn:Ec.
  - apply N.eqb_eq in Ec as ->. rewrite match_at_enumRe_hit.
    destruct (keep_while (not_char 93) t) as [|b body];
      [|destruct (skip_while (not_char 93) t) as [|y post]]; try done.
    + specialize (IH (Some 91)).
      by destruct (search_from enumRe (Some 91) t) as [[pre m]|].
    + specialize (IH (Some 91)).
      by destruct (search_from enumRe (Some 91) t) as [[pre m]|].
  - rewrite match_at_enumRe_miss by done. specialize (IH (Some c)).
    by destruct (search_from enumRe (Some c) t) as [[pre m]|].
Qed.

Lemma extractEnumValues_first_group d :
  extractEnumValues d = Returns (split 124 <$> first_group d).
Proof.
  unfold extractEnumValues, search.
  pose proof (search_enumRe None d) as H.
  destruct (search_from enumRe None d) as [[pre m]|]; simpl in *.
  - destruct (first_group d) as [body|]; [|done].
    injection H as ->. done.
  - by destruct (first_group d).
Qed.

Lemma bracket_group_here (body post : jsstring) :
  body ≠ [] → 93 ∉ body →
  keep_while (not_char 93) (body ++ 93 :: post) = body
  ∧ skip_while (not_char 93) (body ++ 93 :: post) = 93 :: post.
Proof.
  intros _ Hnot. apply keep_while_app; [|by apply not_char_false].
  apply Forall_forall. intros x Hx. apply not_char_true. by intros ->.
Qed.

Lemma bracket_group_cons c t pre body post :
  bracket_group (c :: t) (c :: pre) body post ↔ bracket_group t pre body post.
Proof.
  unfold bracket_group. simpl. split.
  - by intros ([= ->] & ? & ?).
  - by intros (-> & ? & ?).
Qed.

Lemma bracket_group_head c t pre body post :
  bracket_group (c :: t) pre body post →
  (pre = [] ∧ c = 91 ∧ t = body ++ 93 :: post)
  ∨ ∃ pre', pre = c :: pre' ∧ bracket_group t pre' body post.
Proof.
  intros (E & Hne & Hnot). destruct pre as [|x pre]; simpl in E.
  - injection E as -> ->. by left.
  - injection E as <- ->. right. by exists pre.
Qed.

Lemma bracket_group_nil_inv c t body post :
  bracket_group (c :: t) [] body post →
  c = 91 ∧ keep_while (not_char 93) t = body
  ∧ skip_while (not_char 93) t = 93 :: post.
Proof.
  intros (E & Hne & Hnot). simpl in E. injection E as -> ->.
  split; [done|]. by apply bracket_group_here.
Qed.

Lemma first_group_head c t :
  (first_group (c :: t) = first_group t
   ∧ ∀ body post, ¬ bracket_group (c :: t) [] body post)
  ∨ (c = 91 ∧ ∃ post, t = keep_while (not_char 93) t ++ 93 :: post
                      ∧ keep_while (not_char 93) t ≠ []
                      ∧ first_group (c :: t) = Some (keep_while (not_char 93) t)).
Proof.
  simpl. destruct (c =? 91) eqn:Ec.
  - apply N.eqb_eq in Ec as ->.
    pose proof (keep_skip (not_char 93) t) as Hks.
    destruct (keep_while (not_char 93) t) as [|b body] eqn:Ek.
    { left. split; [done|]. intros body post Hg.
      pose proof (bracket_group_nil_inv _ _ _ _ Hg) as (_ & Hk & _).
      destruct Hg as (_ & Hne & _). congruence. }
    destruct (skip_while (not_char 93) t) as [|y post] eqn:Es.
    { left. split; [done|]. intros body' post' Hg.
      apply bracket_group_nil_inv in Hg as (_ & _ & Hs). congruence. }
    apply skip_while_head, not_char_false in Es as ->.
    right. split; [done|]. exists post. by rewrite Hks.
  - left. split; [done|]. intros body post Hg.
    apply bracket_group_nil_inv in Hg as (-> & _). done.
Qed.

Lemma first_group_None d pre body post :
  first_group d = None → ¬ bracket_group d pre body post.
Proof.
  revert pre. induction d as [|c t IH]; intros pre Hf Hg.
  - destruct Hg as (E & _). by destruct pre.
  - destruct (first_group_head c t) as [[E Hno]|(_ & _ & _ & _ & E)];
      [|congruence].
    destruct (bracket_group_head _ _ _ _ _ Hg)
      as [(-> & -> & ->)|(pre' & -> & Hg')].
    + by eapply Hno.
    + rewrite E in Hf. by eapply IH.
Qed.

Lemma first_group_Some d body :
  first_group d = Some body →
  ∃ pre post, bracket_group d pre body post
    ∧ ∀ pre' body' post', bracket_group d pre' body' post' →
        (length pre ≤ length pre')%nat.
Proof.
  revert body. induction d as [|c t IH]; [done|]. intros body Hf.
  destruct (first_group_head c t) as [[E Hno]|(-> & post & Et & Hne & E)].
  - rewrite E in Hf. destruct (IH _ Hf) as (pre & post & Hg & Hmin).
    exists (c :: pre), post. split; [by apply bracket_group_cons|].
    intros pre' body' post' Hg'.
    destruct (bracket_group_head _ _ _ _ _ Hg')
      as [(-> & -> & ->)|(pre'' & -> & Hg'')].
    + by destruct (Hno _ _ Hg').
    + simpl. specialize (Hmin _ _ _ Hg''). lia.
  - rewrite E in Hf. injection Hf as <-. exists [], post.
    split; [|simpl; lia]. split; [by rewrite Et at 1|]. split; [done|].
    intros Hin. pose proof (keep_while_Forall (not_char 93) t) as HF.
    rewrite Forall_forall in HF. apply HF in Hin. by apply not_char_true in Hin.
Qed.

Lemma bracket_group_body d pre body post body' post' :
  bracket_group d pre body post → bracket_group d pre body' post' →
  body = body'.
Proof.
  intros (E & Hne & Hnot) (E' & Hne' & Hnot'). rewrite E in E'.
  apply app_inv_head in E'. simpl in E'. injection E' as E'.
  destruct (bracket_group_here body post Hne Hnot) as [Hk _].
  destruct (bracket_group_here body' post' Hne' Hnot') as [Hk' _].
  simpl in *. congruence.
Qed.

(** C6, as the code has it.  The values are the segments, split at [|], of
    the content of the first bracketed group of the description, where a
    bracketed group is an opening bracket, a non-empty text without closing
    bracket and a closing bracket; the content may hold no [|] at all.  A
    description without bracketed group gives null. *)
Theorem extractEnumValues_first_bracketed (d : jsstring) :
  (∀ pre body post,
     bracket_group d pre body post →
     (∀ pre' body' post', bracket_group d pre' body' post' →
        (length pre ≤ length pre')%nat) →
     extractEnumValues d = Returns (Some (split 124 body)))
  ∧ ((∀ pre body post, ¬ bracket_group d pre body post) →
     extractEnumValues d = Returns None).
Proof.
  rewrite extractEnumValues_first_group. split.
  - intros pre body post Hg Hmin.
    destruct (first_group d) as [body1|] eqn:Ef;
      [|by apply first_group_None
             with (pre := pre) (body := body) (post := post) in Ef].
    destruct (first_group_Some d body1 Ef) as (pre1 & post1 & Hg1 & Hmin1).
    assert (pre1 = pre) as ->.
    { pose proof (Hmin _ _ _ Hg1). pose proof (Hmin1 _ _ _ Hg).
      destruct Hg as (E & _), Hg1 as (E1 & _). rewrite E in E1.
      apply app_inj_1 in E1 as [? _]; [done|lia]. }
    by rewrite (bracket_group_body _ _ _ _ _ _ Hg1 Hg).
  - intros Hnone. destruct (first_group d) as [body|] eqn:Ef; [|done].
    destruct (first_group_Some d body Ef) as (pre & post & Hg & _).
    by destruct (Hnone _ _ _ Hg).
Qed.

Lemma extractEnumValues_first_bracketed_witness :
  extractEnumValues (lit "The style [css|sass] of [x]")
  = Returns (Some [lit "css"; lit "sass"])
  ∧ extractEnumValues (lit "No choice here []") = Returns None.
Proof.
  split.
  - apply (proj1 (extractEnumValues_first_bracketed _)
             (lit "The style ") (lit "css|sass") (lit " of [x]")).
    + split; [reflexivity|]. split; [discriminate|].
      rewrite list_elem_of_In. vm_compute. intuition discriminate.
    + intros pre' body' post' (E & Hne & _).
      destruct (decide (length (lit "The style ") ≤ length pre')%nat) as [|Hlt];
        [done|exfalso].
      do 10 (destruct pre' as [|? pre']; [vm_compute in E; discriminate E|]).
      vm_compute in Hlt. simpl in Hlt. lia.
  - apply (proj2 (extractEnumValues_first_bracketed _)).
    intros pre body post (E & Hne & _).
    do 15 (destruct pre as [|? pre]; [vm_compute in E; discriminate E|]).
    destruct pre as [|? [|? pre]].
    + destruct body as [|? [|? body]]; [done|..]; vm_compute in E;
        discriminate E.
    + vm_compute in E. discriminate E.
    + destruct pre; vm_compute in E; discriminate E.
Defined.

(** C6 as stated fails: this description holds no pipe-delimited list, yet
    its bracketed marker is returned as the one enumerated value. *)
Lemma extractEnumValues_without_pipe :
  includes (lit "Your name [Required]") (lit "|") = false
  ∧ extractEnumValues (lit "Your name [Required]")
    = Returns (Some [lit "Required"]).
Proof. split; reflexivity. Qed.

(** ** The requirement check *)

Section CheckSpec.
Context {Number : Type}.
Context (number_is_falsy : Number → bool).
Context (toLowerCase : jsstring → jsstring).

Lemma split_nonempty sep s : split sep s ≠ [].
Proof.
  destruct s as [|c s]; simpl; [done|].
  destruct (c =? sep); [done|]. by destruct (split sep s).
Qed.

Lemma isOptionRequired_returns o :
  ∃ b, isOptionRequired toLowerCase o = Returns b.
Proof.
  unfold isOptionRequired. rewrite extractEnumValues_first_group.
  repeat (match goal with |- context [if ?c then _ else _] => destruct c end;
          [by eexists|]).
  simpl. destruct (split 124 <$> first_group (opt_description o)) as [[|? ?]|];
    by eexists.
Qed.

Lemma checkArgs_spec providedArgs args i (result : @CheckResult Number) :
  forEach_from (checkArg providedArgs) i args result
  = mkCheckResult
      (missingRequired result
       ++ mjoin (imap (fun index arg =>
            if arg_required arg
               && bool_decide (length providedArgs ≤ i + index)%nat
            then [mkMissingArg (arg_name arg) (arg_description arg)]
            else []) args))
      (missingOptions result) (defaultOptions result).
Proof.
  revert i result. induction args as [|a args IH]; intros i result.
  - simpl. rewrite (right_id_L [] (++)). by destruct result.
  - cbn [forEach_from]. rewrite IH, imap_cons. cbn [mjoin list_join].
    replace (i + 0)%nat with i by lia.
    assert (∀ f g : nat → Arg → list MissingArg,
              (∀ j x, f j x = g j x) → imap f args = imap g args) as Hext.
    { intros f g Hfg. apply imap_ext. intros; apply Hfg. }
    rewrite (Hext ((fun index arg =>
               if arg_required arg
                  && bool_decide (length providedArgs ≤ i + index)%nat
               then [mkMissingArg (arg_name arg) (arg_description arg)]
               else []) ∘ S)
             (fun index arg =>
               if arg_required arg
                  && bool_decide (length providedArgs ≤ S i + index)%nat
               then [mkMissingArg (arg_name arg) (arg_description arg)]
               else [])).
    2:{ intros j x. simpl. by replace (i + S j)%nat with (S (i + j)) by lia. }
    unfold checkArg.
    destruct (arg_required a && bool_decide (length providedArgs ≤ i)%nat);
      simpl; [|done]. by rewrite <-(assoc_L (++)).
Qed.

Lemma checkOption_spec providedOptions o result :
  checkOption number_is_falsy toLowerCase providedOptions o result
  = Returns
      (if classified_required toLowerCase o
          && negb (provided number_is_falsy providedOptions (opt_name o))
       then push_missingOptions
              (mkMissingOption (opt_name o) (opt_description o)
                 (enum_values (opt_description o))) result
       else result).
Proof.
  unfold checkOption, classified_required, enum_values, provided.
  destruct (isOptionRequired_returns o) as [b ->].
  rewrite extractEnumValues_first_group. simpl.
  destruct (first_group (opt_description o)) as [body|]; simpl.
  - pose proof (split_nonempty 124 body).
    destruct (split 124 body) as [|v vs] eqn:Es; [done|].
    destruct b, (truthy _ (get providedOptions (opt_name o))),
      (truthy _ (get providedOptions (camelCase (opt_name o)))); done.
  - destruct b, (truthy _ (get providedOptions (opt_name o))),
      (truthy _ (get providedOptions (camelCase (opt_name o)))); done.
Qed.

Lemma checkOptions_spec providedOptions opts result :
  forEachM (checkOption number_is_falsy toLowerCase providedOptions) opts result
  = Returns (mkCheckResult (missingRequired result)
               (missingOptions result
                ++ missing_options number_is_falsy toLowerCase
                     providedOptions opts)
               (defaultOptions result)).
Proof.
  revert result. induction opts as [|o opts IH]; intros result.
  - simpl. unfold missing_options. simpl.
    rewrite (right_id_L [] (++)). by destruct result.
  - cbn [forEachM]. rewrite checkOption_spec. simpl. rewrite IH.
    unfold missing_options. simpl.
    destruct (classified_required toLowerCase o
              && negb (provided number_is_falsy providedOptions (opt_name o)));
      simpl; [|done].
    by rewrite <-(assoc_L (++)).
Qed.

Lemma checkRequiredArguments_spec helpInfo providedArgs providedOptions :
  checkRequiredArguments number_is_falsy toLowerCase helpInfo providedArgs
    providedOptions
  = Returns (mkCheckResult (missing_args providedArgs (args helpInfo))
               (missing_options number_is_falsy toLowerCase providedOptions
                  (options helpInfo)) ∅).
Proof.
  unfold checkRequiredArguments.
  by rewrite checkArgs_spec, checkOptions_spec.
Qed.

(** C3, as the code has it.  The check returns for every HelpInfo, list
    of arguments and options object.  It reports an argument exactly when
    the argument is required and its index is not below the number of
    arguments given, and an option exactly when the option is classified
    required and the object holds no truthy value under its name nor
    under the camel-cased name; the enumerated values of a reported
    option are given with it. *)
Theorem checkRequiredArguments_reports (helpInfo : HelpInfo)
    (providedArgs : list jsstring)
    (providedOptions : gmap jsstring (JSValue Number)) :
  ∃ result,
    checkRequiredArguments number_is_falsy toLowerCase helpInfo providedArgs
      providedOptions = Returns result
    ∧ missingRequired result = missing_args providedArgs (args helpInfo)
    ∧ missingOptions result
      = missing_options number_is_falsy toLowerCase providedOptions (options helpInfo).
Proof. eexists. by rewrite checkRequiredArguments_spec. Qed.

(** C10. The defaultOptions of the result of the check are the empty
    object, for every HelpInfo, list of arguments and options object. *)
Theorem defaultOptions_empty (helpInfo : HelpInfo)
    (providedArgs : list jsstring)
    (providedOptions : gmap jsstring (JSValue Number)) :
  ∃ result,
    checkRequiredArguments number_is_falsy toLowerCase helpInfo providedArgs
      providedOptions = Returns result
    ∧ defaultOptions result = ∅.
Proof. eexists. by rewrite checkRequiredArguments_spec. Qed.
End CheckSpec.

Lemma checkRequiredArguments_reports_witness :
  ∃ info result,
    parseGeneratorHelp help_scenario = Returns info
    ∧ checkRequiredArguments int_is_falsy ascii_lower info []
        (∅ : gmap jsstring (JSValue Z)) = Returns result
    ∧ missingRequired result
      = [mkMissingArg (lit "appName") (lit "Your app name")]
    ∧ missingOptions result
      = [mkMissingOption (lit "style") (lit "The style [css|sass]")
           (Some [lit "css"; lit "sass"])].
Proof.
  destruct (parseGeneratorHelp help_scenario) as [info| |] eqn:E;
    vm_compute in E; try discriminate E.
  injection E as <-.
  match goal with
  | |- ∃ info result, Returns ?i = _ ∧ _ =>
      destruct (checkRequiredArguments_reports int_is_falsy ascii_lower i []
                  (∅ : gmap jsstring (JSValue Z))) as (r & H & Ha & Ho)
  end.
  eexists _, r. split; [reflexivity|]. split; [exact H|].
  split; [rewrite Ha|rewrite Ho]; vm_compute; reflexivity.
Defined.

(** C3 as stated fails: the caller passes [typescript: false], so the option
    is present in the options object, and it is reported missing. *)
Lemma present_option_reported_missing :
  ∃ info result,
    parseGeneratorHelp help_typescript = Returns info
    ∧ ({[lit "typescript" := VBool false]} : gmap jsstring (JSValue Z))
        !! lit "typescript" = Some (VBool false)
    ∧ checkRequiredArguments int_is_falsy ascii_lower info []
        {[lit "typescript" := VBool false]} = Returns result
    ∧ missingOptions result
      = [mkMissingOption (lit "typescript") (lit "Use TypeScript") None].
Proof.
  eexists _, _. split; [vm_compute; reflexivity|]. split; [reflexivity|].
  split; [apply checkRequiredArguments_spec|]. vm_compute. reflexivity.
Qed.

(** ** The yeoman_generate request *)

Section Request.
Context {Number : Type}.
Context (number_text : Number → jsstring).
Context (entries : gmap jsstring (JSValue Number) →
                   list (jsstring * JSValue Number)).
Hypothesis entries_own : ∀ o, entries o ≡ₚ map_to_list o.

Lemma allPositionalArgs_spec (xs : list jsstring) (a v : jsstring) :
  allPositionalArgs xs a v
  = (if decide (a = []) then [] else [a])
    ++ (if decide (v = []) then [] else [v]) ++ xs.
Proof.
  unfold allPositionalArgs, jseq, unshift.
  repeat case_bool_decide; repeat case_decide; simpl; congruence.
Qed.

(** C4, as the code has it.  With a non-empty application name [a] and a
    non-empty version [v], the positional arguments of the run are [a],
    [v] and then the caller's arguments in their order. *)
Theorem positional_args_prepended (req : @GenerateRequest Number) :
  req_appName req ≠ [] → req_version req ≠ [] →
  run_args (yeoman_generate req)
  = req_appName req :: req_version req :: default [] (req_args req).
Proof.
  intros Ha Hv. simpl. rewrite allPositionalArgs_spec.
  by rewrite !decide_False.
Qed.

Lemma mergedOptions_forced (options : gmap jsstring (JSValue Number)) key :
  key ∈ forced_options → mergedOptions options !! key = Some (VBool true).
Proof.
  intros Hkey. unfold mergedOptions.
  repeat (apply elem_of_cons in Hkey as [->|Hkey];
          [by repeat (first [rewrite lookup_insert_eq
                            |rewrite lookup_insert_ne
                               by (intros Heq; vm_compute in Heq;
                                   discriminate Heq)])|]).
  by apply elem_of_nil in Hkey.
Qed.

Lemma mergedOptions_other (options : gmap jsstring (JSValue Number)) key :
  key ∉ forced_options → mergedOptions options !! key = options !! key.
Proof.
  intros Hkey. unfold mergedOptions.
  repeat (rewrite lookup_insert_ne;
          [|intros <-; apply Hkey, list_elem_of_In; vm_compute; tauto]).
  done.
Qed.

Lemma renderOption_mono yoArgs entry x :
  x ∈ yoArgs → x ∈ renderOption number_text yoArgs entry.
Proof.
  intros Hx. destruct entry as [key [| |[|]| | |]]; simpl;
    rewrite ?elem_of_app; auto.
Qed.

Lemma render_mono es yoArgs x :
  x ∈ yoArgs → x ∈ foldl (renderOption number_text) yoArgs es.
Proof.
  revert yoArgs. induction es as [|e es IH]; intros acc Hx; [done|].
  simpl. by apply IH, renderOption_mono.
Qed.

Lemma render_bare_flag es yoArgs key :
  (key, VBool true) ∈ es →
  lit "--" ++ key ∈ foldl (renderOption number_text) yoArgs es.
Proof.
  revert yoArgs. induction es as [|e es IH]; intros acc Hin.
  - by apply elem_of_nil in Hin.
  - apply elem_of_cons in Hin as [<-|Hin]; [|by apply IH].
    simpl. apply render_mono, elem_of_app. right. by left.
Qed.

Lemma addFlags_mono flags yoArgs x :
  x ∈ yoArgs → x ∈ foldl addFlag yoArgs flags.
Proof.
  revert yoArgs. induction flags as [|f flags IH]; intros acc Hx; [done|].
  simpl. apply IH. unfold addFlag. destruct (array_includes acc f); [done|].
  apply elem_of_app. by left.
Qed.

(** C9. The options of the run map each of the keys the handler sets to
    [true], whatever the caller gave for it, so each is rendered as a bare
    flag in the command line; every other key has the caller's entry. *)
Theorem merged_options_forced (req : @GenerateRequest Number)
    (cliYoPath key : jsstring) :
  let call := yeoman_generate req in
  (key ∈ forced_options →
     run_options call !! key = Some (VBool true)
     ∧ lit "--" ++ key
       ∈ yoArgs number_text entries cliYoPath (run_generatorName call)
           (run_options call) (run_args call))
  ∧ (key ∉ forced_options →
     run_options call !! key = default ∅ (req_options req) !! key).
Proof.
  simpl. split.
  - intros Hkey. pose proof (mergedOptions_forced
      (default ∅ (req_options req)) key Hkey) as Hlook.
    split; [done|]. unfold yoArgs. apply addFlags_mono, render_bare_flag.
    rewrite entries_own. by apply elem_of_map_to_list.
  - apply mergedOptions_other.
Qed.
End Request.

Lemma positional_args_prepended_witness :
  run_args (yeoman_generate request_loud)
  = [lit "app"; lit "1.0.0"; lit "extra"].
Proof.
  apply (positional_args_prepended request_loud); discriminate.
Defined.

(** C4 as stated fails: an empty application name is not passed on. *)
Lemma empty_appName_dropped :
  run_args (yeoman_generate request_unnamed) = [lit "1.0.0"; lit "extra"]
  ∧ run_args (yeoman_generate request_unnamed)
    ≠ req_appName request_unnamed :: req_version request_unnamed
      :: default [] (req_args request_unnamed).
Proof. split; [reflexivity|discriminate]. Qed.

Lemma merged_options_forced_witness :
  default ∅ (req_options request_loud) !! lit "quiet" = Some (VBool false)
  ∧ run_options (yeoman_generate request_loud) !! lit "quiet"
    = Some (VBool true)
  ∧ lit "--quiet"
    ∈ yoArgs int_text map_to_list (lit "cli.js") (lit "webapp")
        (run_options (yeoman_generate request_loud))
        (run_args (yeoman_generate request_loud))
  ∧ run_options (yeoman_generate request_loud) !! lit "style"
    = Some (VString (lit "sass")).
Proof.
  pose proof (merged_options_forced int_text map_to_list
                (fun o => reflexivity (map_to_list o))
                request_loud (lit "cli.js")) as H.
  split; [reflexivity|].
  destruct (H (lit "quiet")) as [[H1 H2] _];
    [apply list_elem_of_In; vm_compute; tauto|].
  split; [exact H1|]. split; [exact H2|].
  destruct (H (lit "style")) as [_ H3]. rewrite H3.
  - reflexivity.
  - rewrite list_elem_of_In. vm_compute. intuition discriminate.
Defined.

(** ** The classification of the outcome *)

Section Classification.
Context {Number : Type}.
Context (number_is_falsy : Number → bool).

(** C2. After the child process has exited the outcome is classified in
    a fixed order: the not-found marker gives the not-found failure for
    every exit code, 0 included; without it the prompt markers give the
    interactive-mode failure; without those the invalid-version marker
    gives its failure; without any marker an exit code other than 0 gives
    the generic failure, and the exit code 0 gives success. *)
Theorem classification_precedence (generatorName output : jsstring)
    (code : option Z) (file : @YoRc Number) :
  let result :=
    classify number_is_falsy generatorName (on_close code output) file in
  let not_found := includes output (lit "Did not find a suitable generator") in
  let invalid := includes output (lit "Invalid version format") in
  (not_found = true →
     r_success result = false
     ∧ r_error result
       = Some (lit "Generator '" ++ generatorName ++ lit "' not found"))
  ∧ (not_found = false → hasPrompts output = true →
     r_success result = false
     ∧ r_error result
       = Some (lit "Generator entered interactive mode - missing required options")
     ∧ r_promptsDetected result = Some (promptLines output))
  ∧ (not_found = false → hasPrompts output = false → invalid = true →
     r_success result = false
     ∧ r_error result = Some (lit "Invalid version format provided"))
  ∧ (not_found = false → hasPrompts output = false → invalid = false →
     code ≠ Some 0%Z →
     r_success result = false
     ∧ r_error result = Some (lit "Generator failed to run successfully"))
  ∧ (not_found = false → hasPrompts output = false → invalid = false →
     code = Some 0%Z →
     r_success result = true ∧ r_error result = None
     ∧ r_output result = Some (cleanOutput output)).
Proof.
  cbv zeta. unfold classify, on_close. simpl.
  split_and!; intros;
    repeat match goal with
           | H : includes _ _ = _ |- _ => rewrite H; clear H
           | H : hasPrompts _ = _ |- _ => rewrite H; clear H
           end; simpl;
    rewrite ?bool_decide_eq_false_2, ?bool_decide_eq_true_2 by done; done.
Qed.
End Classification.

Lemma classification_precedence_witness :
  hasPrompts output_all_markers = true
  ∧ includes output_all_markers (lit "Invalid version format") = true
  ∧ r_success (classify int_is_falsy (lit "webapp")
                 (on_close (Some 0%Z) output_all_markers) YoRcMissing) = false
  ∧ r_error (classify int_is_falsy (lit "webapp")
               (on_close (Some 0%Z) output_all_markers) YoRcMissing)
    = Some (lit "Generator 'webapp' not found").
Proof.
  split; [reflexivity|]. split; [reflexivity|].
  apply (classification_precedence int_is_falsy (lit "webapp")
           output_all_markers (Some 0%Z) YoRcMissing).
  reflexivity.
Defined.

Lemma parseGeneratorHelp_total_witness :
  ∃ info, parseGeneratorHelp help_plain = Returns info
    ∧ options info = [] ∧ args info = [].
Proof.
  destruct (parseGeneratorHelp_total help_plain) as (info & H & Ho & Ha & _).
  exists info. split; [exact H|]. split; [by apply Ho|by apply Ha].
Defined.

(** ** Replacement *)

Lemma render_cons_text f c r : render f (cons_text c r) = c :: render f r.
Proof. by destruct r as [[|[pre m] segs] tl]. Qed.

Lemma render_cons_match f m r : render f (cons_match m r) = f m ++ render f r.
Proof. unfold render. simpl. by rewrite <-(assoc_L (++)). Qed.

Lemma gscan_skip re prev s n :
  (n ≤ length s)%nat →
  gscan re prev s n = gscan re (prev_after prev (take n s)) (drop n s) 0.
Proof.
  revert prev s. induction n as [|n IH]; intros prev s Hn.
  - by rewrite take_0, drop_0.
  - destruct s as [|c s]; [simpl in Hn; lia|]. simpl in Hn.
    cbn [gscan]. rewrite IH by lia. done.
Qed.

Lemma replace_nil re f prev :
  match_at re prev [] = None → render f (gscan re prev [] 0) = [].
Proof. intros H. simpl. by rewrite H. Qed.

Lemma replace_miss re f prev c s :
  match_at re prev (c :: s) = None →
  render f (gscan re prev (c :: s) 0) = c :: render f (gscan re (Some c) s 0).
Proof. intros H. cbn [gscan]. by rewrite H, render_cons_text. Qed.

Lemma replace_hit re f prev s m :
  match_at re prev s = Some m → m_text m ≠ [] →
  render f (gscan re prev s 0)
  = f m ++ render f (gscan re (prev_after prev (m_text m)) (m_rest m) 0).
Proof.
  intros H Hne. pose proof (match_at_inv _ _ _ _ H) as (Es & _).
  destruct (m_text m) as [|x xs] eqn:Et; [done|]. clear Hne.
  destruct s as [|c s]; [done|]. simpl in Es. injection Es as -> ->.
  cbn [gscan]. rewrite H, Et. cbn [length]. cbv iota beta.
  rewrite render_cons_match, gscan_skip by (rewrite length_app; lia).
  by rewrite take_app_length, drop_app_length.
Qed.

(** What a replacement leaves is made of the code units of the input and of
    the replacement texts. *)
Lemma replace_Forall (P : jschar → Prop) re f s prev skip :
  (∀ m, Forall P (f m)) → Forall P s →
  Forall P (render f (gscan re prev s skip)).
Proof.
  intros Hf. revert prev skip.
  induction s as [|c s IH]; intros prev skip Hs.
  - destruct skip; cbn [gscan]; [|by constructor].
    destruct (match_at _ _ _) as [m|]; [|by constructor].
    unfold render. simpl. rewrite !(right_id_L [] (++)). apply Hf.
  - apply Forall_cons in Hs as [Hc Hs]. destruct skip as [|n]; cbn [gscan].
    + destruct (match_at re prev (c :: s)) as [m|].
      * destruct (length (m_text m));
          rewrite render_cons_match, ?render_cons_text;
          apply Forall_app; (split; [apply Hf|]); [constructor; [done|]|];
          by apply IH.
      * rewrite render_cons_text. constructor; [done|by apply IH].
    + by apply IH.
Qed.

(** A pattern that can only match at a code unit [c] leaves a text without
    [c] as it is. *)
Lemma replace_absent re f c s prev :
  (∀ prev' t m, match_at re prev' t = Some m → head t = Some c) →
  c ∉ s → render f (gscan re prev s 0) = s.
Proof.
  intros Hhead. revert prev. induction s as [|x s IH]; intros prev Hc.
  - apply replace_nil. destruct (match_at re prev []) eqn:E; [|done].
    by apply Hhead in E.
  - apply not_elem_of_cons in Hc as [Hx Hs]. rewrite replace_miss.
    + by rewrite IH.
    + destruct (match_at re prev (x :: s)) eqn:E; [|done].
      apply Hhead in E. simpl in E. congruence.
Qed.

Lemma rmatch_Chr_head c r st k x :
  rmatch false (Seq (Chr c) r) st k = Some x → head (ms_rest st) = Some c.
Proof.
  simpl. destruct (ms_rest st) as [|y s]; [done|]. unfold chr_eq.
  destruct (c =? y) eqn:E; [|done]. by apply N.eqb_eq in E as ->.
Qed.

Lemma match_at_Chr_head re c r prev t m :
  re_icase re = false → re_body re = Seq (Chr c) r →
  match_at re prev t = Some m → head t = Some c.
Proof.
  intros Hic Hb. unfold match_at. rewrite Hic, Hb.
  destruct (rmatch _ _ _ _) eqn:E; [|done]. intros _.
  by apply rmatch_Chr_head in E.
Qed.

(** ** The patterns of cleanOutput *)

Lemma match_at_crRe prev s :
  match_at crRe prev s
  = match s with
    | c :: t => if c =? CR then Some (mkMatch [CR] [None] t) else None
    | [] => None
    end.
Proof.
  destruct s as [|c t]; [done|]. unfold match_at. simpl. unfold chr_eq.
  rewrite (N.eqb_sym CR c). destruct (c =? CR) eqn:E; [|done].
  apply N.eqb_eq in E as ->. simpl.
  change (CR :: t) with ([CR] ++ t). by rewrite consumed_app.
Qed.

Lemma match_at_crRe_head prev t m :
  match_at crRe prev t = Some m → head t = Some CR.
Proof.
  rewrite match_at_crRe. destruct t as [|c t]; [done|].
  destruct (c =? CR) eqn:E; [|done]. by apply N.eqb_eq in E as ->.
Qed.

Lemma replace_crRe_no_CR prev s :
  CR ∉ render (fun _ => [LF]) (gscan crRe prev s 0).
Proof.
  revert prev. induction s as [|c s IH]; intros prev.
  - rewrite replace_nil by done. apply not_elem_of_nil.
  - destruct (c =? CR) eqn:E.
    + erewrite replace_hit; [|by rewrite match_at_crRe, E|done]. simpl.
      apply not_elem_of_cons. split; [done|apply IH].
    + rewrite replace_miss by (by rewrite match_at_crRe, E).
      apply not_elem_of_cons. split; [|apply IH].
      intros <-. by rewrite N.eqb_refl in E.
Qed.

Lemma is_char_eq a c : is_char a c = (a =? c).
Proof. unfold is_char. apply N.eqb_sym. Qed.

Lemma match_at_blankLinesRe prev s :
  match_at blankLinesRe prev s
  = if starts_with triple_LF s
    then Some (mkMatch (keep_while (is_char LF) s) [None]
                 (skip_while (is_char LF) s))
    else None.
Proof.
  unfold match_at, triple_LF. cbn [re_body re_icase re_groups blankLinesRe rmatch
    ms_prev ms_rest ms_caps rep_min starts_with].
  destruct s as [|c1 [|c2 [|c3 s]]]; rewrite ?is_char_eq;
    try (by repeat destruct (LF =? _)).
  destruct (LF =? c1) eqn:E1; [|done]. destruct (LF =? c2) eqn:E2; [|done].
  destruct (LF =? c3) eqn:E3; [|done]. simpl.
  apply N.eqb_eq in E1 as <-, E2 as <-, E3 as <-.
  rewrite rep_greedy_total by (intros; by eexists). simpl.
  f_equal. f_equal.
  pose proof (keep_skip (is_char LF) s) as Hks.
  remember (keep_while (is_char LF) s) as run eqn:Hrun. clear Hrun.
  remember (skip_while (is_char LF) s) as rest eqn:Hrest. clear Hrest.
  subst s. change (LF :: LF :: LF :: run ++ rest)
    with ((LF :: LF :: LF :: run) ++ rest).
  by rewrite consumed_app.
Qed.

Lemma lead_cons c s : lead (c :: s) = if c =? LF then S (lead s) else 0%nat.
Proof. unfold lead. simpl. unfold is_char. by destruct (c =? LF). Qed.

Lemma lead_LF s : lead (LF :: s) = S (lead s).
Proof. by rewrite lead_cons, N.eqb_refl. Qed.

Lemma lead_skip_while s : lead (skip_while (is_char LF) s) = 0%nat.
Proof.
  induction s as [|c s IH]; [done|]. simpl.
  destruct (is_char LF c) eqn:E; [done|]. unfold lead. simpl. by rewrite E.
Qed.

Lemma starts_with_triple_lead s :
  starts_with triple_LF s = true ↔ (3 ≤ lead s)%nat.
Proof.
  unfold triple_LF.
  destruct s as [|c1 s]; [simpl; unfold lead; simpl; split; [done|lia]|].
  cbn [starts_with]. rewrite lead_cons, (N.eqb_sym LF c1).
  destruct (c1 =? LF); [|simpl; split; [done|lia]].
  destruct s as [|c2 s]; [simpl; unfold lead; simpl; split; [done|lia]|].
  cbn [starts_with]. rewrite lead_cons, (N.eqb_sym LF c2).
  destruct (c2 =? LF); [|simpl; split; [done|lia]].
  destruct s as [|c3 s]; [simpl; unfold lead; simpl; split; [done|lia]|].
  cbn [starts_with]. rewrite lead_cons, (N.eqb_sym LF c3).
  destruct (c3 =? LF); simpl; split; (done || lia).
Qed.

Lemma includes_cons_triple c s :
  includes (c :: s) triple_LF = false
  ↔ starts_with triple_LF (c :: s) = false ∧ includes s triple_LF = false.
Proof. cbn [includes]. apply orb_false_iff. Qed.

Lemma starts_with_triple_false s :
  (lead s < 3)%nat → starts_with triple_LF s = false.
Proof.
  intros H. destruct (starts_with triple_LF s) eqn:E; [|done].
  apply starts_with_triple_lead in E. lia.
Qed.

Lemma keep_while_nonempty s :
  starts_with triple_LF s = true → keep_while (is_char LF) s ≠ [].
Proof.
  intros H%starts_with_triple_lead. unfold lead in H.
  destruct (keep_while _ _); [simpl in H; lia|done].
Qed.

(** After the collapse no three line feeds follow one another. *)
Lemma replace_blankLinesRe_collapsed n s prev :
  (length s ≤ n)%nat →
  let out := render (fun _ => [LF; LF]) (gscan blankLinesRe prev s 0) in
  includes out triple_LF = false ∧ (lead out ≤ lead s)%nat ∧ (lead out ≤ 2)%nat.
Proof.
  revert s prev. induction n as [|n IH]; intros s prev Hn.
  { destruct s; [|simpl in Hn; lia]. rewrite replace_nil by done.
    unfold lead. simpl. auto with lia. }
  cbv zeta. destruct (starts_with triple_LF s) eqn:Est.
  - pose proof (keep_while_nonempty s Est) as Hne.
    pose proof (keep_skip (is_char LF) s) as Hks.
    erewrite replace_hit; [|by rewrite match_at_blankLinesRe, Est|done].
    cbn [m_text m_rest].
    set (rest := skip_while (is_char LF) s) in *.
    destruct (IH rest (prev_after prev (keep_while (is_char LF) s)))
      as (Hno & Hlead & _).
    { rewrite <-Hks, length_app in Hn.
      destruct (keep_while (is_char LF) s); [done|]. simpl in Hn. lia. }
    unfold rest in Hlead at 2. rewrite lead_skip_while in Hlead.
    set (z := render _ (gscan blankLinesRe _ rest 0)) in *.
    assert (lead z = 0%nat) as Hz by lia.
    apply starts_with_triple_lead in Est. cbn [app].
    split; [|rewrite !lead_LF, Hz; lia].
    apply includes_cons_triple. split.
    { apply starts_with_triple_false. rewrite !lead_LF, Hz. lia. }
    apply includes_cons_triple. split; [|done].
    apply starts_with_triple_false. rewrite !lead_LF, Hz. lia.
  - destruct s as [|c s].
    { rewrite replace_nil by done. unfold lead. simpl. auto with lia. }
    rewrite replace_miss by (by rewrite match_at_blankLinesRe, Est).
    destruct (IH s (Some c)) as (Hno & Hlead & Hle); [simpl in Hn; lia|].
    set (z := render _ (gscan blankLinesRe _ s 0)) in *.
    assert (lead (c :: s) < 3)%nat as Hlt.
    { destruct (decide (3 ≤ lead (c :: s))%nat) as [H|H]; [|lia].
      apply starts_with_triple_lead in H. congruence. }
    rewrite !lead_cons in *. destruct (c =? LF) eqn:Ec.
    + split; [|lia]. apply includes_cons_triple. split; [|done].
      apply starts_with_triple_false. rewrite lead_cons, Ec. lia.
    + split; [|lia]. apply includes_cons_triple. split; [|done].
      apply starts_with_triple_false. rewrite lead_cons, Ec. lia.
Qed.

Lemma replace_blankLinesRe_id f s prev :
  includes s triple_LF = false → render f (gscan blankLinesRe prev s 0) = s.
Proof.
  revert prev. induction s as [|c s IH]; intros prev H.
  - by rewrite replace_nil.
  - apply includes_cons_triple in H as [Hst Hno].
    rewrite replace_miss by (by rewrite match_at_blankLinesRe, Hst).
    by rewrite IH.
Qed.

Lemma not_elem_of_Forall (c : jschar) (s : jsstring) :
  c ∉ s ↔ Forall (fun x => x ≠ c) s.
Proof.
  rewrite Forall_forall. split.
  - intros H x Hx ->. done.
  - intros H Hc. by apply (H c).
Qed.

Lemma replace_keeps_absent re f c s :
  (∀ m, c ∉ f m) → c ∉ s → c ∉ replace_g re f s.
Proof.
  intros Hf Hs. apply not_elem_of_Forall, replace_Forall.
  - intros m. apply not_elem_of_Forall, Hf.
  - by apply not_elem_of_Forall.
Qed.

Lemma remove_absent re c r s :
  re_icase re = false → re_body re = Seq (Chr c) r → c ∉ s → remove re s = s.
Proof.
  intros Hic Hb Hs. apply (replace_absent re _ c); [|done].
  intros prev t m. by apply match_at_Chr_head with (r := r).
Qed.

Lemma cleanOutput_no_CR output : CR ∉ cleanOutput output.
Proof.
  unfold cleanOutput. apply replace_keeps_absent.
  - intros _. rewrite list_elem_of_In. simpl. intuition discriminate.
  - apply replace_crRe_no_CR.
Qed.

Lemma cleanOutput_collapsed output :
  includes (cleanOutput output) triple_LF = false.
Proof.
  unfold cleanOutput, replace_g at 1.
  by eapply (replace_blankLinesRe_collapsed _ _ None (reflexivity _)).
Qed.

(** The collapse step by step. *)
Lemma collapse_from prev s :
  render (fun _ => [LF; LF]) (gscan blankLinesRe prev s 0) = collapse s.
Proof.
  unfold collapse, replace_g.
  destruct s; cbn [gscan]; by rewrite !match_at_blankLinesRe.
Qed.

Lemma collapse_miss c s :
  starts_with triple_LF (c :: s) = false → collapse (c :: s) = c :: collapse s.
Proof.
  intros H. unfold collapse at 1, replace_g.
  rewrite replace_miss by (by rewrite match_at_blankLinesRe, H).
  by rewrite collapse_from.
Qed.

Lemma collapse_hit s :
  starts_with triple_LF s = true →
  collapse s = LF :: LF :: collapse (skip_while (is_char LF) s).
Proof.
  intros H. unfold collapse at 1, replace_g.
  erewrite replace_hit;
    [|by rewrite match_at_blankLinesRe, H|by apply keep_while_nonempty].
  cbn [m_text m_rest]. by rewrite collapse_from.
Qed.

Lemma keep_while_app_stop p (a t : jsstring) :
  skip_while p a ≠ [] →
  keep_while p (a ++ t) = keep_while p a
  ∧ skip_while p (a ++ t) = skip_while p a ++ t.
Proof.
  induction a as [|c a IH]; [done|]. simpl. destruct (p c); [|done].
  intros H. destruct (IH H) as [-> ->]. done.
Qed.

Lemma last_plain_tail (c : jschar) (a : jsstring) :
  last (c :: a) ≠ Some LF → last a ≠ Some LF.
Proof. destruct a; [done|]. by rewrite last_cons_cons. Qed.

Lemma last_plain_skip (a : jsstring) :
  a ≠ [] → last a ≠ Some LF →
  skip_while (is_char LF) a ≠ [] ∧ last (skip_while (is_char LF) a) ≠ Some LF.
Proof.
  induction a as [|c a IH]; [done|]. intros _ Hlast. simpl.
  destruct (is_char LF c) eqn:E; [|done].
  destruct a as [|x a].
  - unfold is_char in E. apply N.eqb_eq in E as ->. done.
  - rewrite last_cons_cons in Hlast. by apply IH.
Qed.

(** The collapse of a text goes through a point before which no line feed
    stands. *)
Lemma collapse_app n (a t : jsstring) :
  (length a ≤ n)%nat → last a ≠ Some LF →
  collapse (a ++ t) = collapse a ++ collapse t.
Proof.
  revert a. induction n as [|n IH]; intros a Hn Hlast.
  { destruct a; [done|simpl in Hn; lia]. }
  destruct a as [|c a]; [done|].
  destruct (last_plain_skip (c :: a)) as [Hskip Hlast']; [done..|].
  destruct (keep_while_app_stop (is_char LF) (c :: a) t Hskip) as [Hk Hs].
  assert (starts_with triple_LF ((c :: a) ++ t)
          = starts_with triple_LF (c :: a)) as Hst.
  { apply eq_true_iff_eq. rewrite !starts_with_triple_lead.
    unfold lead. by rewrite Hk. }
  destruct (starts_with triple_LF (c :: a)) eqn:E.
  - rewrite (collapse_hit _ Hst), (collapse_hit _ E), Hs.
    rewrite IH; [done| |done].
    pose proof (keep_while_nonempty _ E) as Hne.
    pose proof (keep_skip (is_char LF) (c :: a)) as Hks.
    apply (f_equal length) in Hks. rewrite length_app in Hks.
    destruct (keep_while (is_char LF) (c :: a)); [done|].
    cbn [length] in Hks, Hn. lia.
  - change ((c :: a) ++ t) with (c :: (a ++ t)) in *.
    rewrite (collapse_miss _ _ Hst), (collapse_miss _ _ E).
    rewrite IH; [done|simpl in Hn; lia|by eapply last_plain_tail].
Qed.

Lemma collapse_run k (b : jsstring) :
  (3 ≤ k)%nat → head b ≠ Some LF →
  collapse (replicate k LF ++ b) = LF :: LF :: collapse b.
Proof.
  intros Hk Hb.
  assert (keep_while (is_char LF) (replicate k LF ++ b) = replicate k LF
          ∧ skip_while (is_char LF) (replicate k LF ++ b) = b) as [Hkeep Hskip].
  { clear Hk. induction k as [|k [IH1 IH2]]; simpl.
    - destruct b as [|x b]; [done|]. simpl.
      destruct (is_char LF x) eqn:E; [|done].
      unfold is_char in E. apply N.eqb_eq in E as ->. done.
    - by rewrite IH1, IH2. }
  rewrite collapse_hit, Hskip; [done|].
  apply starts_with_triple_lead. unfold lead.
  by rewrite Hkeep, length_replicate.
Qed.

Lemma cleanOutput_plain s : ESC ∉ s → CR ∉ s → cleanOutput s = collapse s.
Proof.
  intros Hesc Hcr. unfold cleanOutput.
  rewrite (remove_absent colorRe ESC _ s eq_refl eq_refl Hesc).
  rewrite (remove_absent cursorVisibilityRe ESC _ s eq_refl eq_refl Hesc).
  rewrite (remove_absent cursorMoveRe ESC _ s eq_refl eq_refl Hesc).
  unfold replace_g at 2 3.
  rewrite (replace_absent crlfRe _ CR s None); [|
    intros prev t m; by apply match_at_Chr_head with (r := Chr LF)|done].
  rewrite (replace_absent crRe _ CR s None); [|
    intros prev t m; apply match_at_crRe_head|done].
  done.
Qed.

Lemma cleanOutput_fixed s :
  ESC ∉ s → CR ∉ s → includes s triple_LF = false → cleanOutput s = s.
Proof.
  intros Hesc Hcr Hno. rewrite cleanOutput_plain by done.
  by apply replace_blankLinesRe_id.
Qed.

(** ** The removal of escape sequences *)

Lemma rmatch_plus_blocked ic p st k :
  (∀ pv c s' caps, p c = true → k (MState pv (c :: s') caps) = None) →
  rmatch ic (plus p) st k
  = match keep_while p (ms_rest st) with
    | [] => None
    | run => k (MState (prev_after (ms_prev st) run)
                  (skip_while p (ms_rest st)) (ms_caps st))
    end.
Proof.
  intros Hk. cbn [plus rmatch rep_min].
  destruct (ms_rest st) as [|c s]; [done|]. cbn [keep_while skip_while].
  destruct (p c) eqn:E; [|done].
  rewrite rep_greedy_blocked by (intros; by apply Hk). done.
Qed.

(** A match of [ESC [ digits] and one more code unit of a class that holds
    no digit. *)
Lemma match_at_csi (last : regex) (q : jschar → bool) prev s :
  (∀ st k,
     rmatch false last st k
     = match ms_rest st with
       | x :: s' =>
           if q x then k (MState (Some x) s' (ms_caps st)) else None
       | [] => None
       end) →
  (∀ c, is_digit c = true → q c = false) →
  match_at (mkRegExp false 0 (Seqs [Chr ESC; Chr 91; plus is_digit; last]))
    prev s
  = match s with
    | x :: y :: t =>
        if (x =? ESC) && (y =? 91) then
          match keep_while is_digit t, skip_while is_digit t with
          | d :: ds, z :: rest =>
              if q z
              then Some (mkMatch (x :: y :: (d :: ds) ++ [z]) [None] rest)
              else None
          | _, _ => None
          end
        else None
    | _ => None
    end.
Proof.
  intros Hlast Hq. unfold match_at.
  cbn [re_icase re_body re_groups Seqs].
  destruct s as [|x [|y t]].
  - done.
  - cbn [rmatch ms_rest]. unfold chr_eq. by destruct (ESC =? x).
  - cbn [rmatch ms_rest ms_caps ms_prev]. unfold chr_eq.
    rewrite (N.eqb_sym ESC x), (N.eqb_sym 91 y).
    destruct (x =? ESC) eqn:Ex; [|done]. destruct (y =? 91) eqn:Ey; [|done].
    cbn [andb].
    change (rep_min 1 is_digit (Some y) t
              (fun pv s0 => rep_greedy is_digit pv s0
                 (fun pv' s' =>
                    rmatch false last (MState pv' s' (replicate 1 None)) Some)))
      with (rmatch false (plus is_digit) (MState (Some y) t (replicate 1 None))
              (fun st' => rmatch false last st' Some)).
    rewrite rmatch_plus_blocked.
    2:{ intros pv c s' caps Hc. rewrite Hlast. cbn [ms_rest].
        by rewrite (Hq c Hc). }
    cbn [ms_rest ms_caps ms_prev].
    pose proof (keep_skip is_digit t) as Hks.
    destruct (keep_while is_digit t) as [|d ds]; [done|].
    rewrite Hlast. cbn [ms_rest ms_caps].
    destruct (skip_while is_digit t) as [|z rest]; [done|].
    destruct (q z); [|done]. cbn [ms_rest ms_caps]. f_equal. f_equal.
    rewrite <-Hks.
    change (x :: y :: (d :: ds) ++ z :: rest)
      with ((x :: y :: (d :: ds)) ++ [z] ++ rest).
    rewrite (assoc_L (++)). by rewrite consumed_app.
Qed.

Lemma match_at_colorRe prev s :
  match_at colorRe prev s
  = match s with
    | x :: y :: t =>
        if (x =? ESC) && (y =? 91) then
          match keep_while is_digit t, skip_while is_digit t with
          | d :: ds, z :: rest =>
              if 109 =? z
              then Some (mkMatch (x :: y :: (d :: ds) ++ [z]) [None] rest)
              else None
          | _, _ => None
          end
        else None
    | _ => None
    end.
Proof.
  apply (match_at_csi (Chr 109) (N.eqb 109)); [done|].
  intros c Hc. apply N.eqb_neq. intros <-. done.
Qed.

Lemma match_at_cursorMoveRe prev s :
  match_at cursorMoveRe prev s
  = match s with
    | x :: y :: t =>
        if (x =? ESC) && (y =? 91) then
          match keep_while is_digit t, skip_while is_digit t with
          | d :: ds, z :: rest =>
              if in_range 65 90 z
              then Some (mkMatch (x :: y :: (d :: ds) ++ [z]) [None] rest)
              else None
          | _, _ => None
          end
        else None
    | _ => None
    end.
Proof.
  apply (match_at_csi (Cls (in_range 65 90)) (in_range 65 90)); [done|].
  intros c. unfold is_digit, in_range.
  rewrite !andb_true_iff, andb_false_iff, !N.leb_le, !N.leb_gt. lia.
Qed.

Lemma match_at_cursorVisibilityRe prev s :
  match_at cursorVisibilityRe prev s
  = match s with
    | x1 :: x2 :: x3 :: x4 :: x5 :: c :: rest =>
        if (x1 =? ESC) && (x2 =? 91) && (x3 =? 63) && (x4 =? 50)
           && (x5 =? 53) && one_of "hl" c
        then Some (mkMatch [x1; x2; x3; x4; x5; c] [None] rest)
        else None
    | _ => None
    end.
Proof.
  unfold match_at. cbn [re_icase re_body re_groups cursorVisibilityRe Seqs].
  destruct s as [|x1 s]; [done|]. cbn [rmatch ms_rest]. unfold chr_eq.
  rewrite (N.eqb_sym ESC x1). destruct (x1 =? ESC); [|by destruct s as [|? [|? [|? [|? [|? ?]]]]]].
  destruct s as [|x2 s]; [done|]. cbn [rmatch ms_rest].
  rewrite (N.eqb_sym 91 x2). destruct (x2 =? 91); [|by destruct s as [|? [|? [|? [|? ?]]]]].
  destruct s as [|x3 s]; [done|]. cbn [rmatch ms_rest].
  rewrite (N.eqb_sym 63 x3). destruct (x3 =? 63); [|by destruct s as [|? [|? [|? ?]]]].
  destruct s as [|x4 s]; [done|]. cbn [rmatch ms_rest].
  rewrite (N.eqb_sym 50 x4). destruct (x4 =? 50); [|by destruct s as [|? [|? ?]]].
  destruct s as [|x5 s]; [done|]. cbn [rmatch ms_rest].
  rewrite (N.eqb_sym 53 x5). destruct (x5 =? 53); [|by destruct s as [|? ?]].
  destruct s as [|c rest]; [done|]. cbn [rmatch ms_rest ms_caps andb].
  destruct (one_of "hl" c); [|done]. cbn [ms_rest ms_caps]. f_equal. f_equal.
  change (x1 :: x2 :: x3 :: x4 :: x5 :: c :: rest)
    with ([x1; x2; x3; x4; x5; c] ++ rest).
  by rewrite consumed_app.
Qed.

Lemma gscan_prev_irrelevant re prev prev' s n :
  (∀ pv pv' t, match_at re pv t = match_at re pv' t) →
  gscan re prev s n = gscan re prev' s n.
Proof.
  intros Hre. revert prev prev' n.
  induction s as [|x s IH]; intros prev prev' n.
  - destruct n; [|done]. cbn [gscan]. by rewrite (Hre prev prev').
  - destruct n as [|n]; cbn [gscan]; [|done].
    by rewrite (Hre prev prev').
Qed.

Section Passes.
Context (re : RegExp) (r : regex).
Hypothesis re_icase_off : re_icase re = false.
Hypothesis re_starts_ESC : re_body re = Seq (Chr ESC) r.
Hypothesis re_prev : ∀ pv pv' t, match_at re pv t = match_at re pv' t.

Lemma remove_plain (a b : jsstring) :
  ESC ∉ a → remove re (a ++ b) = a ++ remove re b.
Proof.
  unfold remove, replace_g. generalize (@None jschar) at 1.
  induction a as [|c a IH]; intros prev Ha.
  - by rewrite (gscan_prev_irrelevant re prev None).
  - apply not_elem_of_cons in Ha as [Hc Ha].
    change ((c :: a) ++ b) with (c :: (a ++ b)). rewrite replace_miss.
    + by rewrite IH.
    + destruct (match_at re prev (c :: a ++ b)) eqn:E; [|done].
      apply (match_at_Chr_head _ _ _ _ _ _ re_icase_off re_starts_ESC) in E.
      simpl in E. congruence.
Qed.

Lemma remove_hit (a e b : jsstring) caps :
  ESC ∉ a → e ≠ [] → match_at re None (e ++ b) = Some (mkMatch e caps b) →
  remove re (a ++ e ++ b) = a ++ remove re b.
Proof.
  intros Ha He Hm. rewrite remove_plain by done. f_equal.
  unfold remove, replace_g. rewrite (replace_hit _ _ _ _ _ Hm) by done.
  cbn [m_text m_rest app]. by apply f_equal, gscan_prev_irrelevant.
Qed.

Lemma remove_skip (a e b : jsstring) :
  ESC ∉ a → ESC ∉ e → match_at re None (ESC :: e ++ b) = None →
  remove re (a ++ (ESC :: e) ++ b) = a ++ (ESC :: e) ++ remove re b.
Proof.
  intros Ha He Hm. rewrite remove_plain by done. f_equal.
  change ((ESC :: e) ++ b) with (ESC :: (e ++ b)).
  unfold remove at 1, replace_g. rewrite replace_miss by done.
  cbn [app]. f_equal.
  rewrite (gscan_prev_irrelevant re (Some ESC) None) by done.
  by apply remove_plain.
Qed.
End Passes.

Lemma ESC_not_digits (ds : jsstring) :
  Forall (fun c => is_digit c = true) ds → ESC ∉ ds.
Proof.
  intros H Hin. rewrite Forall_forall in H. by apply H in Hin.
Qed.

Lemma capital_not_digit c : in_range 65 90 c = true → is_digit c = false.
Proof.
  unfold is_digit, in_range.
  rewrite andb_true_iff, andb_false_iff, !N.leb_le, !N.leb_gt. lia.
Qed.

(** What the three patterns make of a sequence [ESC [ digits z]. *)
Lemma csi_sequence (ds : jsstring) (z : jschar) (b : jsstring) :
  ds ≠ [] → Forall (fun c => is_digit c = true) ds → is_digit z = false →
  (∀ prev, match_at colorRe prev (([ESC; 91] ++ ds ++ [z]) ++ b)
           = if 109 =? z
             then Some (mkMatch ([ESC; 91] ++ ds ++ [z]) [None] b) else None)
  ∧ (∀ prev, match_at cursorMoveRe prev (([ESC; 91] ++ ds ++ [z]) ++ b)
             = if in_range 65 90 z
               then Some (mkMatch ([ESC; 91] ++ ds ++ [z]) [None] b)
               else None)
  ∧ (∀ prev, match_at cursorVisibilityRe prev
               (([ESC; 91] ++ ds ++ [z]) ++ b) = None)
  ∧ (ESC ≠ z → ESC ∉ ([91] ++ ds ++ [z])).
Proof.
  intros Hne Hds Hz.
  assert (([ESC; 91] ++ ds ++ [z]) ++ b = ESC :: 91 :: (ds ++ z :: b)) as ->
    by (by rewrite <-!(assoc_L (++))).
  destruct (keep_while_app is_digit ds z b Hds Hz) as [Hk Hs].
  unfold jschar in *. split_and!.
  - intros prev. rewrite match_at_colorRe. cbv beta iota.
    rewrite !N.eqb_refl. cbn [andb]. rewrite Hk, Hs. by destruct ds.
  - intros prev. rewrite match_at_cursorMoveRe. cbv beta iota.
    rewrite !N.eqb_refl. cbn [andb]. rewrite Hk, Hs. by destruct ds.
  - intros prev. rewrite match_at_cursorVisibilityRe.
    destruct ds as [|d ds]; [done|]. cbn [app].
    assert ((d =? 63) = false) as Hd.
    { apply N.eqb_neq. intros ->. by apply Forall_cons in Hds as [? _]. }
    destruct (ds ++ z :: b) as [|? [|? [|? ?]]]; try done;
      by rewrite !N.eqb_refl, Hd.
  - intros Hz'. rewrite not_elem_of_app, not_elem_of_app, !not_elem_of_cons.
    split_and!; try done; try apply not_elem_of_nil.
    by apply ESC_not_digits.
Qed.

(** One escape sequence after a text without ESC is removed, whatever
    comes after it. *)
Lemma cleanOutput_escape (a e b : jsstring) :
  ESC ∉ a → escape_sequence e →
  cleanOutput (a ++ e ++ b) = cleanOutput (a ++ b).
Proof.
  intros Ha He. unfold cleanOutput.
  assert (∀ pv pv' t, match_at colorRe pv t = match_at colorRe pv' t) as P1
    by (intros; by rewrite !match_at_colorRe).
  assert (∀ pv pv' t, match_at cursorVisibilityRe pv t
                      = match_at cursorVisibilityRe pv' t) as P2
    by (intros; by rewrite !match_at_cursorVisibilityRe).
  assert (∀ pv pv' t, match_at cursorMoveRe pv t
                      = match_at cursorMoveRe pv' t) as P3
    by (intros; by rewrite !match_at_cursorMoveRe).
  pose proof (remove_plain colorRe _ eq_refl eq_refl P1 a) as Plain1.
  pose proof (remove_plain cursorVisibilityRe _ eq_refl eq_refl P2 a) as Plain2.
  pose proof (remove_plain cursorMoveRe _ eq_refl eq_refl P3 a) as Plain3.
  rewrite (Plain1 b Ha).
  destruct He as [ds Hne Hds|c Hc|ds c Hne Hds Hc].
  - (* a colour code goes in the first pass *)
    destruct (csi_sequence ds 109 b Hne Hds eq_refl) as (Hit & _).
    specialize (Hit None). rewrite N.eqb_refl in Hit.
    pose proof (remove_hit colorRe _ eq_refl eq_refl P1 a
                  ([ESC; 91] ++ ds ++ [109]) b [None] Ha ltac:(done) Hit) as E.
    unfold jschar in *. by rewrite E.
  - (* a cursor visibility command goes in the second pass *)
    assert (ESC ∉ [91; 63; 50; 53; c]) as Hesc.
    { rewrite !not_elem_of_cons. split_and!; try done.
      - intros <-. vm_compute in Hc. discriminate Hc.
      - apply not_elem_of_nil. }
    pose proof (remove_skip colorRe _ eq_refl eq_refl P1 a [91; 63; 50; 53; c]
                  b Ha Hesc ltac:(by rewrite match_at_colorRe)) as E1.
    assert (match_at cursorVisibilityRe None
              ([ESC; 91; 63; 50; 53; c] ++ remove colorRe b)
            = Some (mkMatch [ESC; 91; 63; 50; 53; c] [None]
                      (remove colorRe b))) as Hit.
    { rewrite match_at_cursorVisibilityRe. cbn [app]. cbv beta iota.
      rewrite !N.eqb_refl. by rewrite Hc. }
    pose proof (remove_hit cursorVisibilityRe _ eq_refl eq_refl P2 a
                  [ESC; 91; 63; 50; 53; c] _ [None] Ha ltac:(done) Hit) as E2.
    pose proof (Plain2 (remove colorRe b) Ha) as E3.
    unfold jschar in *. by rewrite E1, E2, E3.
  - (* a cursor movement goes in the third pass *)
    pose proof (capital_not_digit c Hc) as Hcd.
    assert ((109 =? c) = false) as Hcm by (apply N.eqb_neq; by intros <-).
    assert (ESC ≠ c) as Hce by (by intros <-).
    destruct (csi_sequence ds c b Hne Hds Hcd) as (Miss1 & _ & _ & Hesc).
    rewrite Hcm in Miss1.
    pose proof (remove_skip colorRe _ eq_refl eq_refl P1 a
                  ([91] ++ ds ++ [c]) b Ha (Hesc Hce) (Miss1 None)) as E1.
    destruct (csi_sequence ds c (remove colorRe b) Hne Hds Hcd)
      as (_ & _ & Miss2 & _).
    pose proof (remove_skip cursorVisibilityRe _ eq_refl eq_refl P2 a
                  ([91] ++ ds ++ [c]) _ Ha (Hesc Hce) (Miss2 None)) as E2.
    pose proof (Plain2 (remove colorRe b) Ha) as E3.
    destruct (csi_sequence ds c
                (remove cursorVisibilityRe (remove colorRe b)) Hne Hds Hcd)
      as (_ & Hit3 & _). rewrite Hc in Hit3.
    pose proof (remove_hit cursorMoveRe _ eq_refl eq_refl P3 a
                  ([ESC; 91] ++ ds ++ [c]) _ [None] Ha ltac:(done)
                  (Hit3 None)) as E4.
    pose proof (Plain3 (remove cursorVisibilityRe (remove colorRe b)) Ha)
      as E5.
    unfold jschar in *. cbn [app] in *. by rewrite E1, E2, E3, E4, E5.
Qed.

Lemma cleanOutput_sequences (pre : jsstring)
    (segments : list (jsstring * jsstring)) (tail : jsstring) :
  ESC ∉ pre →
  Forall (fun seg => (ESC ∉ fst seg) ∧ escape_sequence (snd seg)) segments →
  cleanOutput (pre ++ with_sequences segments tail)
  = cleanOutput (pre ++ without_sequences segments tail).
Proof.
  unfold with_sequences, without_sequences. intros Hpre Hsegs. revert pre Hpre.
  induction Hsegs as [|[a e] segments [Ha He] _ IH]; intros pre Hpre; [done|].
  cbn [fmap list_fmap concat fst snd] in *.
  rewrite <-!(assoc_L (++) a), !(assoc_L (++) pre a).
  rewrite <-(assoc_L (++) e).
  rewrite cleanOutput_escape; [|by apply not_elem_of_app|done].
  apply IH. by apply not_elem_of_app.
Qed.

(** C7, as the code has it.  The result of cleanOutput holds no carriage
    return and no run of three or more line feeds.  An output without ESC
    gives a result without ESC, and whenever the result holds no ESC,
    cleaning it again returns it unchanged.  In an output without ESC and
    carriage return, a run of three or more line feeds becomes two line
    feeds, one blank line.  An escape sequence of one of the three forms
    that stands after a text without ESC is removed, whatever follows it:
    the result is that of the output without the sequence.  So an output
    made of texts without ESC with one such sequence after each, and a last
    text without ESC, is cleaned like the texts alone: its result holds no
    ESC and is left unchanged by a second cleaning. *)
Theorem cleanOutput_sanitizes (output : jsstring) :
  (CR ∉ cleanOutput output)
  ∧ includes (cleanOutput output) triple_LF = false
  ∧ (ESC ∉ output → ESC ∉ cleanOutput output)
  ∧ (ESC ∉ cleanOutput output →
     cleanOutput (cleanOutput output) = cleanOutput output)
  ∧ (∀ (a b : jsstring) (k : nat),
       output = a ++ replicate k LF ++ b → (3 ≤ k)%nat →
       ESC ∉ output → CR ∉ output →
       last a ≠ Some LF → head b ≠ Some LF →
       cleanOutput output = cleanOutput a ++ [LF; LF] ++ cleanOutput b)
  ∧ (∀ (a e b : jsstring),
       output = a ++ e ++ b → ESC ∉ a → escape_sequence e →
       cleanOutput output = cleanOutput (a ++ b))
  ∧ (∀ (segments : list (jsstring * jsstring)) (tail : jsstring),
       output = with_sequences segments tail →
       Forall (fun seg => (ESC ∉ fst seg) ∧ escape_sequence (snd seg))
         segments →
       ESC ∉ tail →
       cleanOutput output = cleanOutput (without_sequences segments tail)
       ∧ (ESC ∉ cleanOutput output)
       ∧ cleanOutput (cleanOutput output) = cleanOutput output).
Proof.
  assert (ESC ∉ output → ESC ∉ cleanOutput output) as Hkeeps.
  { intros Hesc. unfold cleanOutput, remove.
    assert (∀ t : jsstring,
              ESC ∉ t → (ESC ∉ []) ∧ (ESC ∉ [LF]) ∧ (ESC ∉ [LF; LF]))
      as Hlit.
    { intros _ _. rewrite !list_elem_of_In. simpl. intuition discriminate. }
    destruct (Hlit _ Hesc) as (H0 & H1 & H2).
    repeat (apply replace_keeps_absent; [done|]). done. }
  assert (ESC ∉ cleanOutput output →
          cleanOutput (cleanOutput output) = cleanOutput output) as Hfixed.
  { intros Hesc. apply cleanOutput_fixed; [done|..].
    - apply cleanOutput_no_CR.
    - apply cleanOutput_collapsed. }
  split; [apply cleanOutput_no_CR|]. split; [apply cleanOutput_collapsed|].
  split; [done|]. split; [done|]. split; [|split].
  - intros a b k -> Hk Hesc Hcr Ha Hb.
    rewrite (cleanOutput_plain _ Hesc Hcr).
    rewrite !not_elem_of_app in Hesc, Hcr.
    destruct Hesc as (Ea & _ & Eb), Hcr as (Ca & _ & Cb).
    rewrite (cleanOutput_plain a), (cleanOutput_plain b) by done.
    rewrite (collapse_app (length a)) by done.
    by rewrite collapse_run.
  - intros a e b -> Ha He. by apply cleanOutput_escape.
  - intros segments tail Hout Hsegs Htail.
    assert (cleanOutput output
            = cleanOutput (without_sequences segments tail)) as Heq.
    { rewrite Hout.
      apply (cleanOutput_sequences [] segments tail); [|done].
      apply not_elem_of_nil. }
    assert (ESC ∉ cleanOutput output) as Hclean.
    { rewrite Heq. unfold cleanOutput, remove.
      assert (ESC ∉ without_sequences segments tail) as Hesc.
      { unfold without_sequences. apply not_elem_of_app. split; [|done].
        clear Hout Heq. induction Hsegs as [|[a e] segs [Ha _] _ IH];
          [apply not_elem_of_nil|].
        cbn [fmap list_fmap concat fst]. by apply not_elem_of_app. }
      assert ((ESC ∉ []) ∧ (ESC ∉ [LF]) ∧ (ESC ∉ [LF; LF]))
        as (H0 & H1 & H2).
      { rewrite !list_elem_of_In. simpl. intuition discriminate. }
      repeat (apply replace_keeps_absent; [done|]). done. }
    split; [done|]. split; [done|]. by apply Hfixed.
Qed.

Lemma cleanOutput_sanitizes_witness :
  cleanOutput output_coloured = lit "red" ++ [LF; LF] ++ lit "end"
  ∧ cleanOutput (cleanOutput output_coloured) = cleanOutput output_coloured
  ∧ cleanOutput (lit "red" ++ replicate 4 LF ++ lit "end")
    = cleanOutput (lit "red") ++ [LF; LF] ++ cleanOutput (lit "end")
  ∧ cleanOutput (lit "up" ++ ([ESC; 91] ++ lit "12" ++ lit "A") ++ lit "date")
    = cleanOutput (lit "update")
  ∧ (ESC ∉ cleanOutput
             (with_sequences
                [(lit "a", [ESC; 91] ++ lit "31" ++ [109]);
                 (lit "b", [ESC; 91; 63; 50; 53; 108])] (lit "c"))).
Proof.
  split; [reflexivity|]. split; [|split; [|split]].
  - apply (proj1 (proj2 (proj2 (proj2 (cleanOutput_sanitizes output_coloured))))).
    rewrite list_elem_of_In. vm_compute. intuition discriminate.
  - apply (proj1 (proj2 (proj2 (proj2 (proj2
             (cleanOutput_sanitizes
                (lit "red" ++ replicate 4 LF ++ lit "end"))))))
             (lit "red") (lit "end") 4%nat);
      [reflexivity|lia| | |discriminate|discriminate];
      rewrite list_elem_of_In; vm_compute; intuition discriminate.
  - apply (proj1 (proj2 (proj2 (proj2 (proj2 (proj2
             (cleanOutput_sanitizes
                (lit "up" ++ ([ESC; 91] ++ lit "12" ++ lit "A")
                 ++ lit "date")))))))
             (lit "up") ([ESC; 91] ++ lit "12" ++ lit "A") (lit "date"));
      [reflexivity|compute_done|].
    apply (cursor_movement (lit "12") 65); [done|by repeat constructor|done].
  - destruct (cleanOutput_sanitizes
                (with_sequences
                   [(lit "a", [ESC; 91] ++ lit "31" ++ [109]);
                    (lit "b", [ESC; 91; 63; 50; 53; 108])] (lit "c")))
      as (_ & _ & _ & _ & _ & _ & H).
    destruct (H [(lit "a", [ESC; 91] ++ lit "31" ++ [109]);
                 (lit "b", [ESC; 91; 63; 50; 53; 108])] (lit "c") eq_refl)
      as (_ & Hclean & _); [| |exact Hclean].
    + constructor; [split; [compute_done|]|constructor; [split|constructor]].
      * apply (colour_code (lit "31")); [done|by repeat constructor].
      * compute_done.
      * by apply (cursor_visibility 108).
    + compute_done.
Defined.

(** C7 as stated fails: the removal of the inner colour code of this output
    puts a colour code together, which the result still holds and which a
    second cleaning removes. *)
Lemma cleanOutput_not_idempotent :
  cleanOutput output_nested_escape = [ESC] ++ lit "[1m"
  ∧ cleanOutput (cleanOutput output_nested_escape) = []
  ∧ cleanOutput (cleanOutput output_nested_escape)
    ≠ cleanOutput output_nested_escape.
Proof. split; [reflexivity|]. split; [reflexivity|discriminate]. Qed.


(** * Further properties *)

(** ** The registry search *)

Lemma join_split (a b : jschar) (s : jsstring) :
  join [b] (split a s) = (fun c => if c =? a then b else c) <$> s.
Proof.
  induction s as [|c s IH]; [done|]. cbn [split fmap list_fmap].
  destruct (c =? a) eqn:E.
  - rewrite <-IH. pose proof (split_nonempty a s).
    by destruct (split a s).
  - rewrite <-IH. destruct (split a s) as [|h t]; [done|].
    by destruct t.
Qed.

(** X1. The query text sent to the registry is the fixed keyword followed
    by the query with every space turned into a comma: nothing else of the
    query changes, its length included. *)
Theorem searchText_commas (query : jsstring) :
  searchText query
  = lit "keywords:yeoman-generator,"
    ++ ((fun c => if c =? 32 then 44 else c) <$> query).
Proof. unfold searchText. by rewrite (join_split 32 44). Qed.

(** ** Start-up *)

Lemma scanArgs_skip (pre rest : list jsstring) (dir : option jsstring) :
  generatorDirFlag ∉ pre → scanArgs (pre ++ rest) dir = scanArgs rest dir.
Proof.
  induction pre as [|a pre IH]; [done|].
  intros [Ha Hpre]%not_elem_of_cons. cbn [app scanArgs]. unfold jseq.
  rewrite bool_decide_eq_false_2 by done.
  rewrite <-(IH Hpre). by destruct (pre ++ rest).
Qed.

Lemma scanArgs_flag (v : jsstring) (post : list jsstring)
    (dir : option jsstring) :
  scanArgs (generatorDirFlag :: v :: post) dir = scanArgs post (Some v).
Proof. cbn [scanArgs]. unfold jseq. by rewrite bool_decide_eq_true_2. Qed.

Lemma scanArgs_from (args : list jsstring) (dir : option jsstring) v :
  scanArgs args dir = Some v →
  dir = Some v ∨ ∃ pre post, args = pre ++ generatorDirFlag :: v :: post.
Proof.
  remember (length args) as n eqn:Hn. revert args dir Hn.
  induction (lt_wf n) as [n _ IH]. intros args dir -> H.
  destruct args as [|a rest]; [by left|]. cbn [scanArgs] in H.
  unfold jseq in H. case_bool_decide as Ha.
  - subst a. destruct rest as [|w rest']; [by left|].
    destruct (IH (length rest') ltac:(simpl; lia) rest' (Some w) eq_refl H)
      as [[= ->]|(pre & post & ->)].
    + right. by exists [], rest'.
    + right. by exists (generatorDirFlag :: w :: pre), post.
  - destruct (IH (length rest) ltac:(simpl; lia) rest dir eq_refl H)
      as [?|(pre & post & ->)]; [by left|].
    right. by exists (a :: pre), post.
Qed.

(** X2. On a command line with one [--generator-dir], the value after it
    becomes the persistent directory, whatever stands around the pair; a
    [--generator-dir] at the very end, with no value after it, is passed
    over and the directory stays [null]. *)
Theorem scanArgs_single (pre post : list jsstring) (v : jsstring) :
  generatorDirFlag ∉ pre → generatorDirFlag ∉ post →
  scanArgs (pre ++ generatorDirFlag :: v :: post) None = Some v
  ∧ scanArgs (pre ++ [generatorDirFlag]) None = None.
Proof.
  intros Hpre Hpost. rewrite !scanArgs_skip by done. split.
  - rewrite scanArgs_flag. rewrite <-(right_id_L [] (++) post).
    by rewrite scanArgs_skip.
  - cbn [scanArgs]. unfold jseq. by rewrite bool_decide_eq_true_2.
Qed.

Lemma scanArgs_single_witness :
  scanArgs [lit "--verbose"; lit "--generator-dir"; lit "/srv/gen"] None
  = Some (lit "/srv/gen")
  ∧ scanArgs [lit "--verbose"; lit "--generator-dir"] None = None.
Proof.
  apply (scanArgs_single [lit "--verbose"] [] (lit "/srv/gen"));
    rewrite list_elem_of_In; vm_compute; intuition discriminate.
Defined.

(** X3. After start-up the persistent directory counts as set only when it
    is the non-empty value of a [--generator-dir] of the command line and
    its creation has worked: a failed creation leaves [null]. *)
Theorem parseCommandLineArgs_set (mkdirSync : jsstring → bool)
    (argv : list jsstring) :
  is_set (parseCommandLineArgs mkdirSync argv) = true →
  ∃ dir pre post,
    parseCommandLineArgs mkdirSync argv = Some dir
    ∧ dir ≠ [] ∧ mkdirSync dir = true
    ∧ drop 2 argv = pre ++ generatorDirFlag :: dir :: post.
Proof.
  unfold parseCommandLineArgs.
  destruct (scanArgs (drop 2 argv) None) as [dir|] eqn:E; [|done].
  destruct (is_set (Some dir)) eqn:Hset; [|by rewrite Hset].
  destruct (mkdirSync dir) eqn:Hmk; [|done]. intros _.
  destruct (scanArgs_from _ _ _ E) as [?|(pre & post & Hargs)]; [done|].
  exists dir, pre, post. split; [done|]. split; [by destruct dir|done].
Qed.

Lemma parseCommandLineArgs_set_witness :
  parseCommandLineArgs (fun _ => true)
    [lit "node"; lit "index.js"; lit "--generator-dir"; lit "/srv/gen"]
  = Some (lit "/srv/gen")
  ∧ parseCommandLineArgs (fun _ => false)
      [lit "node"; lit "index.js"; lit "--generator-dir"; lit "/srv/gen"]
    = None.
Proof.
  split; [|reflexivity].
  destruct (parseCommandLineArgs_set (fun _ => true)
              [lit "node"; lit "index.js"; lit "--generator-dir";
               lit "/srv/gen"] eq_refl)
    as (dir & pre & post & H & _). reflexivity.
Defined.

(** ** The workspace *)

(** X4. The directory of a call is released exactly when it is a temporary
    one: with a persistent directory set nothing is passed to [fs.rm], and
    without one the temporary directory is.  The guard of [cleanup] itself
    is equality of path strings: it leaves out only the path that is, as a
    string, the persistent directory, and passes every other path on to
    [fs.rm], a parent or another spelling of the persistent directory
    included. *)
Theorem workspace_release (persistentGeneratorDir : option jsstring)
    (tempDir : jsstring) :
  release persistentGeneratorDir
    (getGeneratorDir persistentGeneratorDir tempDir)
  = (if is_set persistentGeneratorDir then [] else [tempDir])
  ∧ ∀ other,
      (is_set persistentGeneratorDir = true
       ∧ persistentGeneratorDir = Some other →
       cleanup persistentGeneratorDir other = [])
      ∧ (¬ (is_set persistentGeneratorDir = true
            ∧ persistentGeneratorDir = Some other) →
         cleanup persistentGeneratorDir other = [other]).
Proof.
  split.
  - unfold release, shouldCleanup, cleanup, getGeneratorDir.
    destruct persistentGeneratorDir as [[|c d]|]; simpl; try done.
    by rewrite bool_decide_eq_true_2.
  - intros other. unfold cleanup. split.
    + intros [-> ->]. simpl. by rewrite bool_decide_eq_true_2.
    + intros Hno. destruct (is_set persistentGeneratorDir) eqn:Hset;
        [|done]. simpl.
      case_bool_decide as Heq; [|done]. destruct Hno. by split.
Qed.

Lemma workspace_release_witness :
  release (Some (lit "/srv/gen"))
    (getGeneratorDir (Some (lit "/srv/gen")) (lit "/tmp/yeoman-a1")) = []
  ∧ release None (getGeneratorDir None (lit "/tmp/yeoman-a1"))
    = [lit "/tmp/yeoman-a1"]
  ∧ cleanup (Some (lit "/srv/gen")) (lit "/srv/gen") = []
  ∧ cleanup (Some (lit "/srv/gen")) (lit "/srv") = [lit "/srv"].
Proof.
  split; [exact (proj1 (workspace_release (Some (lit "/srv/gen"))
                          (lit "/tmp/yeoman-a1")))|].
  split; [exact (proj1 (workspace_release None (lit "/tmp/yeoman-a1")))|].
  split.
  - apply (proj2 (workspace_release (Some (lit "/srv/gen")) [])
             (lit "/srv/gen")). by split.
  - apply (proj2 (workspace_release (Some (lit "/srv/gen")) [])
             (lit "/srv")). intros [_ H]. vm_compute in H. discriminate H.
Defined.

(** ** The command line *)

Section CommandLine.
Context {Number : Type}.
Context (number_text : Number → jsstring).
Context (entries : gmap jsstring (JSValue Number) →
                   list (jsstring * JSValue Number)).

Lemma renderOption_entry (acc : list jsstring)
    (entry : jsstring * JSValue Number) :
  renderOption number_text acc entry
  = acc ++ option_list (renderEntry number_text entry).
Proof.
  destruct entry as [key [| |[|]| | |]]; simpl;
    by rewrite ?(right_id_L [] (++)).
Qed.

Lemma render_entries (es : list (jsstring * JSValue Number))
    (acc : list jsstring) :
  foldl (renderOption number_text) acc es
  = acc ++ omap (renderEntry number_text) es.
Proof.
  revert acc. induction es as [|e es IH]; intros acc.
  - simpl. by rewrite (right_id_L [] (++)).
  - cbn [foldl]. rewrite IH, renderOption_entry, <-(assoc_L (++)).
    f_equal. cbn [omap list_omap]. by destruct (renderEntry number_text e).
Qed.

Lemma filter_ext_in (P Q : jsstring → Prop) `{!∀ x, Decision (P x)}
    `{!∀ x, Decision (Q x)} (l : list jsstring) :
  (∀ x, x ∈ l → P x ↔ Q x) → filter P l = filter Q l.
Proof.
  induction l as [|x l IH]; intros Hext; [done|]. rewrite !filter_cons.
  rewrite IH by (intros y Hy; apply Hext; by right).
  destruct (decide (P x)) as [HP|HP], (decide (Q x)) as [HQ|HQ]; try done.
  - destruct HQ. apply Hext; [by left|done].
  - destruct HP. apply Hext; [by left|done].
Qed.

Lemma addFlags_filter (flags acc : list jsstring) :
  NoDup flags →
  foldl addFlag acc flags = acc ++ filter (fun f => f ∉ acc) flags.
Proof.
  intros Hnd. revert acc.
  induction Hnd as [|f flags Hf Hnd IH]; intros acc.
  - by rewrite filter_nil, (right_id_L [] (++)).
  - cbn [foldl]. rewrite IH. unfold addFlag, array_includes.
    rewrite filter_cons. case_bool_decide as Hin.
    + by rewrite decide_False by (by intros ?).
    + rewrite decide_True by done. rewrite <-(assoc_L (++)). f_equal.
      cbn [app]. f_equal. apply filter_ext_in.
      intros x Hx. rewrite not_elem_of_app, not_elem_of_cons.
      split; [by intros [? _]|]. intros Hacc. split; [done|].
      split; [|apply not_elem_of_nil]. by intros ->.
Qed.

Lemma nonInteractiveFlags_NoDup : NoDup nonInteractiveFlags.
Proof. compute_done. Qed.

(** X5. The command line of the child process is the runner, the
    generator and the positional arguments, then what the options render
    to (an option that is [false], [null] or [undefined] renders to
    nothing), then those of the nine fixed flags that are not there yet,
    in their order.  So each of the nine flags is on every command line,
    and none is added twice. *)
Theorem yoArgs_structure (cliYoPath generatorName : jsstring)
    (options : gmap jsstring (JSValue Number)) (args : list jsstring) :
  let given :=
    cliYoPath :: generatorName :: args
    ++ omap (renderEntry number_text) (entries options) in
  yoArgs number_text entries cliYoPath generatorName options args
  = given ++ filter (fun flag => flag ∉ given) nonInteractiveFlags
  ∧ (∀ flag, flag ∈ nonInteractiveFlags →
       flag ∈ yoArgs number_text entries cliYoPath generatorName options args)
  ∧ NoDup (filter (fun flag => flag ∉ given) nonInteractiveFlags).
Proof.
  cbv zeta. unfold yoArgs.
  rewrite render_entries, (addFlags_filter _ _ nonInteractiveFlags_NoDup).
  split; [done|]. split.
  - intros flag Hflag. apply elem_of_app.
    destruct (decide (flag ∈ cliYoPath :: generatorName :: args
                ++ omap (renderEntry number_text) (entries options)))
      as [Hin|Hout]; [by left|].
    right. by apply list_elem_of_filter.
  - apply NoDup_filter, nonInteractiveFlags_NoDup.
Qed.

Hypothesis entries_own : ∀ o, entries o ≡ₚ map_to_list o.

Lemma rendered_forced (req : @GenerateRequest Number) key :
  key ∈ forced_options →
  lit "--" ++ key
  ∈ omap (renderEntry number_text)
      (entries (run_options (yeoman_generate req))).
Proof.
  intros Hkey. apply list_elem_of_omap. exists (key, VBool true).
  split; [|done]. rewrite entries_own. apply elem_of_map_to_list.
  by apply mergedOptions_forced.
Qed.

(** X6. For a yeoman_generate request the options the handler sets render
    to seven of the nine fixed flags, so the run adds at most
    [--skip-prompts] and [--no-interactive] after the options. *)
Theorem yoArgs_of_request (req : @GenerateRequest Number)
    (cliYoPath : jsstring) :
  let call := yeoman_generate req in
  let given :=
    cliYoPath :: run_generatorName call :: run_args call
    ++ omap (renderEntry number_text) (entries (run_options call)) in
  yoArgs number_text entries cliYoPath (run_generatorName call)
    (run_options call) (run_args call)
  = given ++ filter (fun flag => flag ∉ given)
               [lit "--skip-prompts"; lit "--no-interactive"].
Proof.
  cbv zeta.
  destruct (yoArgs_structure cliYoPath
              (run_generatorName (yeoman_generate req))
              (run_options (yeoman_generate req))
              (run_args (yeoman_generate req))) as [-> _].
  f_equal.
  assert (∀ key, key ∈ forced_options →
            ¬ (lit "--" ++ key
               ∉ cliYoPath :: run_generatorName (yeoman_generate req)
                  :: run_args (yeoman_generate req)
                  ++ omap (renderEntry number_text)
                       (entries (run_options (yeoman_generate req)))))
    as Hforced.
  { intros key Hkey Hout. apply Hout.
    do 2 apply list_elem_of_further. apply elem_of_app. right.
    by apply rendered_forced. }
  unfold nonInteractiveFlags. cbn [fmap list_fmap].
  change (lit "--no-insight") with (lit "--" ++ lit "no-insight").
  change (lit "--no-color") with (lit "--" ++ lit "no-color").
  change (lit "--force-yes") with (lit "--" ++ lit "force-yes").
  change (lit "--yes") with (lit "--" ++ lit "yes").
  change (lit "--skip-install") with (lit "--" ++ lit "skip-install").
  change (lit "--skip-cache") with (lit "--" ++ lit "skip-cache").
  change (lit "--quiet") with (lit "--" ++ lit "quiet").
  rewrite !(filter_cons_False _ (lit "--" ++ _))
    by (apply Hforced, list_elem_of_In; vm_compute; tauto).
  rewrite (filter_cons _ (lit "--skip-prompts")).
  rewrite !(filter_cons_False _ (lit "--" ++ _))
    by (apply Hforced, list_elem_of_In; vm_compute; tauto).
  by rewrite (filter_cons _ (lit "--skip-prompts") [lit "--no-interactive"]).
Qed.
End CommandLine.

Lemma yoArgs_of_request_witness :
  ∃ given,
    yoArgs int_text map_to_list (lit "cli.js")
      (run_generatorName (yeoman_generate request_loud))
      (run_options (yeoman_generate request_loud))
      (run_args (yeoman_generate request_loud))
    = given ++ [lit "--skip-prompts"; lit "--no-interactive"].
Proof.
  eexists.
  rewrite (yoArgs_of_request int_text map_to_list
             (fun o => reflexivity (map_to_list o)) request_loud (lit "cli.js")).
  f_equal.
Defined.

(** ** The checks before the run *)

Lemma parseGeneratorHelp_returns (helpOutput : jsstring) :
  ∃ info, parseGeneratorHelp helpOutput = Returns info.
Proof.
  unfold parseGeneratorHelp.
  destruct (parseUsage_returns helpOutput (mkHelpInfo [] [])) as (r1 & -> & _).
  destruct (parseArguments_returns helpOutput r1) as (r2 & H2 & _).
  destruct (parseOptions_returns helpOutput r2) as (r3 & H3 & _).
  destruct (parsePrompts_returns helpOutput r3) as (r4 & H4 & _).
  exists r4. simpl. rewrite H2. simpl. rewrite H3. simpl. exact H4.
Qed.

Section Preflight.
Context {Number : Type}.
Context (number_is_falsy : Number → bool).
Context (toLowerCase : jsstring → jsstring).
Context (extractUsageFromHelp : jsstring → option jsstring).

Lemma missing_from_nil (providedArgs : list jsstring) (args : list Arg) k :
  mjoin (imap (fun index arg =>
    if arg_required arg && bool_decide (length providedArgs ≤ k + index)%nat
    then [mkMissingArg (arg_name arg) (arg_description arg)] else []) args)
  = []
  ↔ ∀ i a, args !! i = Some a → arg_required a = true →
           (k + i < length providedArgs)%nat.
Proof.
  revert k. induction args as [|a args IH]; intros k; [done|].
  rewrite imap_cons. cbn [mjoin list_join].
  replace (k + 0)%nat with k by lia.
  assert (imap ((fun index arg =>
            if arg_required arg
               && bool_decide (length providedArgs ≤ k + index)%nat
            then [mkMissingArg (arg_name arg) (arg_description arg)]
            else []) ∘ S) args
          = imap (fun index arg =>
            if arg_required arg
               && bool_decide (length providedArgs ≤ S k + index)%nat
            then [mkMissingArg (arg_name arg) (arg_description arg)]
            else []) args) as ->.
  { apply imap_ext. intros j x _. simpl.
    by replace (k + S j)%nat with (S (k + j)) by lia. }
  split.
  - intros [H1 H2]%app_nil i b Hi Hb. destruct i as [|i].
    + injection Hi as <-. rewrite Hb in H1. simpl in H1.
      case_bool_decide; [done|lia].
    + apply (proj1 (IH (S k)) H2) in Hi; [lia|done].
  - intros H. apply app_nil. split.
    + destruct (arg_required a) eqn:Ha; [|done]. simpl.
      rewrite bool_decide_eq_false_2; [done|].
      specialize (H 0%nat a eq_refl Ha). lia.
    + apply IH. intros i b Hi Hb. specialize (H (S i) b Hi Hb). lia.
Qed.

Lemma missing_args_nil (providedArgs : list jsstring) (args : list Arg) :
  missing_args providedArgs args = []
  ↔ ∀ i a, args !! i = Some a → arg_required a = true →
           (i < length providedArgs)%nat.
Proof. apply (missing_from_nil providedArgs args 0). Qed.

Lemma missing_options_nil (providedOptions : gmap jsstring (JSValue Number))
    (options : list OptionInfo) :
  missing_options number_is_falsy toLowerCase providedOptions options = []
  ↔ ∀ o, o ∈ options → classified_required toLowerCase o = true →
         provided number_is_falsy providedOptions (opt_name o) = true.
Proof.
  unfold missing_options.
  induction options as [|o options IH]; simpl.
  - split; [|done]. by intros _ o ?%elem_of_nil.
  - destruct (classified_required toLowerCase o) eqn:Hc;
      destruct (provided number_is_falsy providedOptions (opt_name o)) eqn:Hp;
      simpl; rewrite ?IH.
    + split; [|by intros H x Hx; apply H; right].
      by intros H x [->|Hx]%elem_of_cons; [|apply H].
    + split; [done|]. intros H. specialize (H o ltac:(by left) Hc).
      congruence.
    + split; [|by intros H x Hx; apply H; right].
      intros H x [->|Hx]%elem_of_cons; [congruence|by apply H].
    + split; [|by intros H x Hx; apply H; right].
      intros H x [->|Hx]%elem_of_cons; [congruence|by apply H].
Qed.

Lemma requiredArgumentsCheck_covered (info : HelpInfo)
    (generatorName : jsstring) (args : list jsstring) :
  missing_args args (help_args info) = [] →
  requiredArgumentsCheck (Some info) generatorName args = None.
Proof.
  intros H. unfold requiredArgumentsCheck.
  destruct (existsb arg_required (help_args info)) eqn:E; [|done].
  case_bool_decide as Hlen; [|done]. exfalso.
  apply existsb_exists in E as (a & Ha & Hreq).
  apply list_elem_of_In, list_elem_of_lookup in Ha as [i Hi].
  pose proof (proj1 (missing_args_nil _ _) H i a Hi Hreq). lia.
Qed.

(** What the checks give on a help text, by what is missing. *)
Lemma preflight_spec (helpOutput generatorName : jsstring)
    (args : list jsstring) (options : gmap jsstring (JSValue Number)) :
  ∃ info, parseGeneratorHelp helpOutput = Returns info
    ∧ preflight number_is_falsy toLowerCase extractUsageFromHelp
        (Some helpOutput) generatorName args options
      = Returns
          match missing_args args (help_args info),
                missing_options number_is_falsy toLowerCase options
                  (help_options info) with
          | m :: ms, _ =>
              Some (MissingRequiredArguments (m :: ms)
                      (extractUsageFromHelp helpOutput)
                      (argumentSuggestion <$> m :: ms))
          | [], o :: os =>
              Some (MissingRequiredOptions (o :: os)
                      (extractUsageFromHelp helpOutput)
                      (optionSuggestion <$> o :: os)
                      (lit "yo " ++ generatorName ++ lit " "
                       ++ match args with
                          | _ :: _ => join (lit " ") args
                          | [] => match help_args info with
                                  | _ :: _ => lit "<appname>"
                                  | [] => []
                                  end
                          end
                       ++ lit " "
                       ++ join (lit " ")
                            ((fun opt => optionExample (mo_name opt)
                                           (mo_enumValues opt))
                             <$> o :: os)))
          | [], [] => None
          end.
Proof.
  destruct (parseGeneratorHelp_returns helpOutput) as (info & Hparse).
  exists info. split; [done|]. unfold preflight.
  rewrite Hparse, checkRequiredArguments_spec. cbn [missingRequired missingOptions].
  fold (help_args info). fold (help_options info).
  destruct (missing_args args (help_args info)) as [|m ms] eqn:Hargs; [|done].
  destruct (missing_options _ _ _ _) as [|o os]; [|done].
  by rewrite requiredArgumentsCheck_covered.
Qed.
End Preflight.

Section PreflightProperties.
Context {Number : Type}.
Context (number_is_falsy : Number → bool).
Context (toLowerCase : jsstring → jsstring).
Context (extractUsageFromHelp : jsstring → option jsstring).

(** X7. The checks before the run always return, and never with the
    failure ['Required arguments missing']: when the help is at hand, a
    required argument that no positional argument covers has already given
    ['Missing required arguments'], and without help nothing is checked. *)
Theorem preflight_second_check_unreachable (help : option jsstring)
    (generatorName : jsstring) (args : list jsstring)
    (options : gmap jsstring (JSValue Number)) :
  ∃ result,
    preflight number_is_falsy toLowerCase extractUsageFromHelp help
      generatorName args options = Returns result
    ∧ ∀ missing usage suggestions,
        result ≠ Some (RequiredArgumentsMissing missing usage suggestions).
Proof.
  destruct help as [helpOutput|]; [|by eexists].
  destruct (preflight_spec number_is_falsy toLowerCase extractUsageFromHelp
              helpOutput generatorName args options) as (info & _ & ->).
  eexists. split; [done|]. intros missing usage suggestions.
  destruct (missing_args _ _); [|done]. by destruct (missing_options _ _ _ _).
Qed.

(** X8. With a help text at hand the run goes on exactly when every
    required argument of the help has a positional argument at its index
    and every option classified required has a truthy value in the options,
    under its name or its camel-cased name. *)
Theorem preflight_go_ahead (helpOutput generatorName : jsstring)
    (args : list jsstring) (options : gmap jsstring (JSValue Number)) :
  ∃ info, parseGeneratorHelp helpOutput = Returns info
    ∧ (preflight number_is_falsy toLowerCase extractUsageFromHelp
         (Some helpOutput) generatorName args options = Returns None
       ↔ (∀ i a, help_args info !! i = Some a → arg_required a = true →
                 (i < length args)%nat)
         ∧ (∀ o, o ∈ help_options info →
                 classified_required toLowerCase o = true →
                 provided number_is_falsy options (opt_name o) = true)).
Proof.
  destruct (preflight_spec number_is_falsy toLowerCase extractUsageFromHelp
              helpOutput generatorName args options) as (info & Hparse & ->).
  exists info. split; [done|].
  rewrite <-missing_args_nil, <-missing_options_nil.
  destruct (missing_args _ _); [|by split; [|intros [? _]]].
  destruct (missing_options _ _ _ _); [done|by split; [|intros [_ ?]]].
Qed.

Lemma missing_args_elem (providedArgs : list jsstring) (args : list Arg) i a :
  args !! i = Some a → arg_required a = true →
  (length providedArgs ≤ i)%nat →
  mkMissingArg (arg_name a) (arg_description a)
  ∈ missing_args providedArgs args.
Proof.
  intros Hi Ha Hlen. unfold missing_args. apply list_elem_of_join.
  exists [mkMissingArg (arg_name a) (arg_description a)].
  split; [by left|]. apply elem_of_lookup_imap. exists i, a.
  split; [|done]. by rewrite Ha, bool_decide_eq_true_2.
Qed.

(** X9. A required argument of the help that no positional argument
    covers stops the run with ['Missing required arguments'], whatever the
    options are: the argument is among those reported, and there is one
    suggestion for each reported argument. *)
Theorem preflight_arguments_first (helpOutput generatorName : jsstring)
    (args : list jsstring) (options : gmap jsstring (JSValue Number))
    (info : HelpInfo) (i : nat) (a : Arg) :
  parseGeneratorHelp helpOutput = Returns info →
  help_args info !! i = Some a → arg_required a = true →
  (length args ≤ i)%nat →
  ∃ missing,
    preflight number_is_falsy toLowerCase extractUsageFromHelp
      (Some helpOutput) generatorName args options
    = Returns (Some (MissingRequiredArguments missing
                       (extractUsageFromHelp helpOutput)
                       (argumentSuggestion <$> missing)))
    ∧ mkMissingArg (arg_name a) (arg_description a) ∈ missing.
Proof.
  intros Hparse Hi Ha Hlen.
  destruct (preflight_spec number_is_falsy toLowerCase extractUsageFromHelp
              helpOutput generatorName args options) as (info' & Hparse' & ->).
  rewrite Hparse in Hparse'. injection Hparse' as <-.
  pose proof (missing_args_elem args (help_args info) i a Hi Ha Hlen) as Hin.
  destruct (missing_args args (help_args info)) as [|m ms];
    [by apply elem_of_nil in Hin|].
  by exists (m :: ms).
Qed.
End PreflightProperties.

Lemma preflight_arguments_first_witness :
  ∃ missing,
    preflight int_is_falsy ascii_lower (fun _ => None) (Some help_scenario)
      (lit "webapp") [] ({[lit "style" := VString (lit "sass")]})
    = Returns (Some (MissingRequiredArguments missing None
                       (argumentSuggestion <$> missing)))
    ∧ mkMissingArg (lit "appName") (lit "Your app name") ∈ missing.
Proof.
  destruct (parseGeneratorHelp help_scenario) as [info| |] eqn:E;
    vm_compute in E; try discriminate E.
  injection E as E.
  eapply (preflight_arguments_first int_is_falsy ascii_lower (fun _ => None)
            help_scenario (lit "webapp") []
            ({[lit "style" := VString (lit "sass")]}) info 0%nat
            (mkArg (lit "appName") (lit "String") true (lit "Your app name"))).
  - vm_compute. by rewrite E.
  - by rewrite <-E.
  - reflexivity.
  - simpl. lia.
Defined.

(** ** The run *)

Lemma release_getGeneratorDir (persistentGeneratorDir : option jsstring)
    (tempDir : jsstring) :
  release persistentGeneratorDir
    (getGeneratorDir persistentGeneratorDir tempDir)
  = if is_set persistentGeneratorDir then [] else [tempDir].
Proof.
  unfold release, shouldCleanup, cleanup, getGeneratorDir.
  destruct persistentGeneratorDir as [[|c d]|]; simpl; try done.
  by rewrite bool_decide_eq_true_2.
Qed.

Section RunProperties.
Context {Number : Type}.
Context (number_is_falsy : Number → bool) (number_text : Number → jsstring).
Context (toLowerCase : jsstring → jsstring).
Context (entries : gmap jsstring (JSValue Number) →
                   list (jsstring * JSValue Number)).
Context (extractUsageFromHelp : jsstring → option jsstring).

Lemma preflight_returns help generatorName args options :
  ∃ result, preflight number_is_falsy toLowerCase extractUsageFromHelp help generatorName args options = Returns result.
Proof.
  destruct help as [helpOutput|]; [|by eexists].
  destruct (preflight_spec number_is_falsy toLowerCase extractUsageFromHelp
              helpOutput generatorName args options) as (info & _ & ->).
  by eexists.
Qed.

(** The [try] block by cases. *)
Lemma runBody_cases (env : RunEnv) generatorName options args :
  let needsInstall :=
    negb (env_generatorExists env) || negb (env_yoExists env) in
  let installed := if needsInstall then [NpmInstall] else [] in
  (∃ message, env_setup env = Some message
     ∧ runBody number_is_falsy number_text toLowerCase entries
         extractUsageFromHelp env generatorName options args
       = Returns ([], UnexpectedError (lit "Unexpected error: " ++ message)))
  ∨ (∃ message, env_setup env = None ∧ needsInstall = true
       ∧ env_install env = Some message
       ∧ runBody number_is_falsy number_text toLowerCase entries
         extractUsageFromHelp env generatorName options args
         = Returns ([NpmInstall],
             InstallFailed
               (lit "Failed to install generator-" ++ generatorName
                ++ lit ": " ++ message)
               [lit "Make sure generator-" ++ generatorName
                ++ lit " exists on npm"]))
  ∨ (∃ failure, env_setup env = None
       ∧ (needsInstall = true → env_install env = None)
       ∧ preflight number_is_falsy toLowerCase extractUsageFromHelp
           (env_help env) generatorName args options
         = Returns (Some failure)
       ∧ runBody number_is_falsy number_text toLowerCase entries
         extractUsageFromHelp env generatorName options args
         = Returns (installed ++ [HelpCommand], PreflightFailed failure))
  ∨ (env_setup env = None
       ∧ (needsInstall = true → env_install env = None)
       ∧ preflight number_is_falsy toLowerCase extractUsageFromHelp
           (env_help env) generatorName args options = Returns None
       ∧ runBody number_is_falsy number_text toLowerCase entries
         extractUsageFromHelp env generatorName options args
         = Returns
             (installed
              ++ [HelpCommand;
                  Spawn (yoArgs number_text entries (env_cliYoPath env)
                           generatorName options args)],
              match env_spawn env with
              | inl message =>
                  RunFailed (lit "Failed to run generator: " ++ message)
              | inr (code, output) =>
                  Finished (classify number_is_falsy generatorName
                              (on_close code output) (env_yoRc env))
              end)).
Proof.
  intros needsInstall installed. unfold runBody.
  destruct (env_setup env) as [message|]; [left; by eexists|]. right.
  fold needsInstall. fold installed.
  destruct (preflight_returns (env_help env) generatorName args options)
    as [result Hchecks].
  destruct needsInstall eqn:Hneeds.
  - destruct (env_install env) as [message|]; [left; by eexists|]. right.
    rewrite Hchecks. simpl.
    destruct result as [failure|]; [left; by eexists|right; done].
  - right. rewrite Hchecks. simpl.
    destruct result as [failure|]; [left|right].
    + exists failure. by destruct (env_install env).
    + by destruct (env_install env).
Qed.
Lemma run_inv (env : RunEnv) generatorName options args actions result :
  runYeomanGenerator number_is_falsy number_text toLowerCase entries
    extractUsageFromHelp env generatorName options args
  = Returns (actions, result) →
  ∃ acts removed,
    runBody number_is_falsy number_text toLowerCase entries
      extractUsageFromHelp env generatorName options args
    = Returns (acts, result)
    ∧ actions = acts ++ (Remove <$> removed)
    ∧ (is_set (env_persistent env) = true → removed = [])
    ∧ (is_set (env_persistent env) = false →
       ∃ tempDir, env_tempDir env = Some tempDir ∧ removed = [tempDir]).
Proof.
  unfold runYeomanGenerator. intros H.
  destruct (is_set (env_persistent env)) eqn:Hset.
  - simpl in H.
    destruct (runBody _ _ _ _ _ _ _ _ _) as [[acts out]| |]; [|done|done].
    simpl in H. injection H as <- <-.
    rewrite release_getGeneratorDir, Hset.
    exists acts, []. by split_and!.
  - destruct (env_tempDir env) as [tempDir|]; [|done]. simpl in H.
    destruct (runBody _ _ _ _ _ _ _ _ _) as [[acts out]| |]; [|done|done].
    simpl in H. injection H as <- <-.
    rewrite release_getGeneratorDir, Hset.
    exists acts, [tempDir]. split_and!; try done. by exists tempDir.
Qed.

Lemma runBody_no_remove (env : RunEnv) generatorName options args acts
    result dir :
  runBody number_is_falsy number_text toLowerCase entries
    extractUsageFromHelp env generatorName options args
  = Returns (acts, result) →
  Remove dir ∉ acts.
Proof.
  intros H.
  destruct (runBody_cases env generatorName options args)
    as [(m & _ & E)|[(m & _ & _ & _ & E)|[(f & _ & _ & _ & E)|(_ & _ & _ & E)]]];
    rewrite E in H; injection H as <- <-;
    destruct (negb (env_generatorExists env) || negb (env_yoExists env));
    simpl; rewrite ?elem_of_cons, ?elem_of_nil; intuition discriminate.
Qed.

(** X10. When the workspace can be taken and the child processes end, the
    call returns, whatever the set-up, the installation, the help command
    and the generator give; the only directory it ever removes is the
    temporary one, as its last action, and with a persistent directory set
    it removes nothing. *)
Theorem run_releases_workspace (env : RunEnv) (generatorName : jsstring)
    (options : gmap jsstring (JSValue Number)) (args : list jsstring)
    (tempDir : jsstring) :
  env_tempDir env = Some tempDir →
  ∃ before result,
    runYeomanGenerator number_is_falsy number_text toLowerCase entries
      extractUsageFromHelp env generatorName options args
    = Returns (before ++ (if is_set (env_persistent env) then []
                          else [Remove tempDir]), result)
    ∧ ∀ dir, Remove dir ∉ before.
Proof.
  intros Htemp. unfold runYeomanGenerator. rewrite Htemp.
  assert (∃ acts result,
            runBody number_is_falsy number_text toLowerCase entries
              extractUsageFromHelp env generatorName options args
            = Returns (acts, result)) as (acts & result & Hbody).
  { destruct (runBody_cases env generatorName options args)
      as [(m & _ & E)|[(m & _ & _ & _ & E)|[(f & _ & _ & _ & E)|(_ & _ & _ & E)]]];
      rewrite E; by do 2 eexists. }
  exists acts, result. split.
  - destruct (is_set (env_persistent env)) eqn:Hset; simpl;
      rewrite Hbody; simpl; by rewrite release_getGeneratorDir, Hset.
  - intros dir. by eapply runBody_no_remove.
Qed.

(** X11. The generator is started only when the set-up went through, the
    installation did not fail, and the checks before the run passed; its
    command line is then the one yoArgs builds from the call, and it is
    started once. *)
Theorem run_spawn_guarded (env : RunEnv) (generatorName : jsstring)
    (options : gmap jsstring (JSValue Number)) (args : list jsstring)
    (actions : list Action) (result : RunOutcome) (argv : list jsstring) :
  runYeomanGenerator number_is_falsy number_text toLowerCase entries
    extractUsageFromHelp env generatorName options args
  = Returns (actions, result) →
  Spawn argv ∈ actions →
  argv = yoArgs number_text entries (env_cliYoPath env) generatorName
           options args
  ∧ env_setup env = None
  ∧ (env_generatorExists env && env_yoExists env = true
     ∨ env_install env = None)
  ∧ preflight number_is_falsy toLowerCase extractUsageFromHelp
      (env_help env) generatorName args options = Returns None
  ∧ length (List.filter (fun a => match a with Spawn _ => true | _ => false end)
              actions) = 1%nat.
Proof.
  intros (acts & removed & Hbody & -> & _)%run_inv Hin.
  assert (∀ l : list jsstring, Spawn argv ∉ Remove <$> l) as Hrem.
  { intros l (d & E & _)%list_elem_of_fmap. discriminate E. }
  assert (∀ l : list jsstring, List.filter
                 (fun a => match a with Spawn _ => true | _ => false end)
                 (Remove <$> l) = []) as Hfil.
  { induction l as [|d l IH]; [done|]. simpl. exact IH. }
  apply elem_of_app in Hin as [Hin|Hin]; [|by apply Hrem in Hin].
  rewrite List.filter_app, Hfil, (right_id_L [] (++)).
  destruct (runBody_cases env generatorName options args)
    as [(m & _ & E)|[(m & _ & _ & _ & E)|[(f & _ & _ & _ & E)
       |(Hsetup & Hinstall & Hchecks & E)]]];
    rewrite E in Hbody; injection Hbody as <- <-.
  - by apply elem_of_nil in Hin.
  - apply elem_of_cons in Hin as [Hin|Hin%elem_of_nil]; done.
  - exfalso.
    destruct (negb (env_generatorExists env) || negb (env_yoExists env));
      simpl in Hin; rewrite ?elem_of_cons, ?elem_of_nil in Hin;
      intuition discriminate.
  - assert (argv = yoArgs number_text entries (env_cliYoPath env)
                     generatorName options args) as ->.
    { destruct (negb (env_generatorExists env) || negb (env_yoExists env));
        simpl in Hin; rewrite ?elem_of_cons, ?elem_of_nil in Hin;
        intuition (try discriminate); congruence. }
    split_and!; try done.
    + destruct (env_generatorExists env), (env_yoExists env); simpl in *;
        auto.
    + by destruct (env_generatorExists env), (env_yoExists env).
Qed.

(** X12. A result with [success: true] stands for a child process that
    closed with exit code 0 and whose output has none of the three markers:
    not the not-found text, no prompt, not the version text.  The result
    then carries the cleaned output and [generatorRan: true]. *)
Theorem run_success_clean_exit (env : RunEnv) (generatorName : jsstring)
    (options : gmap jsstring (JSValue Number)) (args : list jsstring)
    (actions : list Action) (result : RunResult) :
  runYeomanGenerator number_is_falsy number_text toLowerCase entries
    extractUsageFromHelp env generatorName options args
  = Returns (actions, Finished result) →
  r_success result = true →
  ∃ output,
    env_spawn env = inr (Some 0%Z, output)
    ∧ includes output (lit "Did not find a suitable generator") = false
    ∧ hasPrompts output = false
    ∧ includes output (lit "Invalid version format") = false
    ∧ r_output result = Some (cleanOutput output)
    ∧ r_generatorRan result = Some true
    ∧ r_error result = None.
Proof.
  intros (acts & removed & Hbody & _)%run_inv Hok.
  destruct (runBody_cases env generatorName options args)
    as [(m & _ & E)|[(m & _ & _ & _ & E)|[(f & _ & _ & _ & E)
       |(Hsetup & Hinstall & Hchecks & E)]]];
    rewrite E in Hbody; try discriminate Hbody.
  destruct (env_spawn env) as [message|[code output]];
    [discriminate Hbody|].
  injection Hbody as _ <-. exists output.
  unfold classify, on_close in Hok |- *. simpl in Hok |- *.
  destruct (includes output (lit "Did not find a suitable generator"));
    [discriminate Hok|].
  destruct (hasPrompts output); [discriminate Hok|].
  destruct (includes output (lit "Invalid version format"));
    [discriminate Hok|].
  case_bool_decide as Hcode; [|discriminate Hok]. by subst code.
Qed.

(** X13. The package manager is called exactly when the set-up went
    through and the generator package or the runner is not in the
    workspace: a workspace that holds both is used as it is. *)
Theorem run_installs_when_missing (env : RunEnv) (generatorName : jsstring)
    (options : gmap jsstring (JSValue Number)) (args : list jsstring)
    (actions : list Action) (result : RunOutcome) :
  runYeomanGenerator number_is_falsy number_text toLowerCase entries
    extractUsageFromHelp env generatorName options args
  = Returns (actions, result) →
  NpmInstall ∈ actions
  ↔ env_setup env = None
    ∧ (env_generatorExists env = false ∨ env_yoExists env = false).
Proof.
  intros (acts & removed & Hbody & -> & _)%run_inv.
  assert (∀ l : list jsstring, NpmInstall ∉ Remove <$> l) as Hrem.
  { intros l (d & E & _)%list_elem_of_fmap. discriminate E. }
  rewrite elem_of_app.
  destruct (runBody_cases env generatorName options args)
    as [(m & Hsetup & E)|[(m & Hsetup & Hneeds & _ & E)
       |[(f & Hsetup & _ & _ & E)|(Hsetup & _ & _ & E)]]];
    rewrite E in Hbody; injection Hbody as <- <-;
    destruct (env_generatorExists env) eqn:Hg, (env_yoExists env) eqn:Hy;
    simpl in *; rewrite ?elem_of_cons, ?elem_of_nil;
    specialize (Hrem removed);
    intuition (try discriminate; try congruence).
Qed.
End RunProperties.

Lemma run_releases_workspace_witness :
  ∃ before result,
    runYeomanGenerator int_is_falsy int_text ascii_lower map_to_list
      (fun _ => None) env_first_run (lit "webapp") options_sass [lit "app"]
    = Returns (before ++ [Remove (lit "/tmp/yeoman-a1")], result)
    ∧ ∀ dir, Remove dir ∉ before.
Proof.
  exact (run_releases_workspace int_is_falsy int_text ascii_lower map_to_list
           (fun _ => None) env_first_run (lit "webapp") options_sass
           [lit "app"] (lit "/tmp/yeoman-a1") eq_refl).
Defined.

Lemma run_first_run :
  runYeomanGenerator int_is_falsy int_text ascii_lower map_to_list
    (fun _ => None) env_first_run (lit "webapp") options_sass [lit "app"]
  = Returns
      ([NpmInstall; HelpCommand;
        Spawn (yoArgs int_text map_to_list (env_cliYoPath env_first_run)
                 (lit "webapp") options_sass [lit "app"]);
        Remove (lit "/tmp/yeoman-a1")],
       Finished (classify int_is_falsy (lit "webapp")
                   (on_close (Some 0%Z) (lit "create package.json" ++ LFs))
                   YoRcMissing)).
Proof. vm_compute. reflexivity. Qed.


Lemma run_spawn_guarded_witness :
  env_setup env_first_run = None
  ∧ preflight int_is_falsy ascii_lower (fun _ => None)
      (env_help env_first_run) (lit "webapp") [lit "app"] options_sass
    = Returns None.
Proof.
  destruct (run_spawn_guarded int_is_falsy int_text ascii_lower map_to_list
              (fun _ => None) env_first_run (lit "webapp") options_sass
              [lit "app"] _ _
              (yoArgs int_text map_to_list (env_cliYoPath env_first_run)
                 (lit "webapp") options_sass [lit "app"]) run_first_run)
    as (_ & Hsetup & _ & Hchecks & _).
  - do 2 apply list_elem_of_further. apply list_elem_of_here.
  - by split.
Defined.

Lemma run_success_clean_exit_witness :
  ∃ output,
    env_spawn env_first_run = inr (Some 0%Z, output)
    ∧ includes output (lit "Did not find a suitable generator") = false
    ∧ hasPrompts output = false
    ∧ includes output (lit "Invalid version format") = false.
Proof.
  destruct (run_success_clean_exit int_is_falsy int_text ascii_lower
              map_to_list (fun _ => None) env_first_run (lit "webapp")
              options_sass [lit "app"] _ _ run_first_run)
    as (output & Hspawn & H1 & H2 & H3 & _); [by vm_compute|].
  by exists output.
Defined.

Lemma run_installs_when_missing_witness :
  env_setup env_first_run = None
  ∧ (env_generatorExists env_first_run = false
     ∨ env_yoExists env_first_run = false).
Proof.
  apply (run_installs_when_missing int_is_falsy int_text ascii_lower
           map_to_list (fun _ => None) env_first_run (lit "webapp")
           options_sass [lit "app"] _ _ run_first_run).
  apply list_elem_of_here.
Defined.

(** ** The description of a generator *)

Section Description.
Context {Number : Type}.
Context (number_is_falsy : Number → bool).
Context (toLowerCase : jsstring → jsstring).
Context (extractUsageFromHelp : jsstring → option jsstring).

Lemma formatOption_spec (o : OptionInfo) :
  formatOption toLowerCase o
  = Returns (mkFormattedOption (opt_name o) (opt_flag o) (opt_description o)
               (opt_default o) (classified_required toLowerCase o)
               (enum_values (opt_description o))).
Proof.
  unfold formatOption, classified_required, enum_values.
  destruct (isOptionRequired_returns toLowerCase o) as [b ->].
  by rewrite extractEnumValues_first_group.
Qed.

Lemma formatOptions_spec (opts : list OptionInfo) :
  mapM (formatOption toLowerCase) opts
  = Returns ((fun o => mkFormattedOption (opt_name o) (opt_flag o)
                         (opt_description o) (opt_default o)
                         (classified_required toLowerCase o)
                         (enum_values (opt_description o))) <$> opts).
Proof.
  induction opts as [|o opts IH]; [done|].
  cbn [mapM]. rewrite formatOption_spec. simpl. by rewrite IH.
Qed.

Lemma describeGenerator_spec (generatorName helpOutput : jsstring) :
  ∃ info, parseGeneratorHelp helpOutput = Returns info
    ∧ ∃ description,
        describeGenerator toLowerCase extractUsageFromHelp generatorName
          helpOutput = Returns description
        ∧ go_usage description = extractUsageFromHelp helpOutput
        ∧ go_args description = help_args info
        ∧ go_options description
          = (fun o => mkFormattedOption (opt_name o) (opt_flag o)
                        (opt_description o) (opt_default o)
                        (classified_required toLowerCase o)
                        (enum_values (opt_description o)))
            <$> help_options info.
Proof.
  destruct (parseGeneratorHelp_returns helpOutput) as [info Hparse].
  exists info. split; [done|]. unfold describeGenerator.
  rewrite Hparse. simpl. rewrite formatOptions_spec. simpl.
  by eexists.
Qed.

(** X14. The description of a generator and the checks before a run
    agree: for a help text the description is always produced, and a call
    passes the checks exactly when it gives a positional argument for every
    argument the description flags required and a truthy value, under the
    name or the camel-cased name, for every option the description lists
    with [required: true]. *)
Theorem description_agrees_with_checks (generatorName helpOutput : jsstring) :
  ∃ description,
    describeGenerator toLowerCase extractUsageFromHelp generatorName
      helpOutput = Returns description
    ∧ ∀ (args : list jsstring) (options : gmap jsstring (JSValue Number)),
        preflight number_is_falsy toLowerCase extractUsageFromHelp
          (Some helpOutput) generatorName args options = Returns None
        ↔ (∀ i a, go_args description !! i = Some a →
                  arg_required a = true → (i < length args)%nat)
          ∧ (∀ o, o ∈ go_options description → fo_required o = true →
                  provided number_is_falsy options (fo_name o) = true).
Proof.
  destruct (describeGenerator_spec generatorName helpOutput)
    as (info & Hparse & description & Hdesc & _ & Hargs & Hopts).
  exists description. split; [done|]. intros args options.
  destruct (preflight_spec number_is_falsy toLowerCase extractUsageFromHelp
              helpOutput generatorName args options) as (info' & Hparse' & ->).
  rewrite Hparse in Hparse'. injection Hparse' as <-.
  rewrite Hargs, Hopts.
  rewrite <-missing_args_nil.
  assert ((∀ o, o ∈ (fun o => mkFormattedOption (opt_name o) (opt_flag o)
                        (opt_description o) (opt_default o)
                        (classified_required toLowerCase o)
                        (enum_values (opt_description o)))
                     <$> help_options info →
                fo_required o = true →
                provided number_is_falsy options (fo_name o) = true)
          ↔ missing_options number_is_falsy toLowerCase options
              (help_options info) = []) as ->.
  { rewrite missing_options_nil. split.
    - intros H o Ho Hreq.
      apply (H (mkFormattedOption (opt_name o) (opt_flag o)
                  (opt_description o) (opt_default o)
                  (classified_required toLowerCase o)
                  (enum_values (opt_description o)))); [|done].
      apply list_elem_of_fmap. by exists o.
    - intros H fo (o & -> & Ho)%list_elem_of_fmap Hreq. by apply H. }
  destruct (missing_args _ _); [|by split; [|intros [? _]]].
  destruct (missing_options _ _ _ _); [done|by split; [|intros [_ ?]]].
Qed.

(** X15. An option reported missing by the checks is one the description
    lists with [required: true], under the same name and with the same
    enumerated values. *)
Theorem missing_option_listed_required (generatorName helpOutput : jsstring)
    (args : list jsstring) (options : gmap jsstring (JSValue Number))
    (missing : list MissingOption) (usage : option jsstring)
    (suggestions : list jsstring) (commandExample : jsstring)
    (m : MissingOption) :
  preflight number_is_falsy toLowerCase extractUsageFromHelp
    (Some helpOutput) generatorName args options
  = Returns (Some (MissingRequiredOptions missing usage suggestions
                     commandExample)) →
  m ∈ missing →
  ∃ description o,
    describeGenerator toLowerCase extractUsageFromHelp generatorName
      helpOutput = Returns description
    ∧ o ∈ go_options description
    ∧ fo_name o = mo_name m ∧ fo_required o = true
    ∧ fo_enumValues o = mo_enumValues m
    ∧ provided number_is_falsy options (mo_name m) = false.
Proof.
  intros Hchecks Hm.
  destruct (describeGenerator_spec generatorName helpOutput)
    as (info & Hparse & description & Hdesc & _ & Hargs & Hopts).
  destruct (preflight_spec number_is_falsy toLowerCase extractUsageFromHelp
              helpOutput generatorName args options) as (info' & Hparse' & E).
  rewrite Hparse in Hparse'. injection Hparse' as <-.
  rewrite Hchecks in E.
  destruct (missing_args _ _); [|discriminate E].
  destruct (missing_options _ _ _ _) as [|x xs] eqn:Emiss; [discriminate E|].
  injection E as -> _ _ _. rewrite <-Emiss in Hm.
  unfold missing_options in Hm.
  apply list_elem_of_fmap in Hm as (o & -> & Ho).
  apply list_elem_of_In, filter_In in Ho as [Ho Hreq].
  apply andb_true_iff in Hreq as [Hreq Hprov].
  exists description. eexists. split; [done|]. rewrite Hopts. split.
  { apply list_elem_of_fmap. exists o. split; [done|].
    by apply list_elem_of_In. }
  simpl. split_and!; try done. by apply negb_true_iff.
Qed.
End Description.

Lemma missing_option_listed_required_witness :
  ∃ description o,
    describeGenerator ascii_lower (fun _ => None) (lit "webapp")
      help_scenario = Returns description
    ∧ o ∈ go_options description
    ∧ fo_name o = lit "style" ∧ fo_required o = true
    ∧ fo_enumValues o = Some [lit "css"; lit "sass"].
Proof.
  assert (preflight int_is_falsy ascii_lower (fun _ => None)
            (Some help_scenario) (lit "webapp") [lit "app"]
            (∅ : gmap jsstring (JSValue Z))
          = Returns (Some (MissingRequiredOptions
              [mkMissingOption (lit "style") (lit "The style [css|sass]")
                 (Some [lit "css"; lit "sass"])]
              None
              [lit "--style: The style [css|sass]. Valid values: [css, sass]"]
              (lit "yo webapp app --style=css")))) as Hchecks.
  { vm_compute. reflexivity. }
  destruct (missing_option_listed_required int_is_falsy ascii_lower
              (fun _ => None) (lit "webapp") help_scenario [lit "app"] ∅
              _ _ _ _ _ Hchecks (list_elem_of_here _ _))
    as (description & o & Hdesc & Ho & Hname & Hreq & Henum & _).
  exists description, o. split_and!; assumption.
Defined.

(** ** The generator key *)

Lemma Object_prototype_generator {Number : Type} (generatorName : jsstring) :
  @Object_prototype Number !! getGeneratorKey generatorName = None.
Proof.
  unfold Object_prototype. apply not_elem_of_list_to_map_1.
  unfold getGeneratorKey. cbn [fmap list_fmap fst].
  rewrite !not_elem_of_cons. split_and!; try apply not_elem_of_nil;
    intros E; apply (f_equal head) in E; vm_compute in E; discriminate E.
Qed.

Section GeneratorKey.
Context {Number : Type}.
Context (number_is_falsy : Number → bool).

(** X16. [generatorConfigExists] is true exactly when .yo-rc.json was read
    as an object that has, as a property of its own, a truthy value under
    [generator-<name>]: no inherited property has such a name, so an empty
    object never counts as a trace of the generator. *)
Theorem generatorConfigExists_own (generatorName : jsstring)
    (file : @YoRc Number) :
  generatorConfigExists number_is_falsy generatorName file = true
  ↔ ∃ yoRc value,
      file = YoRcObject yoRc
      ∧ yoRc !! (lit "generator-" ++ generatorName) = Some value
      ∧ truthy number_is_falsy value = true.
Proof.
  unfold generatorConfigExists, get.
  destruct file as [| |yoRc].
  - split; [done|]. by intros (? & ? & ? & _).
  - split; [done|]. by intros (? & ? & ? & _).
  - rewrite Object_prototype_generator. unfold getGeneratorKey.
    destruct (yoRc !! (lit "generator-" ++ generatorName)) as [v|] eqn:E.
    + split; [intros H; by exists yoRc, v|].
      intros (yoRc' & v' & [= <-] & Hv & Ht). congruence.
    + split; [done|].
      intros (yoRc' & v' & [= <-] & Hv & _). congruence.
Qed.
End GeneratorKey.

(** ** Camel case *)

Lemma match_at_kebabRe prev s :
  match_at kebabRe prev s
  = match s with
    | x :: c :: t =>
        if (x =? 45) && in_range 97 122 c
        then Some (mkMatch [45; c] [None; Some [c]] t) else None
    | _ => None
    end.
Proof.
  destruct s as [|x [|c t]]; unfold match_at; simpl; unfold chr_eq.
  - done.
  - by destruct (45 =? x).
  - rewrite (N.eqb_sym 45 x). destruct (x =? 45) eqn:E; [|done].
    apply N.eqb_eq in E as ->. simpl.
    destruct (in_range 97 122 c); [|done]. simpl.
    change (45 :: c :: t) with ([45; c] ++ t).
    change (c :: t) with ([c] ++ t). by rewrite !consumed_app.
Qed.

Lemma gscan_kebabRe_prev prev prev' s n :
  gscan kebabRe prev s n = gscan kebabRe prev' s n.
Proof.
  revert prev prev' n. induction s as [|x s IH]; intros prev prev' n.
  - destruct n; [|done]. cbn [gscan]. by rewrite !match_at_kebabRe.
  - destruct n as [|n]; cbn [gscan]; [|done].
    rewrite !match_at_kebabRe. destruct s as [|c t]; [done|].
    by destruct ((x =? 45) && in_range 97 122 c).
Qed.

Lemma camelCase_miss x s :
  (x =? 45) && match s with c :: _ => in_range 97 122 c | [] => false end
  = false →
  camelCase (x :: s) = x :: camelCase s.
Proof.
  intros H. unfold camelCase, replace_g. rewrite replace_miss.
  - by rewrite (gscan_kebabRe_prev (Some x) None).
  - rewrite match_at_kebabRe. destruct s as [|c t]; [done|]. by rewrite H.
Qed.

Lemma camelCase_hit c t :
  in_range 97 122 c = true →
  camelCase (45 :: c :: t) = canon c :: camelCase t.
Proof.
  intros H. unfold camelCase, replace_g.
  rewrite (replace_hit _ _ _ _ (mkMatch [45; c] [None; Some [c]] t)).
  - simpl. by rewrite (gscan_kebabRe_prev (Some c) None).
  - rewrite match_at_kebabRe. by rewrite H.
  - done.
Qed.

Lemma camelCase_plain (a : jsstring) : 45 ∉ a → camelCase a = a.
Proof.
  induction a as [|x a IH]; intros H.
  - unfold camelCase, replace_g. by rewrite replace_nil.
  - apply not_elem_of_cons in H as [Hx Ha]. rewrite camelCase_miss.
    + by rewrite IH.
    + apply N.eqb_neq in Hx. rewrite N.eqb_sym in Hx. by rewrite Hx.
Qed.

Lemma camelCase_app (a s : jsstring) :
  45 ∉ a → camelCase (a ++ s) = a ++ camelCase s.
Proof.
  induction a as [|x a IH]; intros H; [done|].
  apply not_elem_of_cons in H as [Hx Ha]. simpl. rewrite camelCase_miss.
  - by rewrite IH.
  - apply N.eqb_neq in Hx. rewrite N.eqb_sym in Hx. by rewrite Hx.
Qed.

(** X17. Camel-casing goes through a name from the left: the text before
    the first hyphen is kept; a hyphen before a lower-case ASCII letter goes
    away and the letter becomes its capital; any other hyphen is kept.  A
    name without hyphen is left as it is, so that for such an option only
    the key of its name counts as provided. *)
Theorem camelCase_steps (a : jsstring) :
  45 ∉ a →
  camelCase a = a
  ∧ (∀ c b, camelCase (a ++ 45 :: c :: b)
            = if in_range 97 122 c then a ++ (c - 32) :: camelCase b
              else a ++ 45 :: camelCase (c :: b))
  ∧ camelCase (a ++ [45]) = a ++ [45]
  ∧ ∀ {Number : Type} (number_is_falsy : Number → bool)
      (providedOptions : gmap jsstring (JSValue Number)),
      provided number_is_falsy providedOptions a
      = truthy number_is_falsy (get providedOptions a).
Proof.
  intros Ha. split_and!.
  - by apply camelCase_plain.
  - intros c b. rewrite camelCase_app by done.
    destruct (in_range 97 122 c) eqn:Hc.
    + rewrite camelCase_hit by done. unfold canon. by rewrite Hc.
    + rewrite camelCase_miss; [done|]. by rewrite Hc, andb_false_r.
  - rewrite camelCase_app by done. by rewrite camelCase_miss.
  - intros Number number_is_falsy providedOptions. unfold provided.
    rewrite camelCase_plain by done. apply orb_diag.
Qed.

Lemma camelCase_steps_witness :
  camelCase (lit "skip-install") = lit "skipInstall"
  ∧ camelCase (lit "skip") = lit "skip".
Proof.
  assert (45 ∉ lit "skip") as H by compute_done.
  destruct (camelCase_steps (lit "skip") H) as (Hplain & Hstep & _).
  split; [|exact Hplain].
  change (lit "skip-install") with (lit "skip" ++ 45 :: 105 :: lit "nstall").
  rewrite Hstep. reflexivity.
Defined.

(** ** Enumerated values, again *)

Lemma split_Forall (P : jschar → Prop) sep s :
  Forall P s → Forall (Forall P) (split sep s).
Proof.
  induction 1 as [|c s Hc _ IH]; [by repeat constructor|]. simpl.
  destruct (c =? sep).
  - by constructor.
  - pose proof (split_nonempty sep s).
    destruct (split sep s) as [|h t]; [done|].
    apply Forall_cons in IH as [Hh Ht]. constructor; [by constructor|done].
Qed.

Lemma split_no_sep sep s : Forall (fun v => sep ∉ v) (split sep s).
Proof.
  induction s as [|c s IH]; simpl.
  - constructor; [apply not_elem_of_nil|constructor].
  - destruct (c =? sep) eqn:E.
    + constructor; [apply not_elem_of_nil|done].
    + pose proof (split_nonempty sep s).
      destruct (split sep s) as [|h t]; [done|].
      apply Forall_cons in IH as [Hh Ht]. constructor; [|done].
      apply not_elem_of_cons. split; [|done].
      apply N.eqb_neq in E. congruence.
Qed.

(** X18. The values found in a description are never an empty list, none
    of them holds a [|] or a closing bracket, and joined by [|] between
    brackets they stand in the description as they are. *)
Theorem extractEnumValues_values (description : jsstring)
    (values : list jsstring) :
  extractEnumValues description = Returns (Some values) →
  values ≠ []
  ∧ Forall (fun v => (124 ∉ v) ∧ (93 ∉ v)) values
  ∧ includes description ([91] ++ join [124] values ++ [93]) = true.
Proof.
  rewrite extractEnumValues_first_group.
  destruct (first_group description) as [body|] eqn:Ef; [|done].
  intros [= <-].
  destruct (first_group_Some _ _ Ef) as (pre & post & (E & Hne & Hnot) & _).
  split_and!.
  - apply split_nonempty.
  - pose proof (split_no_sep 124 body) as H1.
    assert (Forall (Forall (fun c => c ≠ 93)) (split 124 body)) as H2.
    { apply split_Forall, Forall_forall. by intros c Hc ->. }
    rewrite Forall_forall in H1, H2 |- *. intros v Hv.
    split; [by apply H1|]. intros Hin. specialize (H2 v Hv).
    rewrite Forall_forall in H2. by apply (H2 93).
  - assert (join [124] (split 124 body) = body) as ->.
    { rewrite join_split. clear.
      induction body as [|c body IH]; [done|]. cbn [fmap list_fmap].
      f_equal; [|exact IH].
      destruct (c =? 124) eqn:E; [|done]. by apply N.eqb_eq in E as ->. }
    apply includes_spec. exists pre, post. rewrite E.
    by rewrite <-!(assoc_L (++)).
Qed.

Lemma extractEnumValues_values_witness :
  [lit "css"; lit "sass"] ≠ []
  ∧ Forall (fun v => (124 ∉ v) ∧ (93 ∉ v)) [lit "css"; lit "sass"]
  ∧ includes (lit "The style [css|sass]")
      ([91] ++ join [124] [lit "css"; lit "sass"] ++ [93]) = true.
Proof.
  apply (extractEnumValues_values (lit "The style [css|sass]")).
  vm_compute. reflexivity.
Defined.

(** ** The arguments of a help text *)

Lemma findIndex_Some {X} (p : X → bool) xs i :
  findIndex p xs = Some i → ∃ x, xs !! i = Some x ∧ p x = true.
Proof.
  revert i. induction xs as [|x xs IH]; intros i; [done|]. simpl.
  destruct (p x) eqn:E.
  - intros [= <-]. by exists x.
  - destruct (findIndex p xs) as [j|]; [|done]. intros [= <-].
    by apply IH.
Qed.

Lemma forEach_push_arg (f : jsstring → Arg) ms result :
  args (forEach (fun m result => push_arg (f m) result) ms result)
  = args result ++ (f <$> ms).
Proof.
  revert result. induction ms as [|m ms IH]; intros result; simpl.
  - by rewrite (right_id_L [] (++)).
  - rewrite IH. simpl. by rewrite <-(assoc_L (++)).
Qed.

Lemma parseUsage_optional helpOutput result :
  parseUsage helpOutput (mkHelpInfo [] []) = Returns result →
  Forall (fun a => arg_required a = false) (args result).
Proof.
  unfold parseUsage. destruct (search usageRe helpOutput) as [m|];
    [|by intros [= <-]].
  destruct (cap m 2) as [usage|]; [|done]. simpl.
  destruct (match_g _ _) as [ms|]; [|by intros [= <-]].
  intros [= <-]. rewrite forEach_push_arg. simpl.
  apply Forall_fmap, Forall_forall. by intros.
Qed.

Lemma argBody_names m result result' :
  argBody m result = Returns result' →
  arg_name <$> args result `prefix_of` arg_name <$> args result'.
Proof.
  unfold argBody. destruct (cap m 1) as [name|]; [|done].
  destruct (cap m 2) as [description|]; [|done]. simpl.
  destruct (findIndex _ _) as [i|] eqn:E; intros [= <-]; simpl.
  - apply findIndex_Some in E as (a & Hi & Ha).
    unfold jseq in Ha. apply bool_decide_eq_true in Ha.
    rewrite list_fmap_insert. simpl. rewrite list_insert_id; [done|].
    by rewrite list_lookup_fmap, Hi, <-Ha.
  - rewrite fmap_app. by apply prefix_app_r.
Qed.

Lemma parseArguments_names helpOutput result result' :
  parseArguments helpOutput result = Returns result' →
  arg_name <$> args result `prefix_of` arg_name <$> args result'.
Proof.
  unfold parseArguments.
  destruct (search argsSectionRe helpOutput) as [m|]; [|by intros [= <-]].
  apply (exec_loop_invariant argBody
           (fun st => arg_name <$> args result
                      `prefix_of` arg_name <$> args st)); [|done].
  intros m' st st' Hst Hbody. etrans; [exact Hst|].
  by eapply argBody_names.
Qed.

(** ** The usage line *)

Lemma rmatch_Str_of_app w pv s caps k :
  rmatch false (Str_of w) (MState pv (w ++ s) caps) k
  = k (MState (prev_after pv w) s caps).
Proof.
  revert pv. induction w as [|c w IH]; intros pv; [done|].
  cbn [Str_of rmatch ms_rest ms_caps app]. unfold chr_eq.
  rewrite N.eqb_refl. apply IH.
Qed.

Section Longest.
Context {A : Type}.
Implicit Types k : option jschar → jsstring → option A.

Lemma rep_greedy_longest p prev s k x :
  k (prev_after prev (keep_while p s)) (skip_while p s) = Some x →
  rep_greedy p prev s k = Some x.
Proof.
  revert prev. induction s as [|c s IH]; intros prev; [done|].
  cbn [rep_greedy keep_while skip_while]. destruct (p c) eqn:E; [|done].
  intros H.
  change (prev_after prev (c :: keep_while p s))
    with (prev_after (Some c) (keep_while p s)) in H.
  by rewrite (IH _ H).
Qed.
End Longest.

Lemma keep_skip_run p (run rest : jsstring) :
  Forall (fun c => p c = true) run →
  match rest with [] => True | c :: _ => p c = false end →
  keep_while p (run ++ rest) = run ∧ skip_while p (run ++ rest) = rest.
Proof.
  intros Hrun Hrest. destruct rest as [|c rest].
  - rewrite (right_id_L [] (++)).
    induction Hrun as [|x run Hx _ [IH1 IH2]]; [done|]. simpl.
    by rewrite Hx, IH1, IH2.
  - by apply keep_while_app.
Qed.

(** A greedy [+] takes the whole run when what follows matches after it. *)
Lemma rmatch_plus_longest ic p pv (run rest : jsstring) caps k x :
  run ≠ [] → Forall (fun c => p c = true) run →
  match rest with [] => True | c :: _ => p c = false end →
  k (MState (prev_after pv run) rest caps) = Some x →
  rmatch ic (plus p) (MState pv (run ++ rest) caps) k = Some x.
Proof.
  intros Hne Hrun Hrest Hk. destruct run as [|c run]; [done|].
  apply Forall_cons in Hrun as [Hc Hrun].
  cbn [plus rmatch rep_min ms_rest ms_prev ms_caps app]. rewrite Hc.
  apply rep_greedy_longest.
  destruct (keep_skip_run p run rest Hrun Hrest) as [-> ->]. exact Hk.
Qed.

Lemma blank_inv s :
  blank s = true → s ≠ [] ∧ Forall (fun c => is_space c = true) s.
Proof.
  unfold blank. intros [H1 H2]%andb_true_iff. split.
  - apply negb_true_iff, bool_decide_eq_false in H1. done.
  - apply Forall_forall. intros c Hc%list_elem_of_In.
    by apply (proj1 (forallb_forall _ _) H2).
Qed.

Lemma word_inv s :
  word s = true → s ≠ [] ∧ Forall (fun c => is_word c = true) s.
Proof.
  unfold word. intros [H1 H2]%andb_true_iff. split.
  - apply negb_true_iff, bool_decide_eq_false in H1. done.
  - apply Forall_forall. intros c Hc%list_elem_of_In.
    by apply (proj1 (forallb_forall _ _) H2).
Qed.

Lemma word_not_space c : is_word c = true → is_space c = false.
Proof.
  unfold is_word, is_space, is_digit, in_range.
  rewrite !orb_true_iff, !orb_false_iff, !andb_true_iff, !andb_false_iff,
    !N.leb_le, !N.leb_gt, !N.eqb_eq, !N.eqb_neq. lia.
Qed.

Lemma space_not_word c : is_space c = true → is_word c = false.
Proof.
  intros Hs. destruct (is_word c) eqn:E; [|done].
  apply word_not_space in E. congruence.
Qed.

(** The usage pattern on a usage line that stands at the position. *)
Lemma match_at_usageRe prev (s1 s2 generator s3 line rest : jsstring) :
  blank s1 = true → blank s2 = true → word generator = true →
  blank s3 = true →
  line ≠ [] → Forall (fun c => not_char LF c = true) line →
  is_space (default 32 (head line)) = false →
  match rest with [] => True | c :: _ => c = LF end →
  ∃ m, match_at usageRe prev
         (lit "Usage:" ++ s1 ++ lit "yo" ++ s2 ++ generator ++ s3 ++ line
          ++ rest) = Some m
       ∧ cap m 2 = Some line.
Proof.
  intros [N1 F1]%blank_inv [N2 F2]%blank_inv [Ng Fg]%word_inv
    [N3 F3]%blank_inv Nl Fl Hl Hrest.
  assert (∃ pv, rmatch false (re_body usageRe)
            (MState prev
               (lit "Usage:" ++ s1 ++ lit "yo" ++ s2 ++ generator ++ s3
                ++ line ++ rest) (replicate 3 None)) Some
          = Some (MState pv rest [None; Some generator; Some line]))
    as [pv Hm].
  { eexists. cbn [re_body usageRe Seqs rmatch]. unfold Str.
    rewrite rmatch_Str_of_app.
    apply rmatch_plus_longest; [done| |done|].
    { eapply Forall_impl; [exact F1|]. intros c Hc. simpl. by rewrite Hc. }
    rewrite rmatch_Str_of_app.
    apply rmatch_plus_longest; [done|done| |].
    { destruct generator as [|c g]; [done|].
      apply Forall_cons in Fg as [Hc _]. by apply word_not_space. }
    cbn [rmatch ms_rest ms_prev ms_caps].
    apply rmatch_plus_longest; [done|done| |].
    { destruct s3 as [|c s]; [done|].
      apply Forall_cons in F3 as [Hc _]. by apply space_not_word. }
    cbn [ms_rest ms_prev ms_caps].
    apply rmatch_plus_longest; [done|done| |].
    { destruct line as [|c l]; [done|]. exact Hl. }
    cbn [rmatch ms_rest ms_prev ms_caps].
    apply rmatch_plus_longest; [done|done| |].
    { destruct rest as [|c r]; [done|]. subst c. reflexivity. }
    cbn [ms_rest ms_prev ms_caps]. rewrite !consumed_app. reflexivity. }
  unfold match_at. cbn [re_icase re_groups usageRe] in Hm |- *.
  rewrite Hm. eexists. split; [done|]. done.
Qed.

Lemma match_at_usageRe_head prev c s m :
  match_at usageRe prev (c :: s) = Some m → c = 85.
Proof.
  unfold match_at. cbn [re_icase re_body usageRe Seqs]. unfold Str.
  destruct (rmatch _ _ _ _) as [st|] eqn:E; [|done]. intros _.
  apply rmatch_Str_of in E. cbn [ms_rest] in E.
  change (lit "Usage:") with (85 :: lit "sage:") in E. simpl in E.
  apply andb_true_iff in E as [E _]. by apply N.eqb_eq in E.
Qed.

Lemma search_usageRe (pre s1 s2 generator s3 line rest : jsstring) :
  usage_help_ok pre s1 s2 generator s3 rest = true →
  line ≠ [] → Forall (fun c => not_char LF c = true) line →
  is_space (default 32 (head line)) = false →
  ∃ m, search usageRe (usage_help pre s1 s2 generator s3 line rest) = Some m
       ∧ cap m 2 = Some line.
Proof.
  unfold usage_help_ok, usage_help.
  rewrite !andb_true_iff.
  intros (((((Hpre & H1) & H2) & Hg) & H3) & Hrest) Nl Fl Hl.
  apply negb_true_iff, bool_decide_eq_false in Hpre.
  assert (match rest with [] => True | c :: _ => c = LF end) as Hrest'.
  { destruct rest as [|c r]; [done|]. by apply N.eqb_eq. }
  unfold search. generalize (@None jschar).
  induction pre as [|c pre IH]; intros prev.
  - destruct (match_at_usageRe prev s1 s2 generator s3 line rest)
      as (m & Hm & Hcap); try done.
    exists m. split; [|done]. cbn [app].
    destruct (lit "Usage:" ++ s1 ++ lit "yo" ++ s2 ++ generator ++ s3
              ++ line ++ rest); cbn [search_from]; by rewrite Hm.
  - apply not_elem_of_cons in Hpre as [Hc Hpre].
    destruct (IH Hpre (Some c)) as (m & Hm & Hcap).
    exists m. split; [|done]. cbn [app search_from].
    destruct (match_at usageRe prev _) as [m'|] eqn:E.
    { apply match_at_usageRe_head in E. congruence. }
    destruct (search_from usageRe (Some c) _) as [[p m']|]; [|done].
    simpl in Hm |- *. done.
Qed.

(** *** The placeholders of a line *)

Lemma match_at_usageArgRe prev s :
  match_at usageArgRe prev s
  = match s with
    | x :: y :: t =>
        if (x =? 91) && (y =? 60) then
          match keep_while is_word t, skip_while is_word t with
          | c :: w, z1 :: z2 :: rest =>
              if (z1 =? 62) && (z2 =? 93)
              then Some (mkMatch (x :: y :: (c :: w) ++ [z1; z2])
                           [None; Some (c :: w)] rest)
              else None
          | _, _ => None
          end
        else None
    | _ => None
    end.
Proof.
  unfold match_at. cbn [re_icase re_body re_groups usageArgRe Seqs].
  unfold Str. change (lit "[<") with [91; 60]. change (lit ">]") with [62; 93].
  cbn [Str_of].
  destruct s as [|x [|y t]].
  - done.
  - cbn [rmatch ms_rest]. unfold chr_eq. by destruct (91 =? x).
  - cbn [rmatch ms_rest ms_caps ms_prev]. unfold chr_eq.
    rewrite (N.eqb_sym 91 x), (N.eqb_sym 60 y).
    destruct (x =? 91) eqn:Ex; [|done]. destruct (y =? 60) eqn:Ey; [|done].
    cbn [andb].
    rewrite rmatch_plus_blocked.
    2:{ intros pv c s' caps Hc. cbn [ms_rest].
        destruct (62 =? c) eqn:E; [|done].
        apply N.eqb_eq in E as <-. done. }
    cbn [ms_rest ms_caps ms_prev].
    pose proof (keep_skip is_word t) as Hks.
    destruct (keep_while is_word t) as [|c w]; [done|].
    destruct (skip_while is_word t) as [|z1 [|z2 rest]]; [done| |].
    { by destruct (62 =? z1). }
    rewrite (N.eqb_sym 62 z1), (N.eqb_sym 93 z2).
    destruct (z1 =? 62); [|done]. destruct (z2 =? 93); [|done].
    cbn [andb ms_rest ms_caps]. rewrite <-Hks. f_equal. f_equal.
    + change (x :: y :: (c :: w) ++ z1 :: z2 :: rest)
        with ((x :: y :: (c :: w)) ++ [z1; z2] ++ rest).
      rewrite (assoc_L (++)). by rewrite consumed_app.
    + by rewrite consumed_app.
Qed.

Lemma usageArgRe_prev pv pv' t :
  match_at usageArgRe pv t = match_at usageArgRe pv' t.
Proof. by rewrite !match_at_usageArgRe. Qed.

Lemma scan_text (t r : jsstring) prev :
  includes t (lit "[<") = false → head r ≠ Some 60 →
  (fst (gscan usageArgRe prev (t ++ r) 0)).*2
  = (fst (gscan usageArgRe None r 0)).*2.
Proof.
  intros Ht Hr. revert prev. induction t as [|c t IH]; intros prev.
  - by rewrite (gscan_prev_irrelevant usageArgRe prev None _ _ usageArgRe_prev).
  - change (lit "[<") with [91; 60] in Ht. cbn [includes] in Ht.
    apply orb_false_iff in Ht as [Hst Ht].
    assert (match_at usageArgRe prev ((c :: t) ++ r) = None) as Hm.
    { rewrite match_at_usageArgRe. cbn [app].
      destruct t as [|y t]; cbn [app].
      - destruct r as [|y r]; [done|].
        assert (y ≠ 60) as Hy by (intros ->; by apply Hr).
        apply N.eqb_neq in Hy. by rewrite Hy, andb_false_r.
      - cbn [starts_with] in Hst. rewrite andb_true_r in Hst.
        by rewrite (N.eqb_sym c 91), (N.eqb_sym y 60), Hst. }
    cbn [app gscan] in Hm |- *. rewrite Hm, cons_text_matches. by apply IH.
Qed.

Lemma scan_placeholder (w r : jsstring) prev :
  word w = true →
  (fst (gscan usageArgRe prev (lit "[<" ++ w ++ lit ">]" ++ r) 0)).*2
  = mkMatch (lit "[<" ++ w ++ lit ">]") [None; Some w] r
    :: (fst (gscan usageArgRe None r 0)).*2.
Proof.
  intros [Hne Hw]%word_inv.
  assert (match_at usageArgRe prev (lit "[<" ++ w ++ lit ">]" ++ r)
          = Some (mkMatch (lit "[<" ++ w ++ lit ">]") [None; Some w] r))
    as Hm.
  { rewrite match_at_usageArgRe.
    change (lit "[<" ++ w ++ lit ">]" ++ r) with (91 :: 60 :: w ++ 62 :: 93 :: r).
    cbv beta iota. rewrite !N.eqb_refl. cbn [andb].
    destruct (keep_while_app is_word w 62 (93 :: r) Hw eq_refl) as [Hk Hs].
    unfold jschar in *. rewrite Hk, Hs. destruct w as [|c w]; [done|].
    by rewrite !N.eqb_refl. }
  change (lit "[<" ++ w ++ lit ">]" ++ r)
    with (91 :: (60 :: w ++ [62; 93] ++ r)) in Hm |- *.
  cbn [gscan]. rewrite Hm. cbn [m_text].
  change (lit "[<" ++ w ++ lit ">]") with (91 :: (60 :: w ++ [62; 93])).
  cbn [length].
  rewrite gscan_skip.
  2:{ cbn [length]. rewrite !length_app. cbn [length]. lia. }
  cbn [cons_match fst fmap list_fmap snd]. f_equal.
  assert (drop (length (w ++ [62; 93])) (w ++ [62; 93] ++ r) = r) as ->.
  { rewrite (assoc_L (++)). by rewrite drop_app_length. }
  by rewrite (gscan_prev_irrelevant usageArgRe _ None _ _ usageArgRe_prev).
Qed.

Lemma placeholders_found (placeholders : list (jsstring * jsstring))
    (tail : jsstring) prev :
  forallb (fun p => negb (includes (fst p) (lit "[<")) && word (snd p))
    placeholders = true →
  includes tail (lit "[<") = false →
  m_text <$> (fst (gscan usageArgRe prev (usage_line placeholders tail) 0)).*2
  = (fun p => lit "[<" ++ snd p ++ lit ">]") <$> placeholders.
Proof.
  unfold usage_line. intros Hps Htail. revert prev.
  induction placeholders as [|[t w] ps IH]; intros prev.
  - cbn [fmap list_fmap concat app].
    rewrite <-(right_id_L [] (++) tail), scan_text by done. done.
  - cbn [forallb fst snd] in Hps.
    apply andb_true_iff in Hps as [Hp Hps].
    apply andb_true_iff in Hp as [Ht%negb_true_iff Hw].
    cbn [fmap list_fmap concat fst snd].
    rewrite <-!(assoc_L (++)).
    rewrite scan_text by done. rewrite scan_placeholder by done.
    cbn [fmap list_fmap m_text]. f_equal. by apply IH.
Qed.

Lemma match_at_bracketsRe prev s :
  match_at bracketsRe prev s
  = match s with
    | x :: s' =>
        if one_of "[]<>" x then Some (mkMatch [x] [None] s') else None
    | [] => None
    end.
Proof.
  unfold match_at. cbn [re_icase re_body re_groups bracketsRe rmatch].
  destruct s as [|x s']; [done|]. cbn [ms_rest ms_caps].
  destruct (one_of "[]<>" x); [|done]. cbn [ms_rest ms_caps].
  change (x :: s') with ([x] ++ s'). by rewrite consumed_app.
Qed.

Lemma strip_brackets (s : jsstring) :
  replace_g bracketsRe (fun _ => []) s
  = List.filter (fun c => negb (one_of "[]<>" c)) s.
Proof.
  unfold replace_g. generalize (@None jschar).
  induction s as [|x s IH]; intros prev.
  - by rewrite replace_nil by (by rewrite match_at_bracketsRe).
  - cbn [List.filter]. destruct (one_of "[]<>" x) eqn:E; cbn [negb].
    + rewrite (replace_hit _ _ _ _ (mkMatch [x] [None] s));
        [|by rewrite match_at_bracketsRe, E|done].
      cbn [m_text m_rest app]. apply IH.
    + rewrite replace_miss by (by rewrite match_at_bracketsRe, E).
      by rewrite IH.
Qed.

Lemma word_not_bracket c : is_word c = true → one_of "[]<>" c = false.
Proof.
  unfold one_of. change (lit "[]<>") with [91; 93; 60; 62].
  cbn [existsb]. unfold is_word, is_digit, in_range.
  rewrite !orb_true_iff, !orb_false_iff, !andb_true_iff,
    !N.leb_le, !N.eqb_eq, !N.eqb_neq. lia.
Qed.

Lemma strip_placeholder (w : jsstring) :
  Forall (fun c => is_word c = true) w →
  replace_g bracketsRe (fun _ => []) (lit "[<" ++ w ++ lit ">]") = w.
Proof.
  intros Hw. rewrite strip_brackets.
  change (lit "[<" ++ w ++ lit ">]") with (91 :: 60 :: w ++ [62; 93]).
  cbn [List.filter].
  change (one_of "[]<>" 91) with true. change (one_of "[]<>" 60) with true.
  cbn [negb]. rewrite List.filter_app. cbn [List.filter].
  change (one_of "[]<>" 62) with true. change (one_of "[]<>" 93) with true.
  cbn [negb]. rewrite (right_id_L [] (++)).
  induction Hw as [|c w Hc _ IH]; [done|]. cbn [List.filter].
  by rewrite (word_not_bracket c Hc), IH.
Qed.

Lemma trim_id (s : jsstring) :
  is_space (default 32 (head s)) = false →
  is_space (default 32 (last s)) = false → trim s = s.
Proof.
  intros Hh Hl. unfold trim.
  assert (∀ t : jsstring, is_space (default 32 (head t)) = false →
                          skip_while is_space t = t) as Hskip.
  { intros [|c t] H; [done|]. simpl in H |- *. by rewrite H. }
  rewrite (Hskip s Hh), Hskip; [apply rev_involutive|].
  destruct s as [|c s] using rev_ind; [done|].
  rewrite rev_app_distr. rewrite last_snoc in Hl. done.
Qed.

(** The usage line of a help text gives one optional argument for each
    placeholder. *)
Lemma parseUsage_placeholders (pre s1 s2 generator s3 rest tail : jsstring)
    (placeholders : list (jsstring * jsstring)) (result : HelpInfo) :
  usage_help_ok pre s1 s2 generator s3 rest = true →
  usage_line_ok placeholders tail = true →
  parseUsage
    (usage_help pre s1 s2 generator s3 (usage_line placeholders tail) rest)
    result
  = Returns (mkHelpInfo
      (args result
       ++ ((fun p => mkArg (snd p) (lit "String") false []) <$> placeholders))
      (options result)).
Proof.
  intros Hhelp Hline. unfold usage_line_ok in Hline. cbv zeta in Hline.
  rewrite !andb_true_iff in Hline.
  destruct Hline as ((((Hh & Hl) & Hlf) & Hps) & Htail).
  apply negb_true_iff in Hh, Hl, Htail.
  assert (usage_line placeholders tail ≠ []) as Hne.
  { intros E. rewrite E in Hh. done. }
  assert (Forall (fun c => not_char LF c = true)
            (usage_line placeholders tail)) as Hlf'.
  { apply Forall_forall. intros c Hc%list_elem_of_In.
    by apply (proj1 (forallb_forall _ _) Hlf). }
  destruct (search_usageRe pre s1 s2 generator s3 _ rest Hhelp Hne Hlf' Hh)
    as (m & Hm & Hcap).
  unfold parseUsage. rewrite Hm, Hcap. cbn [defined mbind].
  unfold outcome_bind. cbv beta zeta. rewrite (trim_id _ Hh Hl).
  unfold match_g, global_matches.
  pose proof (placeholders_found placeholders tail None Hps Htail) as Hfound.
  destruct ((fst (gscan usageArgRe None (usage_line placeholders tail) 0)).*2)
    as [|m0 ms] eqn:E.
  - destruct placeholders; [|done]. cbn [fmap list_fmap].
    rewrite (right_id_L [] (++)). by destruct result.
  - f_equal. rewrite Hfound.
    assert (∀ r, forEach (fun m1 result0 =>
                   push_arg (mkArg (replace_g bracketsRe (fun _ => []) m1)
                               (lit "String") false []) result0)
                   ((fun p => lit "[<" ++ snd p ++ lit ">]") <$> placeholders)
                   r
                 = mkHelpInfo
                     (args r ++ ((fun p => mkArg (snd p) (lit "String") false [])
                                 <$> placeholders)) (options r)) as Hall.
    { clear -Hps. induction placeholders as [|[t w] ps IH]; intros r.
      - cbn [fmap list_fmap forEach]. rewrite (right_id_L [] (++)).
        by destruct r.
      - cbn [forallb fst snd] in Hps.
        apply andb_true_iff in Hps as [Hp Hps].
        apply andb_true_iff in Hp as [_ [_ Hw]%word_inv].
        cbn [fmap list_fmap forEach snd]. rewrite (IH Hps).
        rewrite (strip_placeholder w Hw). cbn [push_arg args options].
        by rewrite <-(assoc_L (++)). }
    apply Hall.
Qed.

(** X19. In a help text with a usage line ([Usage:], white space, [yo],
    white space, a generator name of word characters, white space, and a
    line of texts and placeholders [[<name>]]), the arguments keep the
    positions the usage line gives them: the parsed arguments begin with
    one argument for each placeholder of the line, under its name and in
    the order of the line, whatever the Arguments section says about them.
    Without [Arguments:] in the text these are all the arguments, each
    optional, of type String and without description. *)
Theorem usage_arguments_keep_position
    (pre s1 s2 generator s3 rest tail : jsstring)
    (placeholders : list (jsstring * jsstring)) :
  usage_help_ok pre s1 s2 generator s3 rest = true →
  usage_line_ok placeholders tail = true →
  ∃ info,
    parseGeneratorHelp
      (usage_help pre s1 s2 generator s3 (usage_line placeholders tail) rest)
    = Returns info
    ∧ (∀ i p, placeholders !! i = Some p →
         ∃ a, args info !! i = Some a ∧ arg_name a = snd p)
    ∧ (includes
         (usage_help pre s1 s2 generator s3 (usage_line placeholders tail)
            rest) (lit "Arguments:") = false →
       args info
       = (fun p => mkArg (snd p) (lit "String") false []) <$> placeholders).
Proof.
  intros Hhelp Hline. unfold parseGeneratorHelp.
  rewrite (parseUsage_placeholders _ _ _ _ _ _ _ _ _ Hhelp Hline).
  cbn [args options app mbind]. unfold outcome_bind at 1.
  set (helpOutput := usage_help pre s1 s2 generator s3
                       (usage_line placeholders tail) rest).
  set (r1 := mkHelpInfo
               ((fun p => mkArg (snd p) (lit "String") false [])
                <$> placeholders) []).
  destruct (parseArguments_returns helpOutput r1) as (r2 & H2 & _).
  destruct (parseOptions_returns helpOutput r2) as (r3 & H3 & A3).
  destruct (parsePrompts_returns helpOutput r3) as (r4 & H4 & A4 & _).
  exists r4. split.
  { rewrite H2. simpl. rewrite H3. simpl. exact H4. }
  split.
  - intros i p Hi. rewrite A4, A3.
    destruct (parseArguments_names _ _ _ H2) as [more Hmore].
    assert ((arg_name <$> args r2) !! i = Some (snd p)) as Hname.
    { rewrite Hmore. apply lookup_app_l_Some. subst r1. cbn [args].
      by rewrite !list_lookup_fmap, Hi. }
    rewrite list_lookup_fmap in Hname.
    destruct (args r2 !! i) as [a|]; [|done].
    exists a. split; [done|]. by injection Hname.
  - intros Habs. rewrite (parseArguments_absent _ _ Habs) in H2.
    injection H2 as <-. by rewrite A4, A3.
Qed.

Lemma usage_arguments_keep_position_witness :
  ∃ info,
    parseGeneratorHelp
      (usage_help [] (LFs ++ lit "  ") (lit " ") (lit "webapp") (lit " ")
         (usage_line [(lit "[options] ", lit "appName"); (lit " ", lit "other")]
            [])
         (LFs ++ LFs ++ lit "Arguments:" ++ LFs
          ++ lit "  extra  # An extra  Type: String  Required: false" ++ LFs
          ++ lit "  appName  # Your app name  Type: String  Required: true"
          ++ LFs))
    = Returns info
    ∧ (∃ a, args info !! 0%nat = Some a ∧ arg_name a = lit "appName")
    ∧ (∃ a, args info !! 1%nat = Some a ∧ arg_name a = lit "other").
Proof.
  destruct (usage_arguments_keep_position [] (LFs ++ lit "  ") (lit " ")
              (lit "webapp") (lit " ")
              (LFs ++ LFs ++ lit "Arguments:" ++ LFs
               ++ lit "  extra  # An extra  Type: String  Required: false"
               ++ LFs
               ++ lit "  appName  # Your app name  Type: String  Required: true"
               ++ LFs)
              []
              [(lit "[options] ", lit "appName"); (lit " ", lit "other")])
    as (info & Hparse & Hpos & _).
  - vm_compute. reflexivity.
  - vm_compute. reflexivity.
  - exists info. split; [exact Hparse|]. split.
    + exact (Hpos 0%nat (lit "[options] ", lit "appName") eq_refl).
    + exact (Hpos 1%nat (lit " ", lit "other") eq_refl).
Defined.

Section ArgumentsAbsent.
Context {Number : Type}.
Context (number_is_falsy : Number → bool).
Context (toLowerCase : jsstring → jsstring).
Context (extractUsageFromHelp : jsstring → option jsstring).

(** X20. A help text without the word [Arguments:] never stops a run for
    missing arguments: the arguments of the usage line alone are all
    optional. *)
Theorem no_arguments_section_no_missing (helpOutput generatorName : jsstring)
    (args : list jsstring) (options : gmap jsstring (JSValue Number))
    (missing : list MissingArg) (usage : option jsstring)
    (suggestions : list jsstring) :
  includes helpOutput (lit "Arguments:") = false →
  preflight number_is_falsy toLowerCase extractUsageFromHelp
    (Some helpOutput) generatorName args options
  ≠ Returns (Some (MissingRequiredArguments missing usage suggestions)).
Proof.
  intros Habs.
  destruct (preflight_spec number_is_falsy toLowerCase extractUsageFromHelp
              helpOutput generatorName args options) as (info & Hparse & ->).
  assert (missing_args args (help_args info) = []) as ->.
  { apply missing_args_nil. intros i a Hi Hreq. exfalso.
    revert Hparse. unfold parseGeneratorHelp.
    destruct (parseUsage_returns helpOutput (mkHelpInfo [] []))
      as (r1 & H1 & _).
    rewrite H1. simpl. rewrite (parseArguments_absent _ _ Habs). simpl.
    destruct (parseOptions_returns helpOutput r1) as (r3 & H3 & A3).
    rewrite H3. simpl.
    destruct (parsePrompts_returns helpOutput r3) as (r4 & H4 & A4 & _).
    rewrite H4. intros [= <-]. unfold help_args in Hi.
    rewrite A4, A3 in Hi. apply parseUsage_optional in H1.
    rewrite Forall_forall in H1. apply list_elem_of_lookup_2 in Hi.
    apply H1 in Hi. congruence. }
  by destruct (missing_options _ _ _ _).
Qed.
End ArgumentsAbsent.

Lemma no_arguments_section_no_missing_witness :
  preflight int_is_falsy ascii_lower (fun _ => None)
    (Some help_typescript) (lit "webapp") [] (∅ : gmap jsstring (JSValue Z))
  ≠ Returns (Some (MissingRequiredArguments [] None [])).
Proof.
  apply (no_arguments_section_no_missing int_is_falsy ascii_lower
           (fun _ => None) help_typescript (lit "webapp") [] ∅ [] None []).
  vm_compute. reflexivity.
Defined.

(** ** The prompts of an output *)

Section Monotone.
Context {A : Type}.
Implicit Types k : option jschar → jsstring → option A.

Lemma orelse_is_Some (x y : option A) :
  is_Some (orelse x y) ↔ is_Some x ∨ is_Some y.
Proof.
  destruct x as [a|]; simpl.
  - split; [by left|by intros _].
  - split; [by right|]. by intros [[? [=]]|?].
Qed.

Lemma rep_min_mono n p prev s k k' :
  (∀ pv t, is_Some (k pv t) → is_Some (k' pv t)) →
  is_Some (rep_min n p prev s k) → is_Some (rep_min n p prev s k').
Proof.
  intros Hk. revert prev s. induction n as [|n IH]; intros prev s; simpl.
  - apply Hk.
  - destruct s as [|c s]; [done|]. destruct (p c); [apply IH|done].
Qed.

Lemma rep_greedy_mono p prev s k k' :
  (∀ pv t, is_Some (k pv t) → is_Some (k' pv t)) →
  is_Some (rep_greedy p prev s k) → is_Some (rep_greedy p prev s k').
Proof.
  intros Hk. revert prev. induction s as [|c s IH]; intros prev; simpl.
  - apply Hk.
  - destruct (p c); [|apply Hk]. rewrite !orelse_is_Some.
    intros [H|H]; [left; by apply IH|right; by apply Hk].
Qed.

Lemma rep_lazy_mono p prev s k k' :
  (∀ pv t, is_Some (k pv t) → is_Some (k' pv t)) →
  is_Some (rep_lazy p prev s k) → is_Some (rep_lazy p prev s k').
Proof.
  intros Hk. revert prev. induction s as [|c s IH]; intros prev; simpl;
    rewrite !orelse_is_Some.
  - intros [H|H]; [left; by apply Hk|by right].
  - intros [H|H]; [left; by apply Hk|right].
    destruct (p c); [by apply IH|done].
Qed.
End Monotone.

(** A match goes through with every continuation that accepts where the
    given one does. *)
Lemma rmatch_mono ic r st k k' :
  (∀ st', is_Some (k st') → is_Some (k' st')) →
  is_Some (rmatch ic r st k) → is_Some (rmatch ic r st k').
Proof.
  revert st k k'.
  induction r as [|c|p|a IHa b IHb|a IHa b IHb|a IHa|n g p|i a IHa| |];
    intros st k k' Hk; simpl.
  - apply Hk.
  - destruct (ms_rest st) as [|x s]; [done|].
    destruct (chr_eq ic c x); [apply Hk|done].
  - destruct (ms_rest st) as [|x s]; [done|].
    destruct (p x); [apply Hk|done].
  - apply IHa. intros st'. by apply IHb.
  - rewrite !orelse_is_Some.
    intros [H|H]; [left; by eapply IHa|right; by eapply IHb].
  - rewrite !orelse_is_Some.
    intros [H|H]; [left; by eapply IHa|right; by apply Hk].
  - apply rep_min_mono. intros pv t.
    destruct g; [apply rep_greedy_mono|apply rep_lazy_mono];
      intros pv' t'; apply Hk.
  - apply IHa. intros st'. apply Hk.
  - destruct (ms_rest st); [apply Hk|done].
  - destruct (xorb _ _); [apply Hk|done].
Qed.

Lemma star_accepts ic p st :
  is_Some (rmatch ic (star p) st Some).
Proof.
  simpl. rewrite rep_greedy_total; [done|]. by intros.
Qed.

(** Where a prompt pattern matches, the pattern with the rest of the line
    matches too. *)
Lemma line_matches c prev s :
  is_Some (match_at (mkRegExp false 0
             (Seqs [Chr c; plus is_space; plus word_or_space])) prev s) →
  is_Some (match_at (mkRegExp false 0
             (Seqs [Chr c; plus is_space; plus word_or_space;
                    star (not_char LF)])) prev s).
Proof.
  unfold match_at. cbn [re_icase re_body re_groups Seqs].
  intros H.
  assert (is_Some (rmatch false
            (Seq (Chr c) (Seq (plus is_space) (plus word_or_space)))
            (MState prev s (replicate 1 None)) Some)) as H1.
  { by destruct (rmatch _ _ _ _). }
  assert (is_Some (rmatch false
            (Seq (Chr c) (Seq (plus is_space)
               (Seq (plus word_or_space) (star (not_char LF)))))
            (MState prev s (replicate 1 None)) Some)) as H2.
  { revert H1.
    change (is_Some (rmatch false (Chr c) (MState prev s (replicate 1 None))
              (fun st1 => rmatch false (plus is_space) st1
                (fun st2 => rmatch false (plus word_or_space) st2 Some))) →
            is_Some (rmatch false (Chr c) (MState prev s (replicate 1 None))
              (fun st1 => rmatch false (plus is_space) st1
                (fun st2 => rmatch false (plus word_or_space) st2
                  (fun st3 => rmatch false (star (not_char LF)) st3 Some))))).
    apply rmatch_mono. intros st1.
    apply rmatch_mono. intros st2. apply rmatch_mono. intros st3 _.
    apply star_accepts. }
  by destruct H2 as [x ->].
Qed.

Lemma cons_text_nil c r : fst (cons_text c r) = [] ↔ fst r = [].
Proof. by destruct r as [[|[pre m] segs] tl]. Qed.

Lemma gscan_found re prev s :
  fst (gscan re prev s 0) ≠ [] ↔ is_Some (search_from re prev s).
Proof.
  revert prev. induction s as [|c s IH]; intros prev; cbn [gscan search_from].
  - destruct (match_at re prev []); simpl; [|split; [done|by intros [? [=]]]].
    split; [by intros _|done].
  - destruct (match_at re prev (c :: s)) as [m|].
    + split; [by intros _|]. intros _. by destruct (length (m_text m)).
    + rewrite cons_text_nil, IH.
      destruct (search_from re (Some c) s) as [[pre m]|]; [by split|].
      split; by intros [? [=]].
Qed.

Lemma search_from_mono re re' prev s :
  (∀ pv t, is_Some (match_at re pv t) → is_Some (match_at re' pv t)) →
  is_Some (search_from re prev s) → is_Some (search_from re' prev s).
Proof.
  intros Hre. revert prev. induction s as [|c s IH]; intros prev;
    cbn [search_from].
  - destruct (match_at re prev []) as [m|] eqn:E; [|by intros [? [=]]].
    intros _. destruct (Hre prev []) as [m' ->]; by rewrite ?E.
  - destruct (match_at re prev (c :: s)) as [m|] eqn:E.
    + intros _. destruct (Hre prev (c :: s)) as [m' ->]; by rewrite ?E.
    + intros H. destruct (match_at re' prev (c :: s)); [done|].
      destruct (search_from re (Some c) s) as [[pre m]|] eqn:E';
        [|by destruct H as [? [=]]].
      destruct (IH (Some c)) as [[pre' m'] ->]; by rewrite ?E'.
Qed.

Lemma match_g_mono re re' s :
  (∀ pv t, is_Some (match_at re pv t) → is_Some (match_at re' pv t)) →
  is_Some (match_g re s) →
  ∃ line lines, match_g re' s = Some (line :: lines).
Proof.
  intros Hre H.
  assert (fst (gscan re None s 0) ≠ []) as Hne.
  { unfold match_g, global_matches in H. intros E. rewrite E in H.
    by destruct H as [? [=]]. }
  apply gscan_found, (search_from_mono re re' _ _ Hre), gscan_found in Hne.
  unfold match_g, global_matches.
  destruct (fst (gscan re' None s 0)) as [|[pre m] segs]; [done|].
  simpl. by eexists _, _.
Qed.

Lemma skip_while_snoc p (a : jsstring) x :
  p x = false → skip_while p (a ++ [x]) = skip_while p a ++ [x].
Proof.
  intros Hx. induction a as [|c a IH]; simpl; [by rewrite Hx|].
  by destruct (p c).
Qed.

Lemma trim_head c t :
  is_space c = false → head (trim (c :: t)) = Some c.
Proof.
  intros Hc. unfold trim. cbn [skip_while]. rewrite Hc.
  cbn [rev]. change (rev (c :: t)) with (rev t ++ [c]).
  rewrite skip_while_snoc by done. by rewrite rev_app_distr.
Qed.

Lemma matched_head re c r m :
  re_icase re = false → re_body re = Seq (Chr c) r →
  (1 ≤ min_len (re_body re))%nat →
  matched re m → ∃ t, m_text m = c :: t.
Proof.
  intros Hic Hb Hlen Hm.
  pose proof (matched_nonempty _ _ Hm Hlen) as Hne.
  destruct Hm as (prev & s & Hm).
  pose proof (match_at_Chr_head _ _ _ _ _ _ Hic Hb Hm) as Hhead.
  apply match_at_inv in Hm as (-> & _).
  destruct (m_text m) as [|x t]; [done|]. simpl in Hhead.
  injection Hhead as ->. by exists t.
Qed.

Lemma match_g_heads re c r s lines :
  re_icase re = false → re_body re = Seq (Chr c) r →
  (1 ≤ min_len (re_body re))%nat →
  match_g re s = Some lines →
  Forall (fun line => ∃ t, line = c :: t) lines.
Proof.
  intros Hic Hb Hlen. unfold match_g.
  assert (Forall (fun line => ∃ t, line = c :: t)
            (m_text <$> global_matches re s)) as HF.
  { rewrite Forall_fmap.
    eapply Forall_impl; [apply global_matches_matched|].
    intros m' Hm'. simpl. by eapply matched_head. }
  destruct (global_matches re s) as [|m ms]; [done|]. by intros [= <-].
Qed.

Lemma promptLines_heads output :
  Forall (fun line => head line = Some 63 ∨ head line = Some 62)
    (promptLines output).
Proof.
  unfold promptLines. rewrite Forall_fmap, Forall_app. split.
  - destruct (match_g questionLineRe output) as [lines|] eqn:E;
      [|by constructor].
    eapply Forall_impl;
      [exact (match_g_heads questionLineRe 63 _ _ _ eq_refl eq_refl
                ltac:(vm_compute; lia) E)|].
    intros line [t ->]. left. by apply trim_head.
  - destruct (match_g selectionLineRe output) as [lines|] eqn:E;
      [|by constructor].
    eapply Forall_impl;
      [exact (match_g_heads selectionLineRe 62 _ _ _ eq_refl eq_refl
                ltac:(vm_compute; lia) E)|].
    intros line [t ->]. right. by apply trim_head.
Qed.

Lemma hasPrompts_promptLines output :
  hasPrompts output = true → promptLines output ≠ [].
Proof.
  unfold hasPrompts, promptLines.
  intros [_ H]%andb_true_iff. apply orb_true_iff in H.
  destruct H as [H|H]; apply bool_decide_eq_true in H.
  - destruct (match_g_mono questionRe questionLineRe output
                (line_matches 63) H) as (line & lines & ->). done.
  - destruct (match_g_mono selectionRe selectionLineRe output
                (line_matches 62) H) as (line & lines & ->).
    simpl. destruct (default [] (match_g questionLineRe output)); done.
Qed.

Section Prompts.
Context {Number : Type}.
Context (number_is_falsy : Number → bool).

(** X21. A result that lists detected prompts lists at least one, each
    prompt begins with [?] or [>], the result is a failure with the
    interactive-mode error, and its suggestions are a line of introduction,
    one line for each prompt and a closing line. *)
Theorem promptsDetected_nonempty (generatorName : jsstring)
    (result : ProcessResult) (file : @YoRc Number) (lines : list jsstring) :
  r_promptsDetected (classify number_is_falsy generatorName result file)
  = Some lines →
  lines ≠ []
  ∧ Forall (fun line => head line = Some 63 ∨ head line = Some 62) lines
  ∧ r_success (classify number_is_falsy generatorName result file) = false
  ∧ r_error (classify number_is_falsy generatorName result file)
    = Some (lit "Generator entered interactive mode - missing required options")
  ∧ ∃ suggestions,
      r_suggestions (classify number_is_falsy generatorName result file)
      = Some suggestions
      ∧ length suggestions = (length lines + 2)%nat.
Proof.
  unfold classify.
  destruct (includes (output result) _); [done|].
  destruct (hasPrompts (output result)) eqn:Hp.
  - cbn [r_promptsDetected r_success r_error r_suggestions].
    intros [= <-]. split_and!; try done.
    + by apply hasPrompts_promptLines.
    + apply promptLines_heads.
    + eexists. split; [done|].
      rewrite !length_app, length_fmap. simpl. lia.
  - destruct (includes (output result) _); [done|].
    by destruct (negb (success result)).
Qed.
End Prompts.

Lemma promptsDetected_nonempty_witness :
  [lit "? Pick one"] ≠ []
  ∧ Forall (fun line => head line = Some 63 ∨ head line = Some 62)
      [lit "? Pick one"].
Proof.
  destruct (promptsDetected_nonempty int_is_falsy (lit "webapp")
              (on_close (Some 0%Z) (lit "? Pick one" ++ LFs))
              YoRcMissing [lit "? Pick one"]) as (H1 & H2 & _).
  - vm_compute. reflexivity.
  - by split.
Defined.

(** ** The size of a cleaned output *)

Lemma replace_length re f s prev skip :
  (∀ m, matched re m → (length (f m) ≤ length (m_text m))%nat) →
  (skip ≤ length s)%nat →
  (length (render f (gscan re prev s skip)) + skip ≤ length s)%nat.
Proof.
  intros Hf. revert prev skip.
  induction s as [|c s IH]; intros prev skip Hskip.
  - destruct skip; [|simpl in Hskip; lia]. cbn [gscan].
    destruct (match_at re prev []) as [m|] eqn:E; [|simpl; lia].
    unfold render. simpl. rewrite !(right_id_L [] (++)).
    assert (matched re m) as Hm by (by exists prev, []).
    apply Hf in Hm. apply match_at_inv in E as (E & _).
    destruct (m_text m); [simpl in *; lia|done].
  - destruct skip as [|n]; cbn [gscan].
    + destruct (match_at re prev (c :: s)) as [m|] eqn:E.
      * assert (matched re m) as Hm by (by exists prev, (c :: s)).
        apply Hf in Hm. apply match_at_inv in E as (E & _).
        apply (f_equal length) in E. rewrite length_app in E. simpl in E.
        destruct (length (m_text m)) as [|n] eqn:El.
        -- rewrite render_cons_match, render_cons_text, length_app.
           simpl. specialize (IH (Some c) 0%nat ltac:(lia)). lia.
        -- rewrite render_cons_match, length_app.
           specialize (IH (Some c) n ltac:(lia)). simpl. lia.
      * rewrite render_cons_text. simpl.
        specialize (IH (Some c) 0%nat ltac:(lia)). lia.
    + simpl in Hskip. specialize (IH (Some c) n ltac:(lia)). simpl. lia.
Qed.

Lemma replace_g_length re f s :
  (∀ m, matched re m → (length (f m) ≤ length (m_text m))%nat) →
  (length (replace_g re f s) ≤ length s)%nat.
Proof.
  intros Hf. pose proof (replace_length re f s None 0 Hf ltac:(lia)).
  unfold replace_g. lia.
Qed.

Lemma replace_g_shorter re (w : jsstring) s :
  (length w ≤ min_len (re_body re))%nat →
  (length (replace_g re (fun _ => w) s) ≤ length s)%nat.
Proof.
  intros Hw. apply replace_g_length. intros m [Hm _]%matched_inv. lia.
Qed.

(** X22. Cleaning adds nothing to an output: the result is never longer
    than the output, and each of its code units is a code unit of the
    output or a line feed. *)
Theorem cleanOutput_adds_nothing (output : jsstring) :
  (length (cleanOutput output) ≤ length output)%nat
  ∧ ∀ c, c ∈ cleanOutput output → c ∈ output ∨ c = LF.
Proof.
  split.
  - unfold cleanOutput, remove.
    repeat (etrans; [apply replace_g_shorter; vm_compute; lia|]). done.
  - assert (Forall (fun c => c ∈ output ∨ c = LF) (cleanOutput output)) as H.
    { unfold cleanOutput, remove, replace_g.
      repeat (apply replace_Forall;
              [intros _; repeat constructor; by right|]).
      apply Forall_forall. by left. }
    rewrite Forall_forall in H. exact H.
Qed.

(** ** The required flag of a parsed option *)

Lemma includes_skip_while p (s w : jsstring) c :
  head w = Some c → p c = false →
  includes s w = true → includes (skip_while p s) w = true.
Proof.
  intros Hw Hc. induction s as [|x s IH]; [done|]. intros H.
  cbn [skip_while]. destruct (p x) eqn:Hx; [|done].
  apply IH. simpl in H. apply orb_true_iff in H as [H|H]; [|done].
  destruct w as [|y w]; [done|]. simpl in Hw. injection Hw as ->.
  simpl in H. apply andb_true_iff in H as [H _].
  apply N.eqb_eq in H as ->. congruence.
Qed.

Lemma includes_rev (s w : jsstring) :
  includes s w = true → includes (rev s) (rev w) = true.
Proof.
  rewrite !includes_spec. intros (a & b & ->). exists (rev b), (rev a).
  by rewrite !rev_app_distr, <-!(assoc_L (++)).
Qed.

Lemma includes_trim (s w : jsstring) c c' :
  head w = Some c → is_space c = false →
  last w = Some c' → is_space c' = false →
  includes s w = true → includes (trim s) w = true.
Proof.
  intros Hh Hc Hl Hc' H. unfold trim.
  rewrite <-(rev_involutive w). apply includes_rev.
  apply (includes_skip_while _ _ _ c'); [|done|].
  - destruct (rev w) as [|x t] eqn:E.
    + apply (f_equal (@rev _)) in E. rewrite rev_involutive in E.
      by subst w.
    + apply (f_equal (@rev _)) in E. rewrite rev_involutive in E.
      subst w. simpl in Hl. rewrite last_snoc in Hl. by injection Hl as ->.
  - apply includes_rev. by apply (includes_skip_while _ _ _ c).
Qed.

Lemma optionBody_flag m result result' :
  optionBody m result = Returns result' →
  ∃ o, result' = push_option o result
       ∧ (opt_name o ∉ nonRequiredOptions →
          includes (opt_description o) (lit "Optional") = false →
          opt_required o = Some true).
Proof.
  unfold optionBody. destruct (cap m 2) as [name|]; [|done].
  destruct (cap m 3) as [description|]; [|done]. simpl. intros [= <-].
  eexists. split; [done|]. simpl. intros Hdeny Hopt.
  unfold array_includes. rewrite bool_decide_eq_false_2 by done.
  destruct (includes description (lit "Optional")) eqn:E.
  - apply (includes_trim _ _ 79 108) in E; [congruence|done..].
  - by rewrite orb_true_r.
Qed.

Lemma parseOptions_flag helpOutput result result' :
  options result = [] →
  parseOptions helpOutput result = Returns result' →
  Forall (fun o => opt_name o ∉ nonRequiredOptions →
                   includes (opt_description o) (lit "Optional") = false →
                   opt_required o = Some true) (options result').
Proof.
  unfold parseOptions. intros Hnil.
  destruct (search optionsSectionRe helpOutput) as [m|];
    [|intros [= <-]; rewrite Hnil; constructor].
  apply (exec_loop_invariant optionBody
           (fun st => Forall (fun o =>
              opt_name o ∉ nonRequiredOptions →
              includes (opt_description o) (lit "Optional") = false →
              opt_required o = Some true) (options st)));
    [|rewrite Hnil; constructor].
  intros m' st st' Hst (o & -> & Ho)%optionBody_flag. simpl.
  apply Forall_app. split; [done|]. by constructor.
Qed.

Lemma promptBody_flag section o o' :
  promptBody section o = Returns o' →
  opt_name o' = opt_name o ∧ opt_description o' = opt_description o
  ∧ opt_default o' = opt_default o ∧ opt_flag o' = opt_flag o
  ∧ (opt_name o ∉ nonRequiredOptions → opt_required o = Some true →
     opt_required o' = Some true).
Proof.
  unfold promptBody, array_includes. case_bool_decide as Hin.
  - intros [= <-]. by split_and!.
  - destruct section as [section|]; [|done]. simpl.
    destruct (includes section (opt_name o)); intros [= <-]; by split_and!.
Qed.

Lemma parsePrompts_flag helpOutput result result' :
  parsePrompts helpOutput result = Returns result' →
  Forall (fun o => opt_name o ∉ nonRequiredOptions →
                   includes (opt_description o) (lit "Optional") = false →
                   opt_required o = Some true) (options result) →
  Forall (fun o => opt_name o ∉ nonRequiredOptions →
                   includes (opt_description o) (lit "Optional") = false →
                   opt_required o = Some true) (options result').
Proof.
  unfold parsePrompts.
  destruct (search promptSectionRe helpOutput) as [m|]; [|by intros [= <-]].
  destruct (mapM _ _) as [opts| |] eqn:E; [|done|done]. intros [= <-]. simpl.
  apply mapM_Forall2 in E.
  induction E as [|o o' os os' Ho _ IH]; [done|].
  intros [H Hs]%Forall_cons. constructor; [|by apply IH].
  apply promptBody_flag in Ho as (Hn & Hd & _ & _ & Hr).
  rewrite Hn, Hd. intros Hdeny Hopt. apply Hr; [done|]. by apply H.
Qed.

Section Flagged.
Context (toLowerCase : jsstring → jsstring).

(** X23. The parser flags as required every option that is not on the
    deny-list and whose description does not hold the word [Optional],
    whether or not the help gives it a default value; such an option is
    then classified required. *)
Theorem required_unless_optional (helpOutput : jsstring) (info : HelpInfo)
    (o : OptionInfo) :
  parseGeneratorHelp helpOutput = Returns info →
  o ∈ options info →
  opt_name o ∉ nonRequiredOptions →
  includes (opt_description o) (lit "Optional") = false →
  opt_required o = Some true
  ∧ isOptionRequired toLowerCase o = Returns true.
Proof.
  unfold parseGeneratorHelp. intros Hparse Ho Hdeny Hopt.
  destruct (parseUsage_returns helpOutput (mkHelpInfo [] []))
    as (r1 & H1 & O1).
  rewrite H1 in Hparse. simpl in Hparse.
  destruct (parseArguments_returns helpOutput r1) as (r2 & H2 & O2).
  rewrite H2 in Hparse. simpl in Hparse.
  destruct (parseOptions helpOutput r2) as [r3| |] eqn:H3; [|done|done].
  simpl in Hparse.
  apply parseOptions_flag in H3; [|by rewrite O2, O1].
  pose proof (parsePrompts_flag _ _ _ Hparse H3) as HF.
  rewrite Forall_forall in HF. specialize (HF o Ho Hdeny Hopt).
  split; [done|]. unfold isOptionRequired.
  by rewrite bool_decide_eq_true_2.
Qed.
End Flagged.

Lemma required_unless_optional_witness :
  ∃ o, opt_name o = lit "typescript" ∧ opt_default o = None
       ∧ opt_required o = Some true
       ∧ isOptionRequired ascii_lower o = Returns true.
Proof.
  exists (mkOption (lit "typescript") [] (lit "Use TypeScript") None
            (Some true)).
  split; [done|]. split; [done|].
  eapply (required_unless_optional ascii_lower help_typescript).
  - vm_compute. reflexivity.
  - apply list_elem_of_here.
  - compute_done.
  - vm_compute. reflexivity.
Defined.

(** ** From the request to the checks *)

Section RequestChecks.
Context {Number : Type}.
Context (number_is_falsy : Number → bool).
Context (toLowerCase : jsstring → jsstring).
Context (extractUsageFromHelp : jsstring → option jsstring).

(** X24. A yeoman_generate request with an application name and a version
    covers the first two arguments of the generator: when the help has no
    more arguments than these two and the caller's own, the run is never
    stopped for missing arguments. *)
Theorem request_covers_arguments (req : @GenerateRequest Number)
    (helpOutput : jsstring) (info : HelpInfo) (missing : list MissingArg)
    (usage : option jsstring) (suggestions : list jsstring) :
  req_appName req ≠ [] → req_version req ≠ [] →
  parseGeneratorHelp helpOutput = Returns info →
  (length (help_args info) ≤ 2 + length (default [] (req_args req)))%nat →
  preflight number_is_falsy toLowerCase extractUsageFromHelp
    (Some helpOutput) (run_generatorName (yeoman_generate req))
    (run_args (yeoman_generate req)) (run_options (yeoman_generate req))
  ≠ Returns (Some (MissingRequiredArguments missing usage suggestions)).
Proof.
  intros Ha Hv Hparse Hlen.
  destruct (preflight_spec number_is_falsy toLowerCase extractUsageFromHelp
              helpOutput (run_generatorName (yeoman_generate req))
              (run_args (yeoman_generate req))
              (run_options (yeoman_generate req)))
    as (info' & Hparse' & ->).
  rewrite Hparse in Hparse'. injection Hparse' as <-.
  assert (missing_args (run_args (yeoman_generate req)) (help_args info)
          = []) as ->.
  { apply missing_args_nil. intros i a Hi _.
    apply lookup_lt_Some in Hi. simpl.
    rewrite allPositionalArgs_spec, !decide_False by done. simpl. lia. }
  by destruct (missing_options _ _ _ _).
Qed.
End RequestChecks.

Lemma request_covers_arguments_witness :
  preflight int_is_falsy ascii_lower (fun _ => None)
    (Some help_scenario) (run_generatorName (yeoman_generate request_loud))
    (run_args (yeoman_generate request_loud))
    (run_options (yeoman_generate request_loud))
  ≠ Returns (Some (MissingRequiredArguments [] None [])).
Proof.
  destruct (parseGeneratorHelp help_scenario) as [info| |] eqn:E;
    [|vm_compute in E; discriminate E..].
  apply (request_covers_arguments int_is_falsy ascii_lower (fun _ => None)
           request_loud help_scenario info [] None []).
  - compute_done.
  - compute_done.
  - exact E.
  - vm_compute in E. injection E as <-. vm_compute. lia.
Defined.
